(** * KAZE features (modules/features2d/src/kaze.cpp): a shallow embedding

    The development follows the source file function by function:

    - [IEEE]       single and double precision arithmetic as the C++ code
                   uses it (binary32 [float], binary64 [double], the usual
                   promotions written out);
    - [Model]      matrices, [tevolution], [KeyPoint], the options, and what
                   the file takes from its headers and from OpenCV;
    - [Detector]   [Find_Extremum_Threading], [Determinant_Hessian_Parallel],
                   [Do_Subpixel_Refinement], [Feature_Detection];
    - [Descriptor] the SURF, M-SURF and G-SURF descriptor extractors and
                   their normalisation tail;
    - [AOS]        [AOS_Rows], [AOS_Columns], [Thomas], [AOS_Step_Scalar],
                   over any element arithmetic;
    - [ScaleSpace] [Allocate_Memory_Evolution], over any scalar arithmetic;
    - [Angle]      [Get_Angle];
    - [Reference]  executable stand-ins for the externals;
    - [Examples]   concrete scale spaces and keypoints;
    - [Suppression] [Feature_Suppression_Distance];
    - [Totals]     sums over the entries of a matrix;
    - [Orientation] [Compute_Main_Orientation_SURF];
    - [Description] [Feature_Description] and the three invokers;
    - [Response]   [Compute_Detector_Response];
    - [Cases]      further concrete inputs. *)

From Stdlib Require Import ZArith List Bool Lia.
From Stdlib Require Import Floats.SpecFloat.
From Stdlib Require Import Reals Lra.
From stdpp Require Import base list.

Local Open Scope Z_scope.

(** ** Loops

    [for (int i = lo; i < hi; i++) s = body i s]. *)
Definition for_range {St : Type} (lo hi : Z) (body : Z -> St -> St) (s : St) : St :=
  fold_left (fun acc i => body i acc) (seqZ lo (hi - lo)) s.

(** [for (int i = lo; i < hi; i += step) s = body i s], for [step > 0]:
    the loop runs for [lo], [lo + step], ... below [hi]. *)
Definition for_step {St : Type} (lo hi step : Z) (body : Z -> St -> St) (s : St) : St :=
  fold_left (fun acc n => body (lo + step * n) acc)
            (seqZ 0 ((hi - lo + step - 1) / step)) s.

(** [while (cond s) s = body s], with the number of iterations bounded by
    [fuel]: [None] when the bound is reached with [cond] still true. *)
Fixpoint while_loop {St : Type} (fuel : nat) (cond : St -> bool) (body : St -> option St)
  (s : St) {struct fuel} : option St :=
  if cond s then
    match fuel with
    | O => None
    | S fuel' =>
        match body s with
        | Some s' => while_loop fuel' cond body s'
        | None => None
        end
    end
  else Some s.

(* ================================================================== *)
(** ** IEEE 754 arithmetic, as the compiler evaluates the C++ expressions *)
(* ================================================================== *)
Module IEEE.

(** A C++ [float] is a binary32 value and a [double] a binary64 value; both
    are carried by the specification floats of the standard library, each
    kept in the canonical form of its own format. *)
Record float := F32 { f32 : spec_float }.
Record double := F64 { f64 : spec_float }.

Definition prec32 : Z := 24.
Definition emax32 : Z := 128.
Definition prec64 : Z := 53.
Definition emax64 : Z := 1024.

(** *** [float] operations (both operands [float]) *)
Definition fadd (a b : float) : float := F32 (SFadd prec32 emax32 (f32 a) (f32 b)).
Definition fsub (a b : float) : float := F32 (SFsub prec32 emax32 (f32 a) (f32 b)).
Definition fmul (a b : float) : float := F32 (SFmul prec32 emax32 (f32 a) (f32 b)).
Definition fdiv (a b : float) : float := F32 (SFdiv prec32 emax32 (f32 a) (f32 b)).
Definition fsqrt (a : float) : float := F32 (SFsqrt prec32 emax32 (f32 a)).
Definition fabs (a : float) : float := F32 (SFabs (f32 a)).
Definition fneg (a : float) : float := F32 (SFopp (f32 a)).
(** [a < b], [a <= b], [a > b], [a >= b], [a == b], [a != b]; every ordered
    comparison with a NaN operand is false, [!=] is true. *)
Definition flt (a b : float) : bool := SFltb (f32 a) (f32 b).
Definition fle (a b : float) : bool := SFleb (f32 a) (f32 b).
Definition fgt (a b : float) : bool := flt b a.
Definition fge (a b : float) : bool := fle b a.
Definition feq (a b : float) : bool := SFeqb (f32 a) (f32 b).
Definition fne (a b : float) : bool := negb (feq a b).

(** *** [double] operations *)
Definition dadd (a b : double) : double := F64 (SFadd prec64 emax64 (f64 a) (f64 b)).
Definition dsub (a b : double) : double := F64 (SFsub prec64 emax64 (f64 a) (f64 b)).
Definition dmul (a b : double) : double := F64 (SFmul prec64 emax64 (f64 a) (f64 b)).
Definition ddiv (a b : double) : double := F64 (SFdiv prec64 emax64 (f64 a) (f64 b)).
Definition dsqrt (a : double) : double := F64 (SFsqrt prec64 emax64 (f64 a)).
Definition dabs (a : double) : double := F64 (SFabs (f64 a)).
Definition dneg (a : double) : double := F64 (SFopp (f64 a)).
Definition dlt (a b : double) : bool := SFltb (f64 a) (f64 b).
Definition dle (a b : double) : bool := SFleb (f64 a) (f64 b).
Definition dgt (a b : double) : bool := dlt b a.
Definition dge (a b : double) : bool := dle b a.
Definition deq (a b : double) : bool := SFeqb (f64 a) (f64 b).
Definition dne (a b : double) : bool := negb (deq a b).

(** *** Conversions *)
Definition round_to (prec emax : Z) (x : spec_float) : spec_float :=
  match x with
  | S754_finite s m e => binary_round prec emax s m e
  | _ => x
  end.

(** [float] to [double]: exact. *)
Definition to_double (a : float) : double := F64 (round_to prec64 emax64 (f32 a)).
(** [double] to [float]: round to nearest, ties to even. *)
Definition to_float (a : double) : float := F32 (round_to prec32 emax32 (f64 a)).

Definition float_of_int (z : Z) : float := F32 (binary_normalize prec32 emax32 z 0 false).
Definition double_of_int (z : Z) : double := F64 (binary_normalize prec64 emax64 z 0 false).

(** [(int)x]: truncation toward zero.  The C++ conversion is undefined for
    NaN, the infinities and values outside the range of [int]; the model
    returns 0 for the special values and the mathematical integer otherwise. *)
Definition trunc_sf (x : spec_float) : Z :=
  match x with
  | S754_finite s m e =>
      let v := Z.shiftl (Zpos m) e in if s then - v else v
  | _ => 0
  end.
Definition int_of_float (a : float) : Z := trunc_sf (f32 a).
Definition int_of_double (a : double) : Z := trunc_sf (f64 a).

(** *** Literals: [m * 2^e] *)
Definition fconst (m e : Z) : float := F32 (binary_normalize prec32 emax32 m e false).
Definition dconst (m e : Z) : double := F64 (binary_normalize prec64 emax64 m e false).
Definition fzero : float := F32 (S754_zero false).
Definition dzero : double := F64 (S754_zero false).
Definition fnan : float := F32 S754_nan.
Definition d0_5 : double := dconst 1 (-1).
Definition d1_0 : double := dconst 1 0.
Definition d2_0 : double := dconst 1 1.
Definition d4_0 : double := dconst 1 2.

(** [pow(x, 2)] with a [float] base and the [int] exponent 2 is evaluated in
    [double]; the square of a binary32 value has at most 48 significant bits
    and is therefore the exact product. *)
Definition pow2 (x : float) : double := dmul (to_double x) (to_double x).

(** [fRound]: [(int)(flt + 0.5)], the sum taken in [double]. *)
Definition fRound (flt : float) : Z := int_of_double (dadd (to_double flt) d0_5).

(** Zeros of either sign, and NaN. *)
Definition is_zero (a : float) : bool :=
  match f32 a with S754_zero _ => true | _ => false end.
Definition is_nan (a : float) : bool :=
  match f32 a with S754_nan => true | _ => false end.
(** A zero of either sign or NaN: what sums and products built from zero
    samples can be. *)
Definition z0n (a : float) : bool := is_zero a || is_nan a.

End IEEE.

(* ================================================================== *)
(** ** The data model shared by the detector and the descriptors *)
(* ================================================================== *)
Module Model.
Import IEEE.

(** A continuous single-channel [CV_32F] [cv::Mat]: [rows * cols] floats in
    row-major order. *)
Record Mat := mkMat { rows : Z; cols : Z; data : list float }.

(** [*(m.ptr<float>(y) + x)].  Every access the modelled functions make at a
    pixel of the image is in range; an access outside the buffer, undefined
    in C++, reads 0 here. *)
Definition Mat_at (m : Mat) (y x : Z) : float :=
  nth (Z.to_nat (y * cols m + x)) (data m) fzero.

Definition Mat_zeros (r c : Z) : Mat := mkMat r c (replicate (Z.to_nat (r * c)) fzero).

(** [tevolution] (kaze.h): one level of the nonlinear scale space.  The
    fields [octave] and [sublevel] hold the loop counters of
    [Allocate_Memory_Evolution]. *)
Record tevolution := mkEvolution {
  Lx : Mat; Ly : Mat;
  Lxx : Mat; Lxy : Mat; Lyy : Mat;
  Ldet : Mat;
  esigma : float;
  etime : float;
  sigma_size : Z;
  octave : Z;
  sublevel : Z
}.

Definition KAZEEvolution := list tevolution.

Definition tevolution_empty : tevolution :=
  let z := Mat_zeros 0 0 in
  mkEvolution z z z z z z fzero fzero 0 0 0.

(** [evolution[i]] *)
Definition evolution_at (ev : KAZEEvolution) (i : Z) : tevolution :=
  nth (Z.to_nat i) ev tevolution_empty.

(** [cv::KeyPoint] *)
Record KeyPoint := mkKeyPoint {
  pt_x : float; pt_y : float;
  size : float;
  angle : float;
  response : float;
  kp_octave : Z;
  class_id : Z
}.

(** The fields of [KAZEOptions] the modelled functions read. *)
Record KAZEOptions := mkOptions {
  img_width : Z;
  img_height : Z;
  nsublevels : Z;
  soffset : float;
  dthreshold : float
}.

(** What the file takes from its headers and from OpenCV: the constants of
    kaze_config.h ([DEFAULT_MIN_DETECTOR_THRESHOLD] and the three that
    steer the clipping normalisation), [Check_Maximum_Neighbourhood]
    (declared in the utilities header), [cv::solve] with [DECOMP_LU], and
    the single-precision [pow], [cos], [sin] and [exp] of the C library,
    and its [atan], whose result is read as a [double] (exactly so if the
    call resolves to the [float] overload). *)
Class Externals := {
  DEFAULT_MIN_DETECTOR_THRESHOLD : double;
  USE_CLIPPING_NORMALIZATION : bool;
  CLIPPING_NORMALIZATION_NITER : Z;
  CLIPPING_NORMALIZATION_RATIO : float;
  Check_Maximum_Neighbourhood : Mat -> Z -> float -> Z -> Z -> bool -> bool;
  cv_solve : Mat -> Mat -> Mat;
  powf : float -> float -> float;
  cosf : float -> float;
  sinf : float -> float;
  expf : float -> float;
  atan : float -> double
}.

End Model.

(* ================================================================== *)
(** ** The detector *)
(* ================================================================== *)
Module Detector.
Import IEEE Model.

Section WithExternals.
Context {ext : Externals}.
Variable options : KAZEOptions.
Variable evolution : KAZEEvolution.

(** [*(evolution[level].Ldet.ptr<float>(y) + x)] *)
Definition Ldet_at (level y x : Z) : float := Mat_at (Ldet (evolution_at evolution level)) y x.

(** The body of the two loops of [Find_Extremum_Threading] up to the
    assignment of [is_extremum]. *)
Definition extremum_test (level ix jx : Z) : bool :=
  let value := Ldet_at level ix jx in
  if fgt value (dthreshold options)
     && dge (to_double value) DEFAULT_MIN_DETECTOR_THRESHOLD then
    if fge value (Ldet_at level ix (jx - 1)) then
      if Check_Maximum_Neighbourhood (Ldet (evolution_at evolution level)) 1 value ix jx true then
        if Check_Maximum_Neighbourhood (Ldet (evolution_at evolution (level - 1))) 1 value ix jx false then
          if Check_Maximum_Neighbourhood (Ldet (evolution_at evolution (level + 1))) 1 value ix jx false then
            true
          else false
        else false
      else false
    else false
  else false.

(** The keypoint built under [if (is_extremum == true)]. *)
Definition extremum_point (level ix jx : Z) : KeyPoint :=
  let value := Ldet_at level ix jx in
  {| pt_x := float_of_int jx;
     pt_y := float_of_int ix;
     response := fabs value;
     size := esigma (evolution_at evolution level);
     kp_octave := octave (evolution_at evolution level);
     class_id := level;
     angle := float_of_int (sublevel (evolution_at evolution level)) |}.

(** [Find_Extremum_Threading(level)]: appends to [kpts_par[level-1]]. *)
Definition Find_Extremum_Threading (level : Z) (kpts_par : list (list KeyPoint))
  : list (list KeyPoint) :=
  for_range 1 (img_height options - 1) (fun ix kpts_par =>
    for_range 1 (img_width options - 1) (fun jx kpts_par =>
      if extremum_test level ix jx then
        alter (fun v => v ++ [extremum_point level ix jx]) (Z.to_nat (level - 1)) kpts_par
      else kpts_par) kpts_par) kpts_par.

(** [pow(a.pt.x - b.pt.x, 2) + pow(a.pt.y - b.pt.y, 2)], stored in the
    [float] variable [dist]. *)
Definition sq_dist (a b : KeyPoint) : float :=
  to_float (dadd (pow2 (fsub (pt_x a) (pt_x b))) (pow2 (fsub (pt_y a) (pt_y b)))).

(** [kpts[ik].class_id == level || ... == level+1 || ... == level-1] *)
Definition class_near (k : KeyPoint) (level : Z) : bool :=
  (class_id k =? level) || (class_id k =? level + 1) || (class_id k =? level - 1).

(** [dist < evolution[level].sigma_size * evolution[level].sigma_size] *)
Definition too_close (cand k : KeyPoint) (level : Z) : bool :=
  let s := sigma_size (evolution_at evolution level) in
  flt (sq_dist cand k) (float_of_int (s * s)).

(** The flags the inner [for (ik ...)] loop of
    [Determinant_Hessian_Parallel] leaves behind. *)
Record search_flags := mkFlags {
  is_extremum : bool;
  is_repeated : bool;
  id_repeated : nat
}.

(** The loop over [kpts] from index [ik] on, with its [break]. *)
Fixpoint search_repeated (cand : KeyPoint) (level : Z) (kpts : list KeyPoint) (ik : nat)
  : search_flags :=
  match kpts with
  | [] => mkFlags true false 0%nat
  | k :: rest =>
      if class_near k level then
        if too_close cand k level then
          if fgt (response cand) (response k) then mkFlags true true ik
          else mkFlags false false 0%nat
        else search_repeated cand level rest (S ik)
      else search_repeated cand level rest (S ik)
  end.

(** One iteration of the loop over [j]: the candidate [kpts_par[i][j]] of
    level [i+1] against the accepted [kpts].  The bounds test that sets
    [is_out] is overwritten by [is_out = false] before it is read and is
    left out. *)
Definition dedup_step (level : Z) (cand : KeyPoint) (kpts : list KeyPoint) : list KeyPoint :=
  let f := search_repeated cand level kpts 0%nat in
  if is_extremum f then
    if is_repeated f then <[id_repeated f := cand]> kpts
    else kpts ++ [cand]
  else kpts.

(** [Determinant_Hessian_Parallel(kpts)], for an allocated scale space
    ([evolution.size() >= 1]). *)
Definition Determinant_Hessian_Parallel (kpts : list KeyPoint) : list KeyPoint :=
  let n := Z.of_nat (length evolution) in
  let kpts_par := for_range 1 (n - 1) (fun _ kp => kp ++ [[]]) [] in
  let kpts_par := for_range 1 (n - 1) (fun i kp => Find_Extremum_Threading i kp) kpts_par in
  for_range 0 (Z.of_nat (length kpts_par)) (fun i kpts =>
    let row := nth (Z.to_nat i) kpts_par [] in
    for_range 0 (Z.of_nat (length row)) (fun j kpts =>
      dedup_step (i + 1) (nth (Z.to_nat j) row (extremum_point 0 0 0)) kpts) kpts) kpts.


(** The gradient and the Hessian of [Ldet] at the keypoint [k], as the body
    of the loop of [Do_Subpixel_Refinement] computes them ([step = 1]; the
    [double] factors and the rounding of each result to [float] written
    out). *)
Definition refine_step : Z := 1.

Definition refine_x (k : KeyPoint) : Z := int_of_float (pt_x k).
Definition refine_y (k : KeyPoint) : Z := int_of_float (pt_y k).

Definition half_step : double := ddiv d1_0 (dmul d2_0 (double_of_int refine_step)).
Definition quarter_step : double := ddiv d1_0 (dmul d4_0 (double_of_int refine_step)).
Definition inv_step_sq : double := ddiv d1_0 (double_of_int (refine_step * refine_step)).

Definition Dx (k : KeyPoint) : float :=
  let x := refine_x k in let y := refine_y k in
  let c := class_id k in let step := refine_step in
  to_float (dmul half_step
    (to_double (fsub (Ldet_at c y (x + step)) (Ldet_at c y (x - step))))).

Definition Dy (k : KeyPoint) : float :=
  let x := refine_x k in let y := refine_y k in
  let c := class_id k in let step := refine_step in
  to_float (dmul half_step
    (to_double (fsub (Ldet_at c (y + step) x) (Ldet_at c (y - step) x)))).

Definition Ds (k : KeyPoint) : float :=
  let x := refine_x k in let y := refine_y k in let c := class_id k in
  to_float (dmul d0_5
    (to_double (fsub (Ldet_at (c + 1) y x) (Ldet_at (c - 1) y x)))).

Definition Dxx (k : KeyPoint) : float :=
  let x := refine_x k in let y := refine_y k in
  let c := class_id k in let step := refine_step in
  to_float (dmul inv_step_sq
    (dsub (to_double (fadd (Ldet_at c y (x + step)) (Ldet_at c y (x - step))))
          (dmul d2_0 (to_double (Ldet_at c y x))))).

Definition Dyy (k : KeyPoint) : float :=
  let x := refine_x k in let y := refine_y k in
  let c := class_id k in let step := refine_step in
  to_float (dmul inv_step_sq
    (dsub (to_double (fadd (Ldet_at c (y + step) x) (Ldet_at c (y - step) x)))
          (dmul d2_0 (to_double (Ldet_at c y x))))).

Definition Dss (k : KeyPoint) : float :=
  let x := refine_x k in let y := refine_y k in let c := class_id k in
  to_float
    (dsub (to_double (fadd (Ldet_at (c + 1) y x) (Ldet_at (c - 1) y x)))
          (dmul d2_0 (to_double (Ldet_at c y x)))).

Definition Dxy (k : KeyPoint) : float :=
  let x := refine_x k in let y := refine_y k in
  let c := class_id k in let step := refine_step in
  to_float (dsub
    (dmul quarter_step
       (to_double (fadd (Ldet_at c (y + step) (x + step)) (Ldet_at c (y - step) (x - step)))))
    (dmul quarter_step
       (to_double (fadd (Ldet_at c (y - step) (x + step)) (Ldet_at c (y + step) (x - step)))))).

Definition Dxs (k : KeyPoint) : float :=
  let x := refine_x k in let y := refine_y k in
  let c := class_id k in let step := refine_step in
  to_float (dsub
    (dmul quarter_step
       (to_double (fadd (Ldet_at (c + 1) y (x + step)) (Ldet_at (c - 1) y (x - step)))))
    (dmul quarter_step
       (to_double (fadd (Ldet_at (c + 1) y (x - step)) (Ldet_at (c - 1) y (x + step)))))).

Definition Dys (k : KeyPoint) : float :=
  let x := refine_x k in let y := refine_y k in
  let c := class_id k in let step := refine_step in
  to_float (dsub
    (dmul quarter_step
       (to_double (fadd (Ldet_at (c + 1) (y + step) x) (Ldet_at (c - 1) (y - step) x))))
    (dmul quarter_step
       (to_double (fadd (Ldet_at (c + 1) (y - step) x) (Ldet_at (c - 1) (y + step) x))))).

(** The matrix [A] and the right-hand side [b] handed to [cv::solve]. *)
Definition refine_A (k : KeyPoint) : Mat :=
  mkMat 3 3 [ Dxx k; Dxy k; Dxs k;
              Dxy k; Dyy k; Dys k;
              Dxs k; Dys k; Dss k ].

Definition refine_b (k : KeyPoint) : Mat :=
  mkMat 3 1 [ fneg (Dx k); fneg (Dy k); fneg (Ds k) ].

(** [cv::solve(A, b, dst, cv::DECOMP_LU)] *)
Definition refine_dst (k : KeyPoint) : Mat := cv_solve (refine_A k) (refine_b k).

(** [fabs(dst[0]) <= 1.0 && fabs(dst[1]) <= 1.0 && fabs(dst[2]) <= 1.0] *)
Definition refine_accept (dst : Mat) : bool :=
  dle (to_double (fabs (Mat_at dst 0 0))) d1_0
  && dle (to_double (fabs (Mat_at dst 1 0))) d1_0
  && dle (to_double (fabs (Mat_at dst 2 0))) d1_0.

(** The assignments of the accepting branch. *)
Definition refine_update (k : KeyPoint) (dst : Mat) : KeyPoint :=
  let dsc :=
    fadd (float_of_int (kp_octave k))
         (fdiv (fadd (angle k) (Mat_at dst 2 0)) (float_of_int (nsublevels options))) in
  {| pt_x := fadd (pt_x k) (Mat_at dst 0 0);
     pt_y := fadd (pt_y k) (Mat_at dst 1 0);
     size := to_float (dmul (dmul d2_0 (to_double (soffset options)))
                            (to_double (powf (fconst 1 1) dsc)));
     angle := fzero;
     response := response k;
     kp_octave := kp_octave k;
     class_id := class_id k |}.

(** The loop [for (i = 0; i < kpts.size(); i++)] of
    [Do_Subpixel_Refinement]: an accepted keypoint is overwritten and [i]
    advances; a rejected one is erased and, after [i--] and the loop's
    [i++], [i] stays.  Each iteration shrinks [kpts.size() - i], so
    [kpts.size()] iterations from [i = 0] reach the exit. *)
Fixpoint refine_loop (fuel : nat) (kpts : list KeyPoint) (i : nat) : list KeyPoint :=
  match fuel with
  | O => kpts
  | S fuel' =>
      match kpts !! i with
      | None => kpts
      | Some k =>
          let dst := refine_dst k in
          if refine_accept dst then refine_loop fuel' (<[i := refine_update k dst]> kpts) (S i)
          else refine_loop fuel' (delete i kpts) i
      end
  end.

Definition Do_Subpixel_Refinement (kpts : list KeyPoint) : list KeyPoint :=
  refine_loop (length kpts) kpts 0%nat.

(** [Feature_Detection(kpts)] once [Compute_Detector_Response] has filled
    [Ldet] on every level: the evolution handed to this section is the state
    after that call. *)
Definition Feature_Detection (kpts : list KeyPoint) : list KeyPoint :=
  Do_Subpixel_Refinement (Determinant_Hessian_Parallel kpts).

(** *** The dedup step in the words of the specification

    The first accepted keypoint whose [class_id] is within one of the
    candidate's level and whose squared distance to the candidate is below
    [sigma_size[level]^2] decides: the candidate replaces it in place when
    its response is strictly larger and is discarded otherwise; with no
    such keypoint the candidate is appended. *)
Definition dedup_spec (level : Z) (cand : KeyPoint) (kpts : list KeyPoint) : list KeyPoint :=
  match list_find (fun k => class_near k level && too_close cand k level = true) kpts with
  | Some (ik, incumbent) =>
      if fgt (response cand) (response incumbent) then <[ik := cand]> kpts else kpts
  | None => kpts ++ [cand]
  end.

(** The candidates of one level in raster order, and of all interior
    levels in level order. *)
Definition level_candidates (level : Z) : list KeyPoint :=
  flat_map (fun ix =>
    flat_map (fun jx =>
      if extremum_test level ix jx then [extremum_point level ix jx] else [])
      (seqZ 1 (img_width options - 2)))
    (seqZ 1 (img_height options - 2)).

Definition interior_levels : list Z := seqZ 1 (Z.of_nat (length evolution) - 2).

Definition all_candidates : list (Z * KeyPoint) :=
  flat_map (fun level => map (fun c => (level, c)) (level_candidates level)) interior_levels.

(** Sub-pixel refinement of one keypoint in the words of the specification:
    solve, accept when all three components are at most 1 in magnitude. *)
Definition refine_one (k : KeyPoint) : option KeyPoint :=
  let dst := refine_dst k in
  if refine_accept dst then Some (refine_update k dst) else None.

End WithExternals.
End Detector.

(* ================================================================== *)
(** ** The descriptor extractors *)
(* ================================================================== *)
Module Descriptor.
Import IEEE Model.

(** [Check_Descriptor_Limits(x, y, width, height)] *)
Definition Check_Descriptor_Limits (x y width height : Z) : Z * Z :=
  let x := if x <? 0 then 0 else x in
  let y := if y <? 0 then 0 else y in
  let x := if x >? width - 1 then width - 1 else x in
  let y := if y >? height - 1 then height - 1 else y in
  (x, y).

(** The four sums of a 64-dimensional sub-cell and the eight of a
    128-dimensional one. *)
Record sums64 := mk64 { dx : float; dy : float; mdx : float; mdy : float }.
Record sums128 := mk128 {
  dxp : float; dxn : float; mdxp : float; mdxn : float;
  dyp : float; dyn : float; mdyp : float; mdyn : float
}.

(** [dx=dy=mdx=mdy=0.0] *)
Definition zero64 : sums64 := mk64 fzero fzero fzero fzero.
Definition zero128 : sums128 := mk128 fzero fzero fzero fzero fzero fzero fzero fzero.

(** [dx += a; dy += b; mdx += fabs(a); mdy += fabs(b)] *)
Definition add64 (a b : float) (s : sums64) : sums64 :=
  mk64 (fadd (dx s) a) (fadd (dy s) b) (fadd (mdx s) (fabs a)) (fadd (mdy s) (fabs b)).

(** The extended SURF and M-SURF accumulation:
    [if (ry >= 0.0) { dxp += rx; mdxp += fabs(rx); } else { dxn += rx; mdxn += fabs(rx); }]
    [if (rx >= 0.0) { dyp += ry; mdyp += fabs(ry); } else { dyn += ry; mdyn += fabs(ry); }] *)
Definition surf128_accumulate (rx ry : float) (s : sums128) : sums128 :=
  let s :=
    if dge (to_double ry) dzero
    then mk128 (fadd (dxp s) rx) (dxn s) (fadd (mdxp s) (fabs rx)) (mdxn s)
               (dyp s) (dyn s) (mdyp s) (mdyn s)
    else mk128 (dxp s) (fadd (dxn s) rx) (mdxp s) (fadd (mdxn s) (fabs rx))
               (dyp s) (dyn s) (mdyp s) (mdyn s) in
  if dge (to_double rx) dzero
  then mk128 (dxp s) (dxn s) (mdxp s) (mdxn s)
             (fadd (dyp s) ry) (dyn s) (fadd (mdyp s) (fabs ry)) (mdyn s)
  else mk128 (dxp s) (dxn s) (mdxp s) (mdxn s)
             (dyp s) (fadd (dyn s) ry) (mdyp s) (fadd (mdyn s) (fabs ry)).

(** The accumulation of [Get_GSURF_Descriptor_128]:
    [if (lww >= 0.0) { dxp += lvv; mdxp += fabs(lvv); } else { dxn += lvv; mdxn += fabs(lvv); }]
    [if (lvv >= 0.0) { dyp += lww; mdyp += fabs(lww); } else { dyn += lww; mdyn += fabs(lww); }] *)
Definition gsurf128_accumulate (lww lvv : float) (s : sums128) : sums128 :=
  let s :=
    if dge (to_double lww) dzero
    then mk128 (fadd (dxp s) lvv) (dxn s) (fadd (mdxp s) (fabs lvv)) (mdxn s)
               (dyp s) (dyn s) (mdyp s) (mdyn s)
    else mk128 (dxp s) (fadd (dxn s) lvv) (mdxp s) (fadd (mdxn s) (fabs lvv))
               (dyp s) (dyn s) (mdyp s) (mdyn s) in
  if dge (to_double lvv) dzero
  then mk128 (dxp s) (dxn s) (mdxp s) (mdxn s)
             (fadd (dyp s) lww) (dyn s) (fadd (mdyp s) (fabs lww)) (mdyn s)
  else mk128 (dxp s) (dxn s) (mdxp s) (mdxn s)
             (dyp s) (fadd (dyn s) lww) (mdyp s) (fadd (mdyn s) (fabs lww)).

(** The values stored with [desc[dcount++] = ...], in order, and the
    increment of [len]; [g] is [gauss_s2] for M-SURF. *)
Definition emit64 (s : sums64) : list float := [dx s; dy s; mdx s; mdy s].
Definition emit128 (s : sums128) : list float :=
  [dxp s; dxn s; mdxp s; mdxn s; dyp s; dyn s; mdyp s; mdyn s].

Definition sq64 (s : sums64) : float :=
  fadd (fadd (fadd (fmul (dx s) (dx s)) (fmul (dy s) (dy s)))
             (fmul (mdx s) (mdx s))) (fmul (mdy s) (mdy s)).
Definition sq128 (s : sums128) : float :=
  fadd (fadd (fadd (fadd (fadd (fadd (fadd
    (fmul (dxp s) (dxp s)) (fmul (dxn s) (dxn s)))
    (fmul (mdxp s) (mdxp s))) (fmul (mdxn s) (mdxn s)))
    (fmul (dyp s) (dyp s))) (fmul (dyn s) (dyn s)))
    (fmul (mdyp s) (mdyp s))) (fmul (mdyn s) (mdyn s)).

Definition weighted (vals : list float) (g : float) : list float :=
  map (fun v => fmul v g) vals.
Definition weighted_sq (sq g : float) : float := fmul (fmul sq g) g.

(** A [float] sum accumulated from [0.0] in list order. *)
Definition fsum (l : list float) : float := fold_left fadd l fzero.

(** Of the samples, those whose [key] passes ([positive]) or fails the test
    [key >= 0.0], each contributing its [val]. *)
Definition bucket (key val : float * float -> float) (positive : bool)
  (samples : list (float * float)) : list float :=
  map val (List.filter (fun p => Bool.eqb (dge (to_double (key p)) dzero) positive) samples).

(** A descriptor row of [n] entries, none of them a number. *)
Definition undefined_row (n : nat) (d : list float) : Prop :=
  length d = n /\ Forall (fun v => is_nan v = true) d.

(** The output row [desc], the write index [dcount] and [len]. *)
Record out_state := mkOut { desc : list float; dcount : nat; len : float }.

(** [desc[dcount++] = v] for each [v] of [vals], then [len += sq]. *)
Definition store (vals : list float) (sq : float) (st : out_state) : out_state :=
  let st := fold_left (fun st v => mkOut (<[dcount st := v]> (desc st)) (S (dcount st)) (len st))
                      vals st in
  mkOut (desc st) (dcount st) (fadd (len st) sq).

Section WithExternals.
Context {ext : Externals}.
Variable options : KAZEOptions.
Variable evolution : KAZEEvolution.

(** [Clipping_Descriptor(desc, dsize, niter, ratio)] *)
Definition Clipping_Descriptor (desc : list float) (dsize niter : Z) (ratio : float)
  : list float :=
  let cratio := to_float (ddiv (to_double ratio) (dsqrt (double_of_int dsize))) in
  for_range 0 niter (fun _ desc =>
    let '(desc, len) :=
      for_range 0 dsize (fun j '(desc, len) =>
        let d := nth (Z.to_nat j) desc fzero in
        let d := if fgt d cratio then cratio
                 else if flt d (fneg cratio) then fneg cratio else d in
        (<[Z.to_nat j := d]> desc, fadd len (fmul d d))) (desc, fzero) in
    let len := fsqrt len in
    for_range 0 dsize (fun j desc =>
      <[Z.to_nat j := fdiv (nth (Z.to_nat j) desc fzero) len]> desc) desc) desc.

(** The tail every extractor ends with:
    [len = sqrt(len); for (i < dsize) desc[i] /= len;] and the optional
    clipping. *)
Definition normalize (dsize : Z) (st : out_state) : list float :=
  let len := fsqrt (len st) in
  let desc := for_range 0 dsize (fun i desc =>
                <[Z.to_nat i := fdiv (nth (Z.to_nat i) desc fzero) len]> desc) (desc st) in
  if USE_CLIPPING_NORMALIZATION
  then Clipping_Descriptor desc dsize CLIPPING_NORMALIZATION_NITER CLIPPING_NORMALIZATION_RATIO
  else desc.

(** [gaussian(x, y, sig)]: [exp(-(x*x+y*y)/(2.0f*sig*sig))] *)
Definition gaussian (x y sig : float) : float :=
  expf (fdiv (fneg (fadd (fmul x x) (fmul y y))) (fmul (fmul (fconst 1 1) sig) sig)).

Section OneKeypoint.
Variable kpt : KeyPoint.

(** "Get the information from the keypoint" *)
Definition yf : float := pt_y kpt.
Definition xf : float := pt_x kpt.
Definition scale : Z := fRound (to_float (ddiv (to_double (size kpt)) d2_0)).
Definition level : Z := class_id kpt.
Definition co : float := cosf (angle kpt).
Definition si : float := sinf (angle kpt).

(** [(sample_x, sample_y)] of the three sampling patterns. *)
Definition upright_position (k l : Z) : float * float :=
  (fadd (float_of_int (l * scale)) xf, fadd (float_of_int (k * scale)) yf).

Definition gsurf_upright_position (k l : Z) : float * float :=
  (fadd xf (float_of_int (k * scale)), fadd yf (float_of_int (l * scale))).

Definition rotated_position (k l : Z) : float * float :=
  (fadd xf (fadd (fmul (float_of_int (- l * scale)) si) (fmul (float_of_int (k * scale)) co)),
   fadd yf (fadd (fmul (float_of_int (l * scale)) co) (fmul (float_of_int (k * scale)) si))).

(** The corners of the pixel cell around a sample and the weights [fx],
    [fy]. *)
Record corners := mkCorners {
  x1 : Z; y1 : Z; x2 : Z; y2 : Z; fx : float; fy : float
}.

Definition corners_from (x1 y1 : Z) (p : float * float) : corners :=
  let '(sample_x, sample_y) := p in
  let '(x1, y1) := Check_Descriptor_Limits x1 y1 (img_width options) (img_height options) in
  let y2 := int_of_double (dadd (to_double sample_y) d0_5) in
  let x2 := int_of_double (dadd (to_double sample_x) d0_5) in
  let '(x2, y2) := Check_Descriptor_Limits x2 y2 (img_width options) (img_height options) in
  mkCorners x1 y1 x2 y2 (fsub sample_x (float_of_int x1)) (fsub sample_y (float_of_int y1)).

(** [y1 = (int)(sample_y-.5); x1 = (int)(sample_x-.5);] *)
Definition corners_trunc (p : float * float) : corners :=
  corners_from (int_of_double (dsub (to_double (fst p)) d0_5))
               (int_of_double (dsub (to_double (snd p)) d0_5)) p.

(** [y1 = fRound(sample_y-.5); x1 = fRound(sample_x-.5);] (rotated M-SURF) *)
Definition corners_round (p : float * float) : corners :=
  corners_from (fRound (to_float (dsub (to_double (fst p)) d0_5)))
               (fRound (to_float (dsub (to_double (snd p)) d0_5))) p.

(** [(1.0-fx)*(1.0-fy)*res1 + fx*(1.0-fy)*res2 + (1.0-fx)*fy*res3 + fx*fy*res4]
    with [res1..res4] read from [img]; the last product has [float]
    operands only, the others are taken in [double]. *)
Definition bilinear (img : Mat) (c : corners) : float :=
  let res1 := Mat_at img (y1 c) (x1 c) in
  let res2 := Mat_at img (y1 c) (x2 c) in
  let res3 := Mat_at img (y2 c) (x1 c) in
  let res4 := Mat_at img (y2 c) (x2 c) in
  let wx := dsub d1_0 (to_double (fx c)) in
  let wy := dsub d1_0 (to_double (fy c)) in
  to_float
    (dadd (dadd (dadd (dmul (dmul wx wy) (to_double res1))
                      (dmul (dmul (to_double (fx c)) wy) (to_double res2)))
                (dmul (dmul wx (to_double (fy c))) (to_double res3)))
          (to_double (fmul (fmul (fx c) (fy c)) res4))).

(** [(rx, ry)] at a cell. *)
Definition first_derivatives (c : corners) : float * float :=
  (bilinear (Lx (evolution_at evolution level)) c,
   bilinear (Ly (evolution_at evolution level)) c).

(** [rry = rx*co + ry*si; rrx = -rx*si + ry*co;], returned as [(rrx, rry)]. *)
Definition rotate (r : float * float) : float * float :=
  let '(rx, ry) := r in
  (fadd (fmul (fneg rx) si) (fmul ry co), fadd (fmul rx co) (fmul ry si)).

(** The gauge derivatives [(lww, lvv)] of the G-SURF extractors. *)
Definition gauge (c : corners) : float * float :=
  let '(rx, ry) := first_derivatives c in
  let modg := to_float (dadd (pow2 rx) (pow2 ry)) in
  if dne (to_double modg) dzero then
    let rxx := to_double (bilinear (Lxx (evolution_at evolution level)) c) in
    let rxy := to_double (bilinear (Lxy (evolution_at evolution level)) c) in
    let ryy := to_double (bilinear (Lyy (evolution_at evolution level)) c) in
    let lww := to_float (ddiv
      (dadd (dadd (dmul (pow2 rx) rxx)
                  (dmul (dmul (dmul d2_0 (to_double rx)) rxy) (to_double ry)))
            (dmul (pow2 ry) ryy))
      (to_double modg)) in
    let lvv := to_float (ddiv
      (dadd (dadd (dmul (dmul (dmul (dneg d2_0) (to_double rx)) rxy) (to_double ry))
                  (dmul rxx (pow2 ry)))
            (dmul (pow2 rx) ryy))
      (to_double modg)) in
    (lww, lvv)
  else (fzero, fzero).

(** Every first derivative sampled at the positions [pos k l] with
    [lo <= k, l < hi] is zero: the keypoint lies on a flat part of its
    level. *)
Definition flat_at (crn : float * float -> corners) (pos : Z -> Z -> float * float)
  (lo hi : Z) : Prop :=
  forall k l, lo <= k < hi -> lo <= l < hi ->
    is_zero (fst (first_derivatives (crn (pos k l)))) = true /\
    is_zero (snd (first_derivatives (crn (pos k l)))) = true.

(** The keypoint's neighbourhood is flat for every sampling pattern. *)
Definition flat_neighbourhood : Prop :=
  flat_at corners_trunc upright_position (-12) 12 /\
  flat_at corners_trunc gsurf_upright_position (-10) 10 /\
  flat_at corners_trunc rotated_position (-10) 10 /\
  flat_at corners_round rotated_position (-12) 12.

(** The same as a computation. *)
Definition flat_atb (crn : float * float -> corners) (pos : Z -> Z -> float * float)
  (lo hi : Z) : bool :=
  forallb (fun k => forallb (fun l =>
    is_zero (fst (first_derivatives (crn (pos k l))))
    && is_zero (snd (first_derivatives (crn (pos k l)))))
    (seqZ lo (hi - lo))) (seqZ lo (hi - lo)).

(** The sums of one sub-cell: [for (k = i; k < i + n; k++) for (l = j; l < j + n; l++)]. *)
Definition cell {A : Type} (n i j : Z) (step : Z -> Z -> A -> A) (init : A) : A :=
  for_range i (i + n) (fun k acc => for_range j (j + n) (fun l acc => step k l acc) acc) init.

(** The SURF and G-SURF grid: [pattern_size = 10], [sample_step = 5]. *)
Definition grid {A : Type} (cell_of : Z -> Z -> A) (emit : A -> list float) (sq : A -> float)
  (desc0 : list float) : out_state :=
  for_step (-10) 10 5 (fun i st =>
    for_step (-10) 10 5 (fun j st =>
      let s := cell_of i j in store (emit s) (sq s) st) st)
    (mkOut desc0 0%nat fzero).

(** *** SURF *)
Definition Get_SURF_Upright_Descriptor_64 (desc0 : list float) : list float :=
  normalize 64 (grid
    (fun i j => cell 5 i j (fun k l s =>
       let '(rx, ry) := first_derivatives (corners_trunc (upright_position k l)) in
       add64 rx ry s) zero64)
    emit64 sq64 desc0).

Definition Get_SURF_Descriptor_64 (desc0 : list float) : list float :=
  normalize 64 (grid
    (fun i j => cell 5 i j (fun k l s =>
       let '(rrx, rry) := rotate (first_derivatives (corners_trunc (rotated_position k l))) in
       add64 rrx rry s) zero64)
    emit64 sq64 desc0).

Definition Get_SURF_Upright_Descriptor_128 (desc0 : list float) : list float :=
  normalize 128 (grid
    (fun i j => cell 5 i j (fun k l s =>
       let '(rx, ry) := first_derivatives (corners_trunc (upright_position k l)) in
       surf128_accumulate rx ry s) zero128)
    emit128 sq128 desc0).

Definition Get_SURF_Descriptor_128 (desc0 : list float) : list float :=
  normalize 128 (grid
    (fun i j => cell 5 i j (fun k l s =>
       let '(rrx, rry) := rotate (first_derivatives (corners_trunc (rotated_position k l))) in
       surf128_accumulate rrx rry s) zero128)
    emit128 sq128 desc0).

(** *** G-SURF *)
Definition Get_GSURF_Descriptor_64 (desc0 : list float) : list float :=
  normalize 64 (grid
    (fun i j => cell 5 i j (fun k l s =>
       let '(lww, lvv) := gauge (corners_trunc (rotated_position k l)) in
       add64 lww lvv s) zero64)
    emit64 sq64 desc0).

Definition Get_GSURF_Upright_Descriptor_64 (desc0 : list float) : list float :=
  normalize 64 (grid
    (fun i j => cell 5 i j (fun k l s =>
       let '(lww, lvv) := gauge (corners_trunc (gsurf_upright_position k l)) in
       add64 lww lvv s) zero64)
    emit64 sq64 desc0).

(** The samples [(lww, lvv)] of the sub-cell [(i, j)] of
    [Get_GSURF_Descriptor_128], in the order the loops visit them. *)
Definition gsurf128_sample (k l : Z) : float * float :=
  gauge (corners_trunc (rotated_position k l)).

Definition gsurf128_cell (i j : Z) : sums128 :=
  cell 5 i j (fun k l s =>
    let '(lww, lvv) := gsurf128_sample k l in gsurf128_accumulate lww lvv s) zero128.

Definition Get_GSURF_Descriptor_128 (desc0 : list float) : list float :=
  normalize 128 (grid gsurf128_cell emit128 sq128 desc0).

Definition gsurf128_cell_samples (i j : Z) : list (float * float) :=
  flat_map (fun k => map (fun l => gsurf128_sample k l) (seqZ j 5)) (seqZ i 5).

(** *** M-SURF

    [pattern_size = 12], [sample_step = 5]; the two [while] loops step [i]
    and [j] from -8 by [-4 + 9] per iteration, so 20 iterations bound
    each. *)
Record msurf_outer := mkOuter { w_i : Z; w_cx : float; w_cy : float; w_out : out_state }.
Record msurf_inner := mkInner { w_j : Z; w_cy' : float; w_out' : out_state }.

Definition msurf_grid {A : Type} (cy_step : float -> float)
  (cell_of : Z -> Z -> A) (emit : A -> list float) (sq : A -> float)
  (desc0 : list float) : option out_state :=
  let outer :=
    while_loop 20 (fun s => w_i s <? 12)
      (fun s =>
         let i := w_i s - 4 in
         let cx := to_float (dadd (to_double (w_cx s)) d1_0) in
         let cy := fconst (-1) (-1) in
         match
           while_loop 20 (fun t => w_j t <? 12)
             (fun t =>
                let cy := cy_step (w_cy' t) in
                let j := w_j t - 4 in
                let c := cell_of i j in
                let gauss_s2 := gaussian (fsub cx (fconst 1 1)) (fsub cy (fconst 1 1))
                                         (fconst 3 (-1)) in
                Some (mkInner (j + 9) cy
                        (store (weighted (emit c) gauss_s2) (weighted_sq (sq c) gauss_s2)
                               (w_out' t))))
             (mkInner (-8) cy (w_out s))
         with
         | Some t => Some (mkOuter (i + 9) cx (w_cy' t) (w_out' t))
         | None => None
         end)
      (mkOuter (-8) (fconst (-1) (-1)) (fconst 1 (-1)) (mkOut desc0 0%nat fzero)) in
  match outer with
  | Some s => Some (w_out s)
  | None => None
  end.

(** [cy += 1.0] (and [cy += 1.0f] in [Get_MSURF_Descriptor_128]) *)
Definition cy_plus_double (cy : float) : float := to_float (dadd (to_double cy) d1_0).
Definition cy_plus_float (cy : float) : float := fadd cy (fconst 1 0).

(** [gauss_s1] of the sub-cell [(i, j)] at the sample position [p]; [c] is
    the sub-cell's centre [(xs, ys)]. *)
Definition msurf_weight (c p : float * float) : float :=
  gaussian (fsub (fst c) (fst p)) (fsub (snd c) (snd p))
           (to_float (dmul (dconst 5 (-1)) (double_of_int scale))).

(** [ys = yf + (ky*scale); xs = xf + (kx*scale);] with [ky = i + 5], [kx = j + 5] *)
Definition msurf_upright_centre (i j : Z) : float * float :=
  (fadd xf (float_of_int ((j + 5) * scale)), fadd yf (float_of_int ((i + 5) * scale))).

(** [xs = xf + (-kx*scale*si + ky*scale*co); ys = yf + (kx*scale*co + ky*scale*si);] *)
Definition msurf_rotated_centre (i j : Z) : float * float :=
  let ky := i + 5 in
  let kx := j + 5 in
  (fadd xf (fadd (fmul (float_of_int (- kx * scale)) si) (fmul (float_of_int (ky * scale)) co)),
   fadd yf (fadd (fmul (float_of_int (kx * scale)) co) (fmul (float_of_int (ky * scale)) si))).

(** [rx = gauss_s1*rx; ry = gauss_s1*ry;] *)
Definition msurf_upright_pair (i j k l : Z) : float * float :=
  let p := upright_position k l in
  let gauss_s1 := msurf_weight (msurf_upright_centre i j) p in
  let '(rx, ry) := first_derivatives (corners_trunc p) in
  (fmul gauss_s1 rx, fmul gauss_s1 ry).

(** [rry = gauss_s1*(rx*co + ry*si); rrx = gauss_s1*(-rx*si + ry*co);] *)
Definition msurf_rotated_pair (i j k l : Z) : float * float :=
  let p := rotated_position k l in
  let gauss_s1 := msurf_weight (msurf_rotated_centre i j) p in
  let '(rrx, rry) := rotate (first_derivatives (corners_round p)) in
  (fmul gauss_s1 rrx, fmul gauss_s1 rry).

Definition Get_MSURF_Upright_Descriptor_64 (desc0 : list float) : option (list float) :=
  option_map (normalize 64) (msurf_grid cy_plus_double
    (fun i j => cell 9 i j (fun k l s =>
       let '(rx, ry) := msurf_upright_pair i j k l in add64 rx ry s) zero64)
    emit64 sq64 desc0).

Definition Get_MSURF_Descriptor_64 (desc0 : list float) : option (list float) :=
  option_map (normalize 64) (msurf_grid cy_plus_double
    (fun i j => cell 9 i j (fun k l s =>
       let '(rrx, rry) := msurf_rotated_pair i j k l in add64 rrx rry s) zero64)
    emit64 sq64 desc0).

Definition Get_MSURF_Upright_Descriptor_128 (desc0 : list float) : option (list float) :=
  option_map (normalize 128) (msurf_grid cy_plus_double
    (fun i j => cell 9 i j (fun k l s =>
       let '(rx, ry) := msurf_upright_pair i j k l in surf128_accumulate rx ry s) zero128)
    emit128 sq128 desc0).

Definition Get_MSURF_Descriptor_128 (desc0 : list float) : option (list float) :=
  option_map (normalize 128) (msurf_grid cy_plus_float
    (fun i j => cell 9 i j (fun k l s =>
       let '(rrx, rry) := msurf_rotated_pair i j k l in surf128_accumulate rrx rry s) zero128)
    emit128 sq128 desc0).

End OneKeypoint.
End WithExternals.
End Descriptor.

(* ================================================================== *)
(** ** The AOS diffusion step *)
(* ================================================================== *)
Module AOS.

(** The element arithmetic of the matrices.  The loops of [AOS_Rows],
    [AOS_Columns] and [Thomas] work on [float] elements; the matrix
    expressions ([1.0 + stepsize*py], [-stepsize*qr], [0.5*(Lty + Ltx.t())])
    are evaluated element by element by OpenCV.  The functions are written
    over any element type with these operations, so that they can be run on
    [float] and reasoned about over the reals. *)
Class Arith (F : Type) := {
  azero : F; aone : F; ahalf : F;
  aadd : F -> F -> F; asub : F -> F -> F;
  amul : F -> F -> F; adiv : F -> F -> F;
  aneg : F -> F
}.

Section WithArith.
Context {F : Type} {ar : Arith F}.

(** A continuous single-channel matrix in row-major order. *)
Record Mat := mkMat { rows : Z; cols : Z; data : list F }.

(** [*(m.ptr<float>(i) + j)], read and written. *)
Definition Mat_at (m : Mat) (i j : Z) : F :=
  nth (Z.to_nat (i * cols m + j)) (data m) azero.
Definition Mat_set (m : Mat) (i j : Z) (v : F) : Mat :=
  mkMat (rows m) (cols m) (<[Z.to_nat (i * cols m + j) := v]> (data m)).

(** [cv::Mat::zeros(r, c, CV_32F)] *)
Definition Mat_zeros (r c : Z) : Mat := mkMat r c (replicate (Z.to_nat (r * c)) azero).

(** [m.t()] *)
Definition Mat_t (m : Mat) : Mat :=
  mkMat (cols m) (rows m)
        (map (fun idx => Mat_at m (idx mod rows m) (idx / rows m))
             (seqZ 0 (cols m * rows m))).

(** An element-wise matrix expression in one matrix, and the sum of two. *)
Definition Mat_map (f : F -> F) (m : Mat) : Mat :=
  mkMat (rows m) (cols m) (map f (data m)).
Definition Mat_add (a b : Mat) : Mat :=
  mkMat (rows a) (cols a) (zip_with aadd (data a) (data b)).

(** An [r x c] matrix with its [r * c] elements. *)
Definition Mat_is (r c : Z) (m : Mat) : Prop :=
  rows m = r /\ cols m = c /\ length (data m) = Z.to_nat (r * c).

(** [for (i = hi - 1; i >= lo; i--)] *)
Definition for_range_down {St : Type} (lo hi : Z) (body : Z -> St -> St) (s : St) : St :=
  fold_left (fun acc i => body i acc) (rev (seqZ lo (hi - lo))) s.

(** The auxiliary matrices of the AOS scheme, members of the [KAZE]
    object. *)
Record Scratch := mkScratch {
  Ltx : Mat; Lty : Mat;
  px : Mat; py : Mat;
  ax : Mat; ay : Mat;
  bx : Mat; by_ : Mat;
  qr : Mat; qc : Mat
}.

(** Their allocation at the end of [Allocate_Memory_Evolution]. *)
Definition Allocate_Scratch (img_height img_width : Z) : Scratch :=
  {| Ltx := Mat_zeros img_width img_height;
     Lty := Mat_zeros img_height img_width;
     px := Mat_zeros img_height img_width;
     py := Mat_zeros img_height img_width;
     ax := Mat_zeros img_height img_width;
     ay := Mat_zeros img_height img_width;
     bx := Mat_zeros (img_height - 1) img_width;
     by_ := Mat_zeros (img_height - 1) img_width;
     qr := Mat_zeros (img_height - 1) img_width;
     qc := Mat_zeros img_height (img_width - 1) |}.

(** The scratch matrices of an [img_height x img_width] image: as
    allocated, or as an earlier step left them. *)
Definition Scratch_is (img_height img_width : Z) (st : Scratch) : Prop :=
  Mat_is img_width img_height (Ltx st) /\
  Mat_is img_height img_width (Lty st) /\
  Mat_is img_height img_width (px st) /\
  Mat_is img_height img_width (py st) /\
  Mat_is (img_height - 1) img_width (qr st) /\
  Mat_is img_height (img_width - 1) (qc st).

(** [Thomas(a, b, Ld, x)]: the solution is written into [x]. *)
Definition Thomas (a b Ld x : Mat) : Mat :=
  let n := rows a in
  let m := Mat_zeros (rows a) (cols a) in
  let l := Mat_zeros (rows b) (cols b) in
  let y := Mat_zeros (rows Ld) (cols Ld) in
  let m := for_range 0 (cols m) (fun j m => Mat_set m 0 j (Mat_at a 0 j)) m in
  let y := for_range 0 (cols y) (fun j y => Mat_set y 0 j (Mat_at Ld 0 j)) y in
  let '(l, m, y) :=
    for_range 1 n (fun k '(l, m, y) =>
      let l := for_range 0 (cols l) (fun j l =>
                 Mat_set l (k - 1) j (adiv (Mat_at b (k - 1) j) (Mat_at m (k - 1) j))) l in
      let m := for_range 0 (cols m) (fun j m =>
                 Mat_set m k j (asub (Mat_at a k j)
                                     (amul (Mat_at l (k - 1) j) (Mat_at b (k - 1) j)))) m in
      let y := for_range 0 (cols y) (fun j y =>
                 Mat_set y k j (asub (Mat_at Ld k j)
                                     (amul (Mat_at l (k - 1) j) (Mat_at y (k - 1) j)))) y in
      (l, m, y)) (l, m, y) in
  let x := for_range 0 (cols y) (fun j x =>
             Mat_set x (n - 1) j (adiv (Mat_at y (n - 1) j) (Mat_at m (n - 1) j))) x in
  for_range_down 0 (n - 1) (fun i x =>
    for_range 0 (cols x) (fun j x =>
      Mat_set x i j (adiv (asub (Mat_at y i j) (amul (Mat_at b i j) (Mat_at x (i + 1) j)))
                          (Mat_at m i j))) x) x.

(** [AOS_Rows(Ldprev, c, stepsize)] *)
Definition AOS_Rows (Ldprev c : Mat) (stepsize : F) (st : Scratch) : Scratch :=
  let qr := for_range 0 (rows (qr st)) (fun i q =>
              for_range 0 (cols (qr st)) (fun j q =>
                Mat_set q i j (aadd (Mat_at c i j) (Mat_at c (i + 1) j))) q) (qr st) in
  let py := for_range 0 (cols (py st)) (fun j p =>
              Mat_set p 0 j (Mat_at qr 0 j)) (py st) in
  let py := for_range 0 (cols py) (fun j p =>
              Mat_set p (rows py - 1) j (Mat_at qr (rows qr - 1) j)) py in
  let py := for_range 1 (rows py - 1) (fun i p =>
              for_range 0 (cols py) (fun j p =>
                Mat_set p i j (aadd (Mat_at qr (i - 1) j) (Mat_at qr i j))) p) py in
  let ay := Mat_map (fun v => aadd aone (amul stepsize v)) py in
  let by_ := Mat_map (fun v => amul (aneg stepsize) v) qr in
  let Lty := Thomas ay by_ Ldprev (Lty st) in
  {| Ltx := Ltx st; Lty := Lty; px := px st; py := py; ax := ax st; ay := ay;
     bx := bx st; by_ := by_; qr := qr; qc := qc st |}.

(** [AOS_Columns(Ldprev, c, stepsize)] *)
Definition AOS_Columns (Ldprev c : Mat) (stepsize : F) (st : Scratch) : Scratch :=
  let qc := for_range 0 (cols (qc st)) (fun j q =>
              for_range 0 (rows (qc st)) (fun i q =>
                Mat_set q i j (aadd (Mat_at c i j) (Mat_at c i (j + 1)))) q) (qc st) in
  let px := for_range 0 (rows (px st)) (fun i p =>
              Mat_set p i 0 (Mat_at qc i 0)) (px st) in
  let px := for_range 0 (rows px) (fun i p =>
              Mat_set p i (cols px - 1) (Mat_at qc i (cols qc - 1))) px in
  let px := for_range 1 (cols px - 1) (fun j p =>
              for_range 0 (rows px) (fun i p =>
                Mat_set p i j (aadd (Mat_at qc i (j - 1)) (Mat_at qc i j))) p) px in
  let ax := Mat_map (fun v => aadd aone (amul stepsize v)) (Mat_t px) in
  let bx := Mat_map (fun v => amul (aneg stepsize) v) (Mat_t qc) in
  let Ltx := Thomas ax bx (Mat_t Ldprev) (Ltx st) in
  {| Ltx := Ltx; Lty := Lty st; px := px; py := py st; ax := ax; ay := ay st;
     bx := bx; by_ := by_ st; qr := qr st; qc := qc |}.

(** [AOS_Step_Scalar(Ld, Ldprev, c, stepsize)]: the new [Ld] and the
    scratch matrices it leaves behind. *)
Definition AOS_Step_Scalar (Ldprev c : Mat) (stepsize : F) (st : Scratch) : Mat * Scratch :=
  let st := AOS_Rows Ldprev c stepsize st in
  let st := AOS_Columns Ldprev c stepsize st in
  (Mat_map (amul ahalf) (Mat_add (Lty st) (Mat_t (Ltx st))), st).

End WithArith.

Arguments Mat F : clear implicits.
Arguments Scratch F : clear implicits.

(** The [float] instance. *)
Definition float_arith : Arith IEEE.float :=
  {| azero := IEEE.fzero; aone := IEEE.fconst 1 0; ahalf := IEEE.fconst 1 (-1);
     aadd := IEEE.fadd; asub := IEEE.fsub; amul := IEEE.fmul; adiv := IEEE.fdiv;
     aneg := IEEE.fneg |}.

(** The real instance. *)
Definition real_arith : Arith R :=
  {| azero := 0%R; aone := 1%R; ahalf := (1 / 2)%R;
     aadd := Rplus; asub := Rminus; amul := Rmult; adiv := Rdiv;
     aneg := Ropp |}.

End AOS.

(* ================================================================== *)
(** ** The levels of the scale space *)
(* ================================================================== *)
Module ScaleSpace.
Import AOS.

(** The scalar operations of [Allocate_Memory_Evolution], next to the
    element arithmetic of the matrices: the conversion [(float)(j)], the
    literal [(float)2.0], the C library's [pow], [0.5*x] stored back into
    the scalar type and [fRound].  The function is run on [float] and
    reasoned about over the reals. *)
Class Scalar (F : Type) := {
  scalar_arith :: Arith F;
  of_int : Z -> F;
  two : F;
  pow : F -> F -> F;
  half_of : F -> F;
  fRound : F -> Z
}.

Section WithScalar.
Context {F : Type} {sc : Scalar F}.

(** [tevolution] *)
Record tevolution := mkEvolution {
  Lx : Mat F; Ly : Mat F;
  Lxx : Mat F; Lxy : Mat F; Lyy : Mat F;
  Lflow : Mat F; Lt : Mat F; Lsmooth : Mat F; Lstep : Mat F; Ldet : Mat F;
  esigma : F; etime : F; sigma_size : Z;
  octave : Z; sublevel : Z
}.

(** The options read by the allocation. *)
Record KAZEOptions := mkOptions {
  img_height : Z; img_width : Z;
  omax : Z; nsublevels : Z;
  soffset : F
}.

(** The body of the inner loop: the level [aux] of octave [i] and
    sublevel [j]. *)
Definition new_level (options : KAZEOptions) (i j : Z) : tevolution :=
  let z := Mat_zeros (img_height options) (img_width options) in
  let esigma :=
    amul (soffset options)
         (pow two (aadd (adiv (of_int j) (of_int (nsublevels options))) (of_int i))) in
  {| Lx := z; Ly := z; Lxx := z; Lxy := z; Lyy := z;
     Lflow := z; Lt := z; Lsmooth := z; Lstep := z; Ldet := z;
     esigma := esigma;
     etime := half_of (amul esigma esigma);
     sigma_size := fRound esigma;
     octave := i; sublevel := j |}.

(** [Allocate_Memory_Evolution()]: the levels pushed onto [evolution], and
    the auxiliary matrices of the AOS scheme. *)
Definition Allocate_Memory_Evolution (options : KAZEOptions) (evolution : list tevolution)
  : list tevolution * Scratch F :=
  let evolution :=
    for_range 0 (omax options - 1 + 1) (fun i evolution =>
      for_range 0 (nsublevels options - 1 + 1) (fun j evolution =>
        evolution ++ [new_level options i j]) evolution) evolution in
  (evolution, Allocate_Scratch (img_height options) (img_width options)).

End WithScalar.

Arguments tevolution F : clear implicits.
Arguments KAZEOptions F : clear implicits.

(** The [float] instance: [pow] is the C library's, [0.5*x] is taken in
    [double] and stored as [float]. *)
Definition float_scalar {ext : Model.Externals} : Scalar IEEE.float :=
  {| scalar_arith := float_arith;
     of_int := IEEE.float_of_int;
     two := IEEE.fconst 1 1;
     pow := Model.powf;
     half_of := fun x => IEEE.to_float (IEEE.dmul IEEE.d0_5 (IEEE.to_double x));
     fRound := IEEE.fRound |}.

(** The real instance: exact arithmetic, [pow(x, y) = exp(y * ln x)], and
    [(int)(x + 0.5)] truncating toward zero. *)
Definition Rtrunc (x : R) : Z :=
  if Rle_dec 0 x then Int_part x else (- Int_part (- x))%Z.

Definition real_scalar : Scalar R :=
  {| scalar_arith := real_arith;
     of_int := IZR;
     two := 2%R;
     pow := Rpower;
     half_of := fun x => (0.5 * x)%R;
     fRound := fun x => Rtrunc (x + 0.5) |}.

End ScaleSpace.

(* ================================================================== *)
(** ** The angle of a vector *)
(* ================================================================== *)
Module Angle.
Import IEEE Model.

(** [CV_PI], OpenCV's 3.1415926535897932384626433832795: the [double]
    nearest to pi. *)
Definition CV_PI : double := dconst 7074237752028440 (-51).

Section WithExternals.
Context {ext : Externals}.

(** [Get_Angle(X, Y)].  The comparisons are with the [int] zero converted
    to [float]; [-Y/X] is [(-Y)/X]; the sums with [CV_PI] are taken in
    [double] and the result is returned as [float]. *)
Definition Get_Angle (X Y : float) : float :=
  if fge X fzero && fge Y fzero then
    to_float (atan (fdiv Y X))
  else if flt X fzero && fge Y fzero then
    to_float (dsub CV_PI (atan (fdiv (fneg Y) X)))
  else if flt X fzero && flt Y fzero then
    to_float (dadd CV_PI (atan (fdiv Y X)))
  else if fge X fzero && flt Y fzero then
    to_float (dsub (dadd CV_PI CV_PI) (atan (fdiv (fneg Y) X)))
  else fzero.

End WithExternals.
End Angle.

(* ================================================================== *)
(** ** A reference instance of the externals, for the executable examples *)
(* ================================================================== *)
Module Reference.
Import IEEE Model.

(** Modelled from the spec: [Check_Maximum_Neighbourhood] is only declared
    in a header; its body is not in kaze.cpp.  Section 4.5 asks the value
    "to be the maximum of its 3x3 neighborhood at level i, and the maximum
    (non-strict comparison against center) of the 3x3 neighborhood at levels
    i-1 and i+1": no pixel of the [(2*dsize+1)^2] window inside the image
    exceeds [value]; on the candidate's own level ([same_img]) the centre is
    not compared with itself. *)
Definition Check_Maximum_Neighbourhood_spec
  (img : Mat) (dsize : Z) (value : float) (row col : Z) (same_img : bool) : bool :=
  forallb (fun i =>
    forallb (fun j =>
      if (0 <=? i) && (i <? rows img) && (0 <=? j) && (j <? cols img) then
        if same_img && (i =? row) && (j =? col) then true
        else negb (fgt (Mat_at img i j) value)
      else true)
      (seqZ (col - dsize) (2 * dsize + 1)))
    (seqZ (row - dsize) (2 * dsize + 1)).

(** Modelled from the spec: [cv::solve] is OpenCV's, not this file's
    ("solve_linear(A, b) -> x for small dense systems (LU ...)", section 6).
    Gaussian elimination with partial pivoting in single precision on the
    augmented rows, then back substitution; a pivot of magnitude 0 makes
    the system singular and the result zero. *)
Definition row_axpy (alpha : float) (src dst : list float) : list float :=
  zip_with (fun s d => fadd d (fmul alpha s)) src dst.

Fixpoint pivot_row (col : nat) (rws : list (list float)) (i best : nat) (bestv : float) : nat :=
  match rws with
  | [] => best
  | r :: rest =>
      let v := fabs (nth col r fzero) in
      if fgt v bestv then pivot_row col rest (S i) i v
      else pivot_row col rest (S i) best bestv
  end.

Fixpoint eliminate (fuel : nat) (col : nat) (rws : list (list float)) : option (list (list float)) :=
  match fuel, rws with
  | _, [] => Some []
  | O, _ => None
  | S fuel', first :: _ =>
      let k := pivot_row col rws 0%nat 0%nat (fabs (nth col first fzero)) in
      let p := nth k rws [] in
      if feq (nth col p fzero) fzero || is_nan (nth col p fzero) then None
      else
        let rest := tail (<[k := first]> rws) in
        let d := fdiv (fconst (-1) 0) (nth col p fzero) in
        let rest' := map (fun r => row_axpy (fmul (nth col r fzero) d) p r) rest in
        match eliminate fuel' (S col) rest' with
        | Some u => Some (p :: u)
        | None => None
        end
  end.

(** Back substitution on the upper-triangular augmented rows; the row of
    equation [i] starts at column [i] and ends with the right-hand side. *)
Fixpoint back_substitute (n : nat) (col : nat) (u : list (list float)) : list float :=
  match u with
  | [] => []
  | r :: rest =>
      let xs := back_substitute n (S col) rest in
      let s := fold_left (fun acc '(k, x) => fsub acc (fmul (nth k r fzero) x))
                 (zip (seq (S col) (length xs)) xs) (nth n r fzero) in
      fdiv s (nth col r fzero) :: xs
  end.

Definition solve_LU (A b : Mat) : Mat :=
  let n := Z.to_nat (rows A) in
  let rws := map (fun i => map (fun j => Mat_at A (Z.of_nat i) (Z.of_nat j)) (seq 0 n)
                           ++ [Mat_at b (Z.of_nat i) 0]) (seq 0 n) in
  match eliminate n 0%nat rws with
  | Some u => mkMat (rows A) 1 (back_substitute n 0%nat u)
  | None => Mat_zeros (rows A) 1
  end.

(** Stand-ins for the C library on the arguments the examples use, where
    the results are exact: [pow(2, n)] for an integral [n], [cos(0)] and
    [sin(0)].  Elsewhere they return NaN. *)
Definition powf_dyadic (base x : float) : float :=
  if feq base (fconst 1 1) && feq (float_of_int (int_of_float x)) x
  then fconst 1 (int_of_float x) else fnan.
Definition cosf_at_zero (x : float) : float := if is_zero x then fconst 1 0 else fnan.
Definition sinf_at_zero (x : float) : float := if is_zero x then x else fnan.
(** For [exp] on the non-positive arguments of [gaussian], a stand-in with
    the same range and monotonicity: [1 / (1 - x)]. *)
Definition expf_rational (x : float) : float := fdiv (fconst 1 0) (fsub (fconst 1 0) x).
(** [atan(+-0) = +-0]; elsewhere, and on NaN as the C library does, NaN. *)
Definition atan_at_zero (x : float) : double :=
  if is_zero x then to_double x else F64 S754_nan.

(** 0.00001 for the detector floor; clipping off, with 5 iterations and the
    ratio 1.625 should it be switched on. *)
Definition min_detector_threshold : double := ddiv d1_0 (dconst 100000 0).

Definition externals : Externals :=
  {| DEFAULT_MIN_DETECTOR_THRESHOLD := min_detector_threshold;
     USE_CLIPPING_NORMALIZATION := false;
     CLIPPING_NORMALIZATION_NITER := 5;
     CLIPPING_NORMALIZATION_RATIO := fconst 13 (-3);
     Check_Maximum_Neighbourhood := Check_Maximum_Neighbourhood_spec;
     cv_solve := solve_LU;
     powf := powf_dyadic;
     cosf := cosf_at_zero;
     sinf := sinf_at_zero;
     expf := expf_rational;
     atan := atan_at_zero |}.

(** An image given by its non-zero pixels [((y, x), value)]. *)
Definition image (r c : Z) (px : list (Z * Z * float)) : Mat :=
  mkMat r c (map (fun i =>
    let y := Z.of_nat i / c in
    let x := Z.of_nat i mod c in
    match list_find (fun p => (fst (fst p) =? y) && (snd (fst p) =? x) = true) px with
    | Some (_, (_, v)) => v
    | None => fzero
    end) (seq 0 (Z.to_nat (r * c)))).

(** A level that only carries a detector response. *)
Definition response_level (ldet : Mat) (sig : float) (ssize oct sub : Z) : tevolution :=
  let z := Mat_zeros (rows ldet) (cols ldet) in
  mkEvolution z z z z z ldet sig (fmul (fconst 1 (-1)) (fmul sig sig)) ssize oct sub.

End Reference.

(* ================================================================== *)
(** ** Concrete scale spaces for the executable examples *)
(* ================================================================== *)
Module Examples.
Import IEEE Model Reference.

(** Three 3x3 levels; on the middle one the centre pixel and its left
    neighbour both carry the response 5. *)
Definition plateau_options : KAZEOptions :=
  {| img_width := 3; img_height := 3; nsublevels := 1;
     soffset := fconst 3 (-1); dthreshold := fconst 1 0 |}.

Definition plateau_evolution : KAZEEvolution :=
  [ response_level (image 3 3 []) (fconst 3 (-1)) 2 0 0;
    response_level (image 3 3 [((1, 0), fconst 5 0); ((1, 1), fconst 5 0)]) (fconst 3 0) 3 1 0;
    response_level (image 3 3 []) (fconst 6 0) 6 2 0 ].

(** Four 5x9 levels with [soffset = 1.5] and one sublevel per octave
    ([esigma = 1.5, 3, 6, 12], [sigma_size = 2, 3, 6, 12]).  Level 1 has two
    isolated maxima of response 10 at [(y, x) = (2, 2)] and [(2, 6)];
    level 2 has one of response 20 at [(2, 4)]. *)
Definition crowded_options : KAZEOptions :=
  {| img_width := 9; img_height := 5; nsublevels := 1;
     soffset := fconst 3 (-1); dthreshold := fconst 1 0 |}.

Definition crowded_evolution : KAZEEvolution :=
  [ response_level (image 5 9 []) (fconst 3 (-1)) 2 0 0;
    response_level (image 5 9 [((2, 2), fconst 10 0); ((2, 6), fconst 10 0)]) (fconst 3 0) 3 1 0;
    response_level (image 5 9 [((2, 4), fconst 20 0)]) (fconst 6 0) 6 2 0;
    response_level (image 5 9 []) (fconst 12 0) 12 3 0 ].

(** Three 5x5 levels with a single maximum on the middle one whose right
    neighbour is larger than its left one, so that refinement moves it. *)
Definition skewed_options : KAZEOptions :=
  {| img_width := 5; img_height := 5; nsublevels := 1;
     soffset := fconst 3 (-1); dthreshold := fconst 1 0 |}.

Definition skewed_evolution : KAZEEvolution :=
  [ response_level (image 5 5 []) (fconst 3 (-1)) 2 0 0;
    response_level (image 5 5 [((2, 2), fconst 10 0); ((2, 3), fconst 4 0)]) (fconst 3 0) 3 1 0;
    response_level (image 5 5 []) (fconst 6 0) 6 2 0 ].

(** A level whose derivatives vanish everywhere (a constant image), and a
    keypoint of size 2 in the middle of it. *)
Definition flat_options : KAZEOptions :=
  {| img_width := 16; img_height := 16; nsublevels := 1;
     soffset := fconst 3 (-1); dthreshold := fconst 1 0 |}.

Definition flat_evolution : KAZEEvolution :=
  [ response_level (Mat_zeros 16 16) (fconst 3 (-1)) 2 0 0 ].

Definition flat_keypoint : KeyPoint :=
  mkKeyPoint (fconst 8 0) (fconst 8 0) (fconst 2 0) fzero (fconst 1 0) 0 0.

(** The same externals with the clipping normalisation switched on. *)
Definition clipping_externals : Externals :=
  {| DEFAULT_MIN_DETECTOR_THRESHOLD := min_detector_threshold;
     USE_CLIPPING_NORMALIZATION := true;
     CLIPPING_NORMALIZATION_NITER := 5;
     CLIPPING_NORMALIZATION_RATIO := fconst 13 (-3);
     Check_Maximum_Neighbourhood := Check_Maximum_Neighbourhood_spec;
     cv_solve := solve_LU;
     powf := powf_dyadic;
     cosf := cosf_at_zero;
     sinf := sinf_at_zero;
     expf := expf_rational;
     atan := atan_at_zero |}.

(** A level with a few non-zero derivative pixels around the keypoint. *)
Definition bumpy_evolution : KAZEEvolution :=
  let z := Mat_zeros 16 16 in
  [ mkEvolution
      (image 16 16 [((8, 8), fconst 1 0); ((8, 9), fconst 3 0); ((9, 8), fconst (-2) 0)])
      (image 16 16 [((8, 8), fconst (-1) 0); ((7, 8), fconst 2 0)])
      (image 16 16 [((8, 8), fconst 1 0); ((8, 7), fconst (-3) 0)])
      (image 16 16 [((8, 8), fconst 2 0)])
      (image 16 16 [((8, 8), fconst (-1) 0); ((9, 9), fconst 1 0)])
      z (fconst 3 (-1)) (fconst 9 (-3)) 2 0 0 ].

(** A 3x3 image and a 3x3 conductivity for one AOS step of size [0.5]. *)
Definition aos_image : AOS.Mat float :=
  AOS.mkMat 3 3 (map (fun n => fconst n 0) [1; 2; 3; 4; 5; 6; 7; 8; 9]).

Definition aos_conductivity : AOS.Mat float :=
  AOS.mkMat 3 3 (map (fun n => fconst n (-2)) [4; 3; 2; 3; 4; 3; 2; 3; 4]).

Definition aos_stepsize : float := fconst 1 (-1).

(** The scratch matrices as allocated, after the row pass, and after the
    column pass. *)
Definition aos_scratch : AOS.Scratch float :=
  AOS.Allocate_Scratch (ar := AOS.float_arith) 3 3.
Definition aos_rows : AOS.Scratch float :=
  AOS.AOS_Rows (ar := AOS.float_arith) aos_image aos_conductivity aos_stepsize aos_scratch.
Definition aos_columns : AOS.Scratch float :=
  AOS.AOS_Columns (ar := AOS.float_arith) aos_image aos_conductivity aos_stepsize aos_rows.

(** Scale spaces of 2x2 images: two octaves over the reals; four octaves
    on [float] with [soffset = 1.5]; and 68 octaves on [float] with
    [soffset = 1], one sublevel per octave each. *)
Definition real_options : ScaleSpace.KAZEOptions R :=
  ScaleSpace.mkOptions 2 2 2 1 1%R.

Definition float_options : ScaleSpace.KAZEOptions float :=
  ScaleSpace.mkOptions 2 2 4 1 (fconst 3 (-1)).

Definition float_evolution : list (ScaleSpace.tevolution float) :=
  fst (ScaleSpace.Allocate_Memory_Evolution
         (sc := ScaleSpace.float_scalar (ext := externals)) float_options []).

Definition deep_options : ScaleSpace.KAZEOptions float :=
  ScaleSpace.mkOptions 2 2 68 1 (fconst 1 0).

Definition deep_evolution : list (ScaleSpace.tevolution float) :=
  fst (ScaleSpace.Allocate_Memory_Evolution
         (sc := ScaleSpace.float_scalar (ext := externals)) deep_options []).

End Examples.

(* ================================================================== *)
(** ** Suppression by distance *)
(* ================================================================== *)
Module Suppression.
Import IEEE Model.

(** [dist = sqrt(pow(x1-x2,2) + pow(y1-y2,2))] for the keypoints [a] (of
    the outer loop) and [b] (of the inner loop), stored in the [float]
    variable [dist]. *)
Definition distance (a b : KeyPoint) : float :=
  to_float (dsqrt (dadd (pow2 (fsub (pt_x a) (pt_x b))) (pow2 (fsub (pt_y a) (pt_y b))))).

Section WithDistance.
Variable mdist : float.

(** [dist < mdist] *)
Definition closer (a b : KeyPoint) : bool := flt (distance a b) mdist.

(** [fabs(kpts[i].response) >= fabs(kpts[j].response)] *)
Definition prevails (a b : KeyPoint) : bool :=
  fge (fabs (response a)) (fabs (response b)).

(** The loop over [j] for the keypoint [ki] of index [i], from index [j]
    on ([rest] are the keypoints from [j] on), with its [break]. *)
Fixpoint suppress_from (ki : KeyPoint) (i : nat) (rest : list KeyPoint) (j : nat)
    (to_delete : list nat) : list nat :=
  match rest with
  | [] => to_delete
  | kj :: rest' =>
      if closer ki kj then
        if prevails ki kj then suppress_from ki i rest' (S j) (to_delete ++ [j])
        else to_delete ++ [i]
      else suppress_from ki i rest' (S j) to_delete
  end.

(** The first loop over [i], from index [i] on. *)
Fixpoint mark (kpts : list KeyPoint) (i : nat) (to_delete : list nat) : list nat :=
  match kpts with
  | [] => to_delete
  | ki :: rest => mark rest (S i) (suppress_from ki i rest (S i) to_delete)
  end.

(** The search of [i] in [to_delete]. *)
Definition found (i : nat) (to_delete : list nat) : bool :=
  existsb (Nat.eqb i) to_delete.

(** The second loop over [i], from index [i] on: [aux]. *)
Fixpoint collect (kpts : list KeyPoint) (i : nat) (to_delete : list nat) : list KeyPoint :=
  match kpts with
  | [] => []
  | k :: rest =>
      if found i to_delete then collect rest (S i) to_delete
      else k :: collect rest (S i) to_delete
  end.

(** [Feature_Suppression_Distance(kpts, mdist)]: the new [kpts]. *)
Definition Feature_Suppression_Distance (kpts : list KeyPoint) : list KeyPoint :=
  collect kpts 0 (mark kpts 0 []).

End WithDistance.
End Suppression.

(* ================================================================== *)
(** ** Sums over the pixels of an image *)
(* ================================================================== *)
Module Totals.

(** The sum of [f i] over [lo <= i < hi]. *)
Definition sum_over (lo hi : Z) (f : Z -> R) : R :=
  fold_right Rplus 0%R (map f (seqZ lo (hi - lo))).

(** The sum of the pixels of an [H x W] image. *)
Definition Mat_total (H W : Z) (m : AOS.Mat R) : R :=
  sum_over 0 H (fun i => sum_over 0 W (fun j => AOS.Mat_at (ar := AOS.real_arith) m i j)).

End Totals.

(* ================================================================== *)
(** ** The main orientation of a keypoint *)
(* ================================================================== *)
Module Orientation.
Import IEEE Model.

(** [CV_PI*2], [CV_PI/3.0f] and [5.0f*CV_PI/3.0f], in [double]; the
    [float] literal [0.15f]. *)
Definition two_pi : double := dmul Angle.CV_PI (double_of_int 2).
Definition pi_third : double := ddiv Angle.CV_PI (to_double (fconst 3 0)).
Definition five_pi_third : double :=
  ddiv (dmul (to_double (fconst 5 0)) Angle.CV_PI) (to_double (fconst 3 0)).
Definition ang_step : float := fconst 10066330 (-26).

(** The vectors [resX], [resY] and [Ang] (of 109 entries each) and the
    index [idx]. *)
Record samples := mkSamples {
  resX : list float; resY : list float; Ang : list float; idx : nat
}.

(** The state of the loop over [ang1]: [ang1], [max] and [kpt.angle]. *)
Record window := mkWindow { w_ang1 : float; w_max : float; w_angle : float }.

Section WithExternals.
Context {ext : Externals}.
Variable evolution : KAZEEvolution.
Variables (width height : Z).
Variable kpt : KeyPoint.

(** [s = fRound(kpt.size/2.0)] *)
Definition s : Z := fRound (to_float (ddiv (to_double (size kpt)) d2_0)).

(** The body of the loops over [i] and [j]. *)
Definition sample_step (i j : Z) (st : samples) : samples :=
  if i * i + j * j <? 36 then
    let iy := fRound (fadd (pt_y kpt) (float_of_int (j * s))) in
    let ix := fRound (fadd (pt_x kpt) (float_of_int (i * s))) in
    let '(rx, ry) :=
      if (iy >=? 0) && (iy <? height) && (ix >=? 0) && (ix <? width) then
        let gweight :=
          Descriptor.gaussian (fsub (float_of_int iy) (pt_y kpt))
                              (fsub (float_of_int ix) (pt_x kpt))
                              (to_float (dmul (dconst 7 (-1)) (double_of_int s))) in
        (fmul gweight (Mat_at (Lx (evolution_at evolution (class_id kpt))) iy ix),
         fmul gweight (Mat_at (Ly (evolution_at evolution (class_id kpt))) iy ix))
      else (fzero, fzero) in
    mkSamples (<[idx st := rx]> (resX st)) (<[idx st := ry]> (resY st))
              (<[idx st := Angle.Get_Angle rx ry]> (Ang st)) (S (idx st))
  else st.

(** "Calculate derivatives responses for points within radius of 6*scale" *)
Definition sample_all : samples :=
  for_range (-6) (6 + 1) (fun i st =>
    for_range (-6) (6 + 1) (fun j st => sample_step i j st) st)
    (mkSamples (replicate 109 fzero) (replicate 109 fzero) (replicate 109 fzero) 0%nat).

(** The two tests that let the sample [k] into the window from [ang1] to
    [ang2]; both branches add the sample to the sums. *)
Definition in_window (ang1 ang2 ang : float) : bool :=
  if flt ang1 ang2 && flt ang1 ang && flt ang ang2 then true
  else if flt ang2 ang1
          && ((fgt ang fzero && flt ang ang2)
              || (fgt ang ang1 && dlt (to_double ang) two_pi))
  then true
  else false.

(** The loop over [k]: [(sumX, sumY)]. *)
Definition window_sums (st : samples) (ang1 ang2 : float) : float * float :=
  for_range 0 (Z.of_nat (length (Ang st))) (fun k '(sumX, sumY) =>
    if in_window ang1 ang2 (nth (Z.to_nat k) (Ang st) fzero)
    then (fadd sumX (nth (Z.to_nat k) (resX st) fzero),
          fadd sumY (nth (Z.to_nat k) (resY st) fzero))
    else (sumX, sumY)) (fzero, fzero).

(** [ang2] of the window that starts at [ang1]. *)
Definition window_end (ang1 : float) : float :=
  to_float (if dgt (dadd (to_double ang1) pi_third) two_pi
            then dsub (to_double ang1) five_pi_third
            else dadd (to_double ang1) pi_third).

(** The body of the loop over [ang1], with its [ang1 += 0.15f]. *)
Definition window_step (st : samples) (w : window) : window :=
  let ang1 := w_ang1 w in
  let ang2 := window_end ang1 in
  let '(sumX, sumY) := window_sums st ang1 ang2 in
  let w := if fgt (fadd (fmul sumX sumX) (fmul sumY sumY)) (w_max w)
           then mkWindow ang1 (fadd (fmul sumX sumX) (fmul sumY sumY))
                         (Angle.Get_Angle sumX sumY)
           else w in
  mkWindow (fadd ang1 ang_step) (w_max w) (w_angle w).

(** [Compute_Main_Orientation_SURF(kpt, evolution, imgSize)]: the keypoint
    with its new angle.  The loop over [ang1] is bounded by 64 iterations. *)
Definition Compute_Main_Orientation_SURF : option KeyPoint :=
  let st := sample_all in
  match while_loop 64 (fun w => dlt (to_double (w_ang1 w)) two_pi)
                   (fun w => Some (window_step st w))
                   (mkWindow fzero fzero (angle kpt)) with
  | Some w =>
      Some {| pt_x := pt_x kpt; pt_y := pt_y kpt; size := size kpt;
              angle := w_angle w; response := response kpt;
              kp_octave := kp_octave kpt; class_id := class_id kpt |}
  | None => None
  end.

End WithExternals.
End Orientation.

(* ================================================================== *)
(** ** The description of the keypoints *)
(* ================================================================== *)
Module Description.
Import IEEE Model.

Section WithExternals.
Context {ext : Externals}.
Variable options : KAZEOptions.
Variable evolution : KAZEEvolution.

(** [options.descriptor], [options.upright] and [options.extended]. *)
Variables (descriptor : Z) (upright extended : bool).

(** [if (upright) kp.angle = 0; else Compute_Main_Orientation_SURF(kp, evolution, imgSize);]
    with [imgSize(options.img_width, options.img_height)]. *)
Definition orient (kp : KeyPoint) : option KeyPoint :=
  if upright then
    Some {| pt_x := pt_x kp; pt_y := pt_y kp; size := size kp; angle := fzero;
            response := response kp; kp_octave := kp_octave kp; class_id := class_id kp |}
  else
    Orientation.Compute_Main_Orientation_SURF evolution (img_width options) (img_height options) kp.

(** [computeDescriptorFn] of the three invokers, as their constructors
    select it. *)
Definition SURF_fn (kp : KeyPoint) (row : list float) : option (list float) :=
  if upright then
    Some (if extended then Descriptor.Get_SURF_Upright_Descriptor_128 options evolution kp row
          else Descriptor.Get_SURF_Upright_Descriptor_64 options evolution kp row)
  else
    Some (if extended then Descriptor.Get_SURF_Descriptor_128 options evolution kp row
          else Descriptor.Get_SURF_Descriptor_64 options evolution kp row).

Definition MSURF_fn (kp : KeyPoint) (row : list float) : option (list float) :=
  if upright then
    if extended then Descriptor.Get_MSURF_Upright_Descriptor_128 options evolution kp row
    else Descriptor.Get_MSURF_Upright_Descriptor_64 options evolution kp row
  else
    if extended then Descriptor.Get_MSURF_Descriptor_128 options evolution kp row
    else Descriptor.Get_MSURF_Descriptor_64 options evolution kp row.

Definition GSURF_fn (kp : KeyPoint) (row : list float) : option (list float) :=
  if upright then
    Some (if extended then Descriptor.Get_GSURF_Descriptor_128 options evolution kp row
          else Descriptor.Get_GSURF_Upright_Descriptor_64 options evolution kp row)
  else
    Some (if extended then Descriptor.Get_GSURF_Descriptor_128 options evolution kp row
          else Descriptor.Get_GSURF_Descriptor_64 options evolution kp row).

(** The body of [operator()] for one index [i]: the keypoint and its row
    of [desc]. *)
Definition invoke (fn : KeyPoint -> list float -> option (list float))
    (p : KeyPoint * list float) : option (KeyPoint * list float) :=
  match orient (fst p) with
  | Some kp =>
      match fn kp (snd p) with
      | Some row => Some (kp, row)
      | None => None
      end
  | None => None
  end.

(** [cv::parallel_for_(cv::Range(0, kpts.size()), ...)]: the body runs
    once for each index, on its own keypoint and its own row. *)
Definition parallel_for (fn : KeyPoint -> list float -> option (list float))
    (kpts : list KeyPoint) (desc : list (list float))
  : option (list KeyPoint * list (list float)) :=
  match mapM (invoke fn) (zip kpts desc) with
  | Some ps => Some (map fst ps, map snd ps)
  | None => None
  end.

(** [Feature_Description(kpts, desc)]: the keypoints and the rows of
    [desc]. *)
Definition Feature_Description (kpts : list KeyPoint)
  : option (list KeyPoint * list (list float)) :=
  let desc := replicate (length kpts) (replicate (if extended then 128 else 64)%nat fzero) in
  if descriptor =? 0 then parallel_for SURF_fn kpts desc
  else if descriptor =? 1 then parallel_for MSURF_fn kpts desc
  else if descriptor =? 2 then parallel_for GSURF_fn kpts desc
  else Some (kpts, desc).

End WithExternals.
End Description.
(* ================================================================== *)
(** ** The detector response *)
(* ================================================================== *)
Module Response.
Import IEEE Model.

(** [m.ptr<float>(y)[x] = v].  The loop below writes at the pixels of the
    image; a write outside the buffer, undefined in C++, changes nothing
    here. *)
Definition Mat_set (m : Mat) (y x : Z) (v : float) : Mat :=
  mkMat (rows m) (cols m) (<[Z.to_nat (y * cols m + x) := v]> (data m)).

(** [evolution[i].Ldet] replaced, the other members as they are. *)
Definition with_Ldet (e : tevolution) (m : Mat) : tevolution :=
  mkEvolution (Lx e) (Ly e) (Lxx e) (Lxy e) (Lyy e) m
              (esigma e) (etime e) (sigma_size e) (octave e) (sublevel e).

Section WithOptions.
Variable options : KAZEOptions.

(** [Compute_Multiscale_Derivatives()] fills the derivatives of every level
    with OpenCV's filters: the call is a function of the scale space. *)
Variable Compute_Multiscale_Derivatives : KAZEEvolution -> KAZEEvolution.

(** The body of the loops over [ix] and [jx], on the level [evolution[i]]. *)
Definition response_pixel (ix jx : Z) (e : tevolution) : tevolution :=
  let lxx := Mat_at (Lxx e) ix jx in
  let lxy := Mat_at (Lxy e) ix jx in
  let lyy := Mat_at (Lyy e) ix jx in
  with_Ldet e (Mat_set (Ldet e) ix jx (fsub (fmul lxx lyy) (fmul lxy lxy))).

Definition response_level (e : tevolution) : tevolution :=
  for_range 0 (img_height options) (fun ix e =>
    for_range 0 (img_width options) (fun jx e => response_pixel ix jx e) e) e.

(** [Compute_Detector_Response()]: the scale space after the call. *)
Definition Compute_Detector_Response (evolution : KAZEEvolution) : KAZEEvolution :=
  let evolution := Compute_Multiscale_Derivatives evolution in
  for_range 0 (Z.of_nat (length evolution))
    (fun i evolution => alter response_level (Z.to_nat i) evolution) evolution.

End WithOptions.
End Response.

(* ================================================================== *)
(** ** Concrete inputs for the further examples *)
(* ================================================================== *)
Module Cases.
Import IEEE Model.

(** Three keypoints on a line: at [x = 0] with response 5, at [x = 1] with
    response 3 and at [x = 10] with response 1. *)
Definition strong_keypoint : KeyPoint :=
  mkKeyPoint (fconst 0 0) (fconst 0 0) (fconst 2 0) fzero (fconst 5 0) 0 1.
Definition weak_keypoint : KeyPoint :=
  mkKeyPoint (fconst 1 0) (fconst 0 0) (fconst 2 0) fzero (fconst 3 0) 0 1.
Definition far_keypoint : KeyPoint :=
  mkKeyPoint (fconst 10 0) (fconst 0 0) (fconst 2 0) fzero (fconst 1 0) 0 1.
Definition line_keypoints : list KeyPoint :=
  [weak_keypoint; strong_keypoint; far_keypoint].

(** A tridiagonal system in one column over the reals: diagonal [2, 2],
    off-diagonal [1], right-hand side [3, 3]. *)
Definition system_diagonal : AOS.Mat R := AOS.mkMat 2 1 [2; 2]%R.
Definition system_off_diagonal : AOS.Mat R := AOS.mkMat 1 1 [1]%R.
Definition system_rhs : AOS.Mat R := AOS.mkMat 2 1 [3; 3]%R.
Definition system_unknown : AOS.Mat R := AOS.mkMat 2 1 [0; 0]%R.

(** A 2x2 image over the reals with the conductivity 1 everywhere. *)
Definition real_image : AOS.Mat R := AOS.mkMat 2 2 [1; 2; 3; 4]%R.
Definition real_conductivity : AOS.Mat R := AOS.mkMat 2 2 [1; 1; 1; 1]%R.
Definition real_scratch : AOS.Scratch R := AOS.Allocate_Scratch (ar := AOS.real_arith) 2 2.

(** A scale space of two 3x3 levels. *)
Definition two_levels : KAZEEvolution :=
  [ Reference.response_level (Reference.image 3 3 [((1, 1), fconst 5 0)]) (fconst 3 (-1)) 2 0 0;
    Reference.response_level (Reference.image 3 3 []) (fconst 3 0) 3 1 0 ].

(** One 2x2 level whose second derivatives are filled and whose response
    is still to be computed. *)
Definition curved_options : KAZEOptions :=
  {| img_width := 2; img_height := 2; nsublevels := 1;
     soffset := fconst 3 (-1); dthreshold := fconst 1 0 |}.

Definition curved_levels : KAZEEvolution :=
  let z := Mat_zeros 2 2 in
  [ mkEvolution z z
      (mkMat 2 2 [fconst 2 0; fconst 1 0; fzero; fconst 3 0])
      (mkMat 2 2 [fconst 1 0; fconst 1 0; fconst 5 0; fzero])
      (mkMat 2 2 [fconst 3 0; fconst 1 0; fconst 7 0; fconst 3 0])
      z (fconst 3 (-1)) (fconst 9 (-3)) 2 0 0 ].

End Cases.

(* ================================================================== *)
(** * Facts about the arithmetic *)
(* ================================================================== *)
Section IEEE_facts.
Import IEEE.

(** The order on specification floats is asymmetric. *)
Lemma SFltb_asym (a b : spec_float) : SFltb a b = true -> SFltb b a = false.
Proof.
  unfold SFltb, SFcompare.
  destruct a as [sa|sa| |sa ma ea], b as [sb|sb| |sb mb eb];
    try destruct sa; try destruct sb; simpl; try discriminate; try reflexivity;
    rewrite (Z.compare_antisym ea eb);
    change (Pos.compare_cont Eq mb ma) with (Pos.compare mb ma);
    change (Pos.compare_cont Eq ma mb) with (Pos.compare ma mb);
    rewrite (Pos.compare_antisym ma mb);
    destruct (ea ?= eb); simpl; try discriminate; try reflexivity;
    destruct (ma ?= mb)%positive; simpl; try discriminate; reflexivity.
Qed.

Lemma SFleb_not_ltb (a b : spec_float) : SFleb a b = true -> SFltb b a = false.
Proof.
  unfold SFleb, SFltb, SFcompare.
  destruct a as [sa|sa| |sa ma ea], b as [sb|sb| |sb mb eb];
    try destruct sa; try destruct sb; simpl; try discriminate; try reflexivity;
    rewrite (Z.compare_antisym ea eb);
    change (Pos.compare_cont Eq mb ma) with (Pos.compare mb ma);
    change (Pos.compare_cont Eq ma mb) with (Pos.compare ma mb);
    rewrite (Pos.compare_antisym ma mb);
    destruct (ea ?= eb); simpl; try discriminate; try reflexivity;
    destruct (ma ?= mb)%positive; simpl; try discriminate; reflexivity.
Qed.

(** Nothing below [x] is above [|x|]. *)
Lemma SFltb_abs_false (d x : spec_float) : SFltb d x = true -> SFltb (SFabs x) d = false.
Proof.
  intros H.
  destruct x as [sx|sx| |[|] mx ex]; simpl.
  - destruct d as [sd|sd| |[|] md ed]; try destruct sd; try destruct sx; try discriminate H; reflexivity.
  - destruct d as [sd|sd| |[|] md ed]; try destruct sd; try destruct sx; try discriminate H; reflexivity.
  - destruct d as [sd|sd| |[|] md ed]; try destruct sd; discriminate H.
  - destruct d as [sd|sd| |[|] md ed]; try destruct sd; try discriminate H; reflexivity.
  - apply SFltb_asym, H.
Qed.

Lemma SFleb_abs_false (d x : spec_float) : SFleb d x = true -> SFltb (SFabs x) d = false.
Proof.
  intros H.
  destruct x as [sx|sx| |[|] mx ex]; simpl.
  - destruct d as [sd|sd| |[|] md ed]; try destruct sd; try destruct sx; try discriminate H; reflexivity.
  - destruct d as [sd|sd| |[|] md ed]; try destruct sd; try destruct sx; try discriminate H; reflexivity.
  - destruct d as [sd|sd| |[|] md ed]; try destruct sd; discriminate H.
  - destruct d as [sd|sd| |[|] md ed]; try destruct sd; try discriminate H; reflexivity.
  - apply SFleb_not_ltb, H.
Qed.

(** Rounding keeps the sign, so it commutes with the absolute value. *)
Lemma binary_round_aux_abs prec emax s m e l :
  SFabs (binary_round_aux prec emax s m e l) = binary_round_aux prec emax false m e l.
Proof.
  unfold binary_round_aux.
  destruct (shr_fexp prec emax m e l) as [mrs' e'].
  destruct (shr_fexp prec emax _ e' loc_Exact) as [mrs'' e''].
  destruct (shr_m mrs''); try reflexivity.
  destruct (e'' <=? emax - prec); reflexivity.
Qed.

Lemma round_to_abs prec emax x :
  round_to prec emax (SFabs x) = SFabs (round_to prec emax x).
Proof.
  destruct x as [s|s| |s m e]; try reflexivity.
  simpl. unfold binary_round.
  destruct (shl_align m e _) as [mz ez].
  symmetry. apply binary_round_aux_abs.
Qed.

Lemma to_double_fabs (a : float) : to_double (fabs a) = dabs (to_double a).
Proof. unfold to_double, fabs, dabs. simpl. f_equal. apply round_to_abs. Qed.

(** [v > d] excludes [|v| < d], and [d <= v] (in [double]) excludes
    [|v| < d]. *)
Lemma fgt_fabs_not_below (v d : float) : fgt v d = true -> flt (fabs v) d = false.
Proof. unfold fgt, flt, fabs. simpl. apply SFltb_abs_false. Qed.

Lemma dge_fabs_not_below (v : float) (d : double) :
  dge (to_double v) d = true -> dlt (to_double (fabs v)) d = false.
Proof. rewrite to_double_fabs. unfold dge, dle, dlt, dabs. simpl. apply SFleb_abs_false. Qed.

End IEEE_facts.

(* ================================================================== *)
(** * Loops as folds *)
(* ================================================================== *)
Section Loop_facts.

Lemma for_range_empty {St} lo hi (body : Z -> St -> St) s :
  hi <= lo -> for_range lo hi body s = s.
Proof. intros H. unfold for_range. rewrite seqZ_nil by lia. reflexivity. Qed.

Lemma fold_left_ext_in {A B} (f g : A -> B -> A) (l : list B) (s : A) :
  (forall x, x ∈ l -> forall acc, f acc x = g acc x) ->
  fold_left f l s = fold_left g l s.
Proof.
  revert s. induction l as [|x l IH]; intros s H; simpl; [reflexivity|].
  rewrite H by constructor. apply IH. intros y Hy. apply H. by constructor.
Qed.

Lemma for_range_ext {St} lo hi (b1 b2 : Z -> St -> St) s :
  (forall i, lo <= i < hi -> forall acc, b1 i acc = b2 i acc) ->
  for_range lo hi b1 s = for_range lo hi b2 s.
Proof.
  intros H. unfold for_range. apply fold_left_ext_in.
  intros i Hi acc. apply H. apply elem_of_seqZ in Hi. lia.
Qed.

(** A loop whose body appends. *)
Lemma fold_left_append {A B} (f : A -> list B) (l : list A) (s : list B) :
  fold_left (fun acc i => acc ++ f i) l s = s ++ flat_map f l.
Proof.
  revert s. induction l as [|x l IH]; intros s; simpl.
  - by rewrite app_nil_r.
  - rewrite IH. by rewrite <- app_assoc.
Qed.

(** A loop whose body appends to one slot of a vector of vectors. *)
Lemma fold_left_alter_append {A B} (f : A -> list B) (idx : nat) (l : list A)
      (kp : list (list B)) :
  fold_left (fun acc i => alter (fun v => v ++ f i) idx acc) l kp
  = alter (fun v => v ++ flat_map f l) idx kp.
Proof.
  revert kp. induction l as [|x l IH]; intros kp; simpl.
  - symmetry. apply list_alter_id. intros v. apply app_nil_r.
  - rewrite IH, list_alter_alter_eq. apply list_alter_ext; [|reflexivity].
    intros v _. simpl. by rewrite <- app_assoc.
Qed.

(** An index loop over a vector is a fold over its elements. *)
Lemma for_range_index {A St} (l : list A) (d : A) (g : A -> St -> St) (s : St) :
  for_range 0 (Z.of_nat (length l)) (fun j acc => g (nth (Z.to_nat j) l d) acc) s
  = fold_left (fun acc x => g x acc) l s.
Proof.
  revert s. induction l as [|x l IH] using rev_ind; intros s; [reflexivity|].
  unfold for_range in *. rewrite length_app. simpl length.
  replace (Z.of_nat (length l + 1) - 0) with (Z.of_nat (S (length l))) by lia.
  rewrite seqZ_S, !fold_left_app. simpl.
  rewrite Z.sub_0_r in IH.
  rewrite Z.add_0_l, Nat2Z.id, app_nth2, Nat.sub_diag by lia. simpl. f_equal.
  rewrite <- IH. apply fold_left_ext_in. intros j Hj acc.
  apply elem_of_seqZ in Hj. f_equal. apply app_nth1. lia.
Qed.

Lemma fold_left_flat_map {A B St} (F : St -> B -> St) (g : A -> list B) (l : list A) (s : St) :
  fold_left F (flat_map g l) s = fold_left (fun acc x => fold_left F (g x) acc) l s.
Proof.
  revert s. induction l as [|x l IH]; intros s; simpl; [reflexivity|].
  by rewrite fold_left_app, IH.
Qed.

Lemma fold_left_map {A B St} (F : St -> B -> St) (g : A -> B) (l : list A) (s : St) :
  fold_left F (map g l) s = fold_left (fun acc x => F acc (g x)) l s.
Proof. revert s. induction l as [|x l IH]; intros s; simpl; [reflexivity|]. apply IH. Qed.

Lemma nth_seqZ (m n : Z) (i : nat) (d : Z) :
  Z.of_nat i < n -> nth i (seqZ m n) d = m + Z.of_nat i.
Proof.
  intros H. apply nth_lookup_Some with (d := d). by apply lookup_seqZ_lt.
Qed.

End Loop_facts.

Section Loop_invariants.

Lemma fold_left_inv {A B} (P : A -> Prop) (f : A -> B -> A) (l : list B) (s : A) :
  P s -> (forall x acc, x ∈ l -> P acc -> P (f acc x)) -> P (fold_left f l s).
Proof.
  revert s. induction l as [|x l IH]; intros s Hs Hstep; simpl; [assumption|].
  apply IH.
  - apply Hstep; [constructor|assumption].
  - intros y acc Hy. apply Hstep. by constructor.
Qed.

Lemma for_range_inv {St} (P : St -> Prop) lo hi (body : Z -> St -> St) s :
  P s -> (forall i acc, lo <= i < hi -> P acc -> P (body i acc)) ->
  P (for_range lo hi body s).
Proof.
  intros Hs Hstep. unfold for_range. apply fold_left_inv; [assumption|].
  intros i acc Hi. apply Hstep. apply elem_of_seqZ in Hi. lia.
Qed.

Lemma for_step_inv {St} (P : St -> Prop) lo hi step (body : Z -> St -> St) s :
  P s ->
  (forall n acc, 0 <= n < (hi - lo + step - 1) / step -> P acc -> P (body (lo + step * n) acc)) ->
  P (for_step lo hi step body s).
Proof.
  intros Hs Hstep. unfold for_step. apply fold_left_inv; [assumption|].
  intros n acc Hn. apply Hstep. apply elem_of_seqZ in Hn. lia.
Qed.

(** A [while] loop whose body keeps an invariant and decreases a measure
    ends within as many iterations as the measure allows, with the
    invariant true and the condition false. *)
Lemma while_loop_total {St} (Inv : St -> Prop) (measure : St -> nat)
      (cond : St -> bool) (body : St -> option St) (fuel : nat) (s : St) :
  Inv s ->
  (forall s, Inv s -> cond s = true ->
     exists s', body s = Some s' /\ Inv s' /\ (measure s' < measure s)%nat) ->
  (measure s <= fuel)%nat ->
  exists s', while_loop fuel cond body s = Some s' /\ Inv s' /\ cond s' = false.
Proof.
  intros Hs Hbody. revert s Hs. induction fuel as [|fuel IH]; intros s Hs Hm.
  - simpl. destruct (cond s) eqn:Hc; [|eauto].
    destruct (Hbody s Hs Hc) as (s' & _ & _ & Hlt). lia.
  - simpl. destruct (cond s) eqn:Hc; [|eauto].
    destruct (Hbody s Hs Hc) as (s' & -> & Hs' & Hlt). apply IH; [assumption|lia].
Qed.

(** [for (i = 0; i < n; i++) d[i] = f(d[i])] on a vector of length [n]. *)
Lemma for_range_map_in_place {A} (f : A -> A) (d0 : A) (l : list A) :
  for_range 0 (Z.of_nat (length l))
    (fun i d => <[Z.to_nat i := f (nth (Z.to_nat i) d d0)]> d) l
  = map f l.
Proof.
  unfold for_range. rewrite Z.sub_0_r.
  assert (H : forall k, (k <= length l)%nat ->
    fold_left (fun d i => <[Z.to_nat i := f (nth (Z.to_nat i) d d0)]> d)
              (seqZ 0 (Z.of_nat k)) l
    = map f (take k l) ++ drop k l).
  { induction k as [|k IH]; intros Hk; [reflexivity|].
    rewrite seqZ_S, fold_left_app, IH by lia. simpl.
    rewrite Z.add_0_l, Nat2Z.id.
    destruct (lookup_lt_is_Some_2 l k ltac:(lia)) as [x Hx].
    rewrite (drop_S _ _ _ Hx), (take_S_r _ _ _ Hx), map_app. simpl.
    assert (Hlen : length (map f (take k l)) = k) by (rewrite length_map, length_take; lia).
    rewrite app_nth2 by lia. rewrite Hlen, Nat.sub_diag. simpl.
    rewrite insert_app_r_alt by lia. rewrite Hlen, Nat.sub_diag. simpl.
    by rewrite <- app_assoc. }
  rewrite H by lia. by rewrite firstn_all, drop_all, app_nil_r.
Qed.

End Loop_invariants.

Section Loop_induction.

(** Induction on the loop counter. *)
Lemma for_range_ind {St} (P : Z -> St -> Prop) lo hi (body : Z -> St -> St) s :
  lo <= hi -> P lo s ->
  (forall i acc, lo <= i < hi -> P i acc -> P (i + 1) (body i acc)) ->
  P hi (for_range lo hi body s).
Proof.
  intros Hle H0 Hstep. unfold for_range.
  replace hi with (lo + Z.of_nat (Z.to_nat (hi - lo))) at 1 by lia.
  assert (Hn : (Z.to_nat (hi - lo) <= Z.to_nat (hi - lo))%nat) by lia.
  rewrite <- (Z2Nat.id (hi - lo)) at 2 by lia.
  revert Hn. generalize (Z.to_nat (hi - lo)) at 1 3 4 as n.
  induction n as [|n IH]; intros Hn.
  - simpl. by rewrite Z.add_0_r.
  - rewrite seqZ_S, fold_left_app. simpl.
    replace (lo + Z.of_nat (S n)) with (lo + Z.of_nat n + 1) by lia.
    apply Hstep; [lia|]. apply IH. lia.
Qed.

End Loop_induction.

(* ================================================================== *)
(** * The detector *)
(* ================================================================== *)
Section Detector_facts.
Import IEEE Model Detector.
Context {ext : Externals}.
Variable options : KAZEOptions.
Variable evolution : KAZEEvolution.

(** [Find_Extremum_Threading] appends the level's candidates, in raster
    order, to its own slot of [kpts_par]. *)
Lemma Find_Extremum_Threading_alter (level : Z) (kpts_par : list (list KeyPoint)) :
  Find_Extremum_Threading options evolution level kpts_par
  = alter (fun v => v ++ level_candidates options evolution level)
          (Z.to_nat (level - 1)) kpts_par.
Proof.
  unfold Find_Extremum_Threading, level_candidates, for_range.
  replace (img_height options - 1 - 1) with (img_height options - 2) by lia.
  replace (img_width options - 1 - 1) with (img_width options - 2) by lia.
  rewrite <- (fold_left_alter_append
    (fun ix => flat_map (fun jx =>
       if extremum_test options evolution level ix jx
       then [extremum_point evolution level ix jx] else [])
       (seqZ 1 (img_width options - 2)))).
  apply fold_left_ext_in. intros ix _ acc.
  rewrite <- fold_left_alter_append.
  apply fold_left_ext_in. intros jx _ acc'.
  destruct (extremum_test options evolution level ix jx); [reflexivity|].
  symmetry. apply list_alter_id. intros v. apply app_nil_r.
Qed.

Lemma kpts_par_allocated (n : Z) :
  for_range 1 (n - 1) (fun _ (kp : list (list KeyPoint)) => kp ++ [[]]) []
  = replicate (Z.to_nat (n - 2)) [].
Proof.
  unfold for_range. rewrite (fold_left_append (fun _ => [[]])). simpl.
  replace (n - 1 - 1) with (n - 2) by lia.
  destruct (Z.le_gt_cases (n - 2) 0) as [H|H].
  { rewrite seqZ_nil by lia. by replace (Z.to_nat (n - 2)) with 0%nat by lia. }
  rewrite <- (Z2Nat.id (n - 2)) at 1 by lia.
  generalize (Z.to_nat (n - 2)) as k. clear H.
  induction k as [|k IH]; [reflexivity|].
  rewrite seqZ_S, flat_map_app, IH. simpl.
  symmetry. apply replicate_cons_app.
Qed.

Lemma kpts_par_filled_prefix (cands : Z -> list KeyPoint) (m k : nat) :
  (k <= m)%nat ->
  fold_left (fun kp i => alter (fun v => v ++ cands i) (Z.to_nat (i - 1)) kp)
            (seqZ 1 (Z.of_nat k)) (replicate m [])
  = map cands (seqZ 1 (Z.of_nat k)) ++ replicate (m - k) [].
Proof.
  induction k as [|k IH]; intros Hk.
  - simpl. by rewrite Nat.sub_0_r.
  - rewrite seqZ_S, fold_left_app, IH by lia. simpl.
    replace (Z.to_nat (1 + Z.of_nat k - 1)) with (length (map cands (seqZ 1 (Z.of_nat k))) + 0)%nat
      by (rewrite length_map, length_seqZ; lia).
    rewrite alter_app_r.
    replace (m - k)%nat with (S (m - S k)) by lia. simpl.
    rewrite map_app. simpl. by rewrite <- app_assoc.
Qed.

Lemma kpts_par_filled (n : Z) :
  for_range 1 (n - 1) (fun i kp => Find_Extremum_Threading options evolution i kp)
            (replicate (Z.to_nat (n - 2)) [])
  = map (level_candidates options evolution) (seqZ 1 (n - 2)).
Proof.
  unfold for_range. replace (n - 1 - 1) with (n - 2) by lia.
  rewrite (fold_left_ext_in _
    (fun kp i => alter (fun v => v ++ level_candidates options evolution i) (Z.to_nat (i - 1)) kp)).
  2:{ intros i _ acc. apply Find_Extremum_Threading_alter. }
  destruct (Z.le_gt_cases (n - 2) 0) as [H|H].
  { rewrite seqZ_nil by lia. by replace (Z.to_nat (n - 2)) with 0%nat by lia. }
  rewrite <- (Z2Nat.id (n - 2)) at 1 3 by lia.
  rewrite kpts_par_filled_prefix by lia.
  by rewrite Nat.sub_diag, app_nil_r.
Qed.

(** The search loop with its [break] finds the first keypoint that is near
    in level and too close in the image. *)
Lemma search_repeated_find (cand : KeyPoint) (level : Z) (kpts : list KeyPoint) (ik : nat) :
  search_repeated evolution cand level kpts ik
  = match list_find (fun k => class_near k level && too_close evolution cand k level = true) kpts with
    | Some (j, incumbent) =>
        if fgt (response cand) (response incumbent)
        then mkFlags true true (ik + j) else mkFlags false false 0
    | None => mkFlags true false 0
    end.
Proof.
  revert ik. induction kpts as [|k rest IH]; intros ik; [reflexivity|].
  cbn [search_repeated list_find].
  destruct (decide (class_near k level && too_close evolution cand k level = true)) as [Hd|Hd].
  - apply andb_true_iff in Hd as [Hc Ht]. rewrite Hc, Ht. simpl.
    by rewrite Nat.add_0_r.
  - assert (Hrest : (if class_near k level
                     then if too_close evolution cand k level
                          then if fgt (response cand) (response k)
                               then mkFlags true true ik else mkFlags false false 0
                          else search_repeated evolution cand level rest (S ik)
                     else search_repeated evolution cand level rest (S ik))
                    = search_repeated evolution cand level rest (S ik)).
    { destruct (class_near k level), (too_close evolution cand k level);
        try reflexivity. by destruct Hd. }
    rewrite Hrest, IH.
    destruct (list_find _ rest) as [[j inc]|]; simpl; [|reflexivity].
    destruct (fgt (response cand) (response inc)); [f_equal; lia|reflexivity].
Qed.

Lemma dedup_step_spec (level : Z) (cand : KeyPoint) (kpts : list KeyPoint) :
  dedup_step evolution level cand kpts = dedup_spec evolution level cand kpts.
Proof.
  unfold dedup_step, dedup_spec. rewrite search_repeated_find.
  destruct (list_find _ kpts) as [[j inc]|]; [|reflexivity].
  destruct (fgt (response cand) (response inc)); reflexivity.
Qed.

(** The fill loop of [Determinant_Hessian_Parallel] runs the dedup step over
    the candidates of all interior levels, in level order and, within a
    level, in raster order. *)
Lemma Determinant_Hessian_Parallel_fold (kpts : list KeyPoint) :
  Determinant_Hessian_Parallel options evolution kpts
  = fold_left (fun acc lc => dedup_spec evolution (fst lc) (snd lc) acc)
              (all_candidates options evolution) kpts.
Proof.
  unfold Determinant_Hessian_Parallel, all_candidates, interior_levels.
  set (n := Z.of_nat (length evolution)).
  rewrite kpts_par_allocated, kpts_par_filled.
  rewrite fold_left_flat_map.
  rewrite <- (for_range_index (seqZ 1 (n - 2)) 0
    (fun level acc => fold_left (fun acc lc => dedup_spec evolution (fst lc) (snd lc) acc)
       (map (fun c => (level, c)) (level_candidates options evolution level)) acc)).
  rewrite length_map. apply for_range_ext. intros i Hi acc.
  rewrite length_seqZ in Hi.
  assert (Hlt : Z.of_nat (Z.to_nat i) < n - 2) by lia.
  cbv zeta.
  rewrite (nth_indep _ _ (level_candidates options evolution 0))
    by (rewrite length_map, length_seqZ; lia).
  rewrite map_nth, nth_seqZ by lia.
  replace (1 + Z.of_nat (Z.to_nat i)) with (i + 1) by lia.
  rewrite for_range_index, fold_left_map. simpl.
  apply fold_left_ext_in. intros c _ acc'. apply dedup_step_spec.
Qed.

End Detector_facts.

Section Detector_claims.
Import IEEE Model Detector.
Context {ext : Externals}.
Variable options : KAZEOptions.
Variable evolution : KAZEEvolution.

Lemma extremum_test_true (level ix jx : Z) :
  extremum_test options evolution level ix jx = true <->
  let value := Ldet_at evolution level ix jx in
  fgt value (dthreshold options) = true /\
  dge (to_double value) DEFAULT_MIN_DETECTOR_THRESHOLD = true /\
  fge value (Ldet_at evolution level ix (jx - 1)) = true /\
  Check_Maximum_Neighbourhood (Ldet (evolution_at evolution level)) 1 value ix jx true = true /\
  Check_Maximum_Neighbourhood (Ldet (evolution_at evolution (level - 1))) 1 value ix jx false = true /\
  Check_Maximum_Neighbourhood (Ldet (evolution_at evolution (level + 1))) 1 value ix jx false = true.
Proof.
  unfold extremum_test. cbv zeta.
  destruct (fgt _ (dthreshold options)); simpl; [|intuition discriminate].
  destruct (dge _ DEFAULT_MIN_DETECTOR_THRESHOLD); simpl; [|intuition discriminate].
  destruct (fge _ _); [|intuition discriminate].
  destruct (Check_Maximum_Neighbourhood _ 1 _ ix jx true); [|intuition discriminate].
  destruct (Check_Maximum_Neighbourhood _ 1 _ ix jx false); [|intuition discriminate].
  destruct (Check_Maximum_Neighbourhood _ 1 _ ix jx false); intuition discriminate.
Qed.

Lemma level_candidates_elem (level : Z) (k : KeyPoint) :
  k ∈ level_candidates options evolution level <->
  exists ix jx,
    1 <= ix < img_height options - 1 /\ 1 <= jx < img_width options - 1 /\
    extremum_test options evolution level ix jx = true /\
    k = extremum_point evolution level ix jx.
Proof.
  unfold level_candidates. rewrite list_elem_of_In, in_flat_map. split.
  - intros (ix & Hix & Hk). apply in_flat_map in Hk as (jx & Hjx & Hk).
    apply list_elem_of_In, elem_of_seqZ in Hix, Hjx.
    exists ix, jx. destruct (extremum_test options evolution level ix jx).
    + destruct Hk as [<-|[]]. repeat split; lia.
    + destruct Hk.
  - intros (ix & jx & Hix & Hjx & Ht & ->).
    exists ix. split; [apply list_elem_of_In, elem_of_seqZ; lia|].
    apply in_flat_map. exists jx. split; [apply list_elem_of_In, elem_of_seqZ; lia|].
    rewrite Ht. by left.
Qed.

Lemma all_candidates_elem (level : Z) (c : KeyPoint) :
  (level, c) ∈ all_candidates options evolution ->
  c ∈ level_candidates options evolution level.
Proof.
  unfold all_candidates. rewrite list_elem_of_In, in_flat_map.
  intros (l & _ & H). apply in_map_iff in H as (c' & Heq & H).
  inversion Heq; subst. by apply list_elem_of_In.
Qed.

Lemma Forall_alter_replicate {A} (P : A -> Prop) (c : list A) (i m : nat) :
  Forall P c -> Forall (Forall P) (alter (fun v => v ++ c) i (replicate m [])).
Proof.
  intros Hc.
  assert (Hrep : forall n, Forall (Forall P) (replicate n ([] : list A))).
  { induction n; simpl; constructor; auto. }
  revert i. induction m as [|m IH]; intros i; simpl; [constructor|].
  destruct i as [|i]; simpl; constructor; auto. apply IH.
Qed.

Lemma dedup_spec_Forall (Q : KeyPoint -> Prop) level cand kpts :
  Q cand -> Forall Q kpts -> Forall Q (dedup_spec evolution level cand kpts).
Proof.
  intros Hc Hk. unfold dedup_spec.
  destruct (list_find _ kpts) as [[j inc]|].
  - destruct (fgt _ _); [|assumption]. by apply Forall_insert.
  - apply Forall_app. split; [assumption|]. by constructor.
Qed.

Lemma fold_dedup_Forall (Q : KeyPoint -> Prop) (cs : list (Z * KeyPoint)) kpts :
  Forall (fun lc => Q (snd lc)) cs -> Forall Q kpts ->
  Forall Q (fold_left (fun acc lc => dedup_spec evolution (fst lc) (snd lc) acc) cs kpts).
Proof.
  revert kpts. induction cs as [|[l c] cs IH]; intros kpts Hcs Hk; simpl; [assumption|].
  inversion Hcs; subst. apply IH; [assumption|]. by apply dedup_spec_Forall.
Qed.

(** The loop of [Do_Subpixel_Refinement] from index [i] on leaves the
    first [i] keypoints alone and refines or drops each of the others. *)
Lemma refine_loop_omap (fuel : nat) (kpts : list KeyPoint) (i : nat) :
  (length kpts - i <= fuel)%nat ->
  refine_loop options evolution fuel kpts i
  = take i kpts ++ omap (refine_one options evolution) (drop i kpts).
Proof.
  revert kpts i. induction fuel as [|fuel IH]; intros kpts i Hfuel.
  - simpl. rewrite drop_ge, take_ge by lia. simpl. by rewrite app_nil_r.
  - simpl. destruct (kpts !! i) as [k|] eqn:Hk.
    + pose proof (lookup_lt_Some _ _ _ Hk) as Hlt.
      rewrite (drop_S _ _ _ Hk). simpl. unfold refine_one at 1.
      destruct (refine_accept (refine_dst evolution k)).
      * rewrite IH by (rewrite length_insert; lia).
        rewrite take_insert_lt, drop_insert_lt by lia.
        rewrite (take_S_r _ _ _ Hk), insert_app_r_alt by (rewrite length_take; lia).
        rewrite length_take, Nat.min_l, Nat.sub_diag by lia. simpl.
        by rewrite <- app_assoc.
      * rewrite IH by (rewrite length_delete by (by eexists); lia).
        rewrite delete_take_drop.
        rewrite take_app_length' by (rewrite length_take; lia).
        rewrite drop_app_length' by (rewrite length_take; lia).
        reflexivity.
    + apply lookup_ge_None in Hk. rewrite drop_ge, take_ge by lia.
      simpl. by rewrite app_nil_r.
Qed.

Lemma Do_Subpixel_Refinement_omap (kpts : list KeyPoint) :
  Do_Subpixel_Refinement options evolution kpts = omap (refine_one options evolution) kpts.
Proof. unfold Do_Subpixel_Refinement. by rewrite refine_loop_omap by lia. Qed.

Lemma omap_refine_Forall (Q : KeyPoint -> Prop) kpts :
  (forall k dst, Q k -> Q (refine_update options k dst)) ->
  Forall Q kpts -> Forall Q (omap (refine_one options evolution) kpts).
Proof.
  intros Hupd. induction 1 as [|k kpts Hk _ IH]; simpl; [constructor|].
  unfold refine_one at 1. destruct (refine_accept _); [|assumption].
  constructor; auto.
Qed.

(** C1 (as the code has it).  [Find_Extremum_Threading] appends to its slot
    of [kpts_par] one candidate per interior pixel, in raster order, and a
    pixel yields a candidate exactly when its response passes the two
    thresholds, is at least the response of its left neighbour on the same
    level (the comparison is [>=]: a tie with the left neighbour passes),
    and passes [Check_Maximum_Neighbourhood] on its own level and on the
    levels below and above. *)
Theorem extremum_left_neighbour_nonstrict (level : Z) :
  (forall kpts_par,
     Find_Extremum_Threading options evolution level kpts_par
     = alter (fun v => v ++ level_candidates options evolution level)
             (Z.to_nat (level - 1)) kpts_par) /\
  (forall k,
     k ∈ level_candidates options evolution level <->
     exists ix jx,
       1 <= ix < img_height options - 1 /\ 1 <= jx < img_width options - 1 /\
       k = extremum_point evolution level ix jx /\
       let value := Ldet_at evolution level ix jx in
       fgt value (dthreshold options) = true /\
       dge (to_double value) DEFAULT_MIN_DETECTOR_THRESHOLD = true /\
       fge value (Ldet_at evolution level ix (jx - 1)) = true /\
       Check_Maximum_Neighbourhood (Ldet (evolution_at evolution level)) 1 value ix jx true = true /\
       Check_Maximum_Neighbourhood (Ldet (evolution_at evolution (level - 1))) 1 value ix jx false = true /\
       Check_Maximum_Neighbourhood (Ldet (evolution_at evolution (level + 1))) 1 value ix jx false = true).
Proof.
  split.
  - intros kpts_par. apply Find_Extremum_Threading_alter.
  - intros k. rewrite level_candidates_elem. split.
    + intros (ix & jx & Hix & Hjx & Ht & ->). exists ix, jx.
      apply extremum_test_true in Ht. auto.
    + intros (ix & jx & Hix & Hjx & -> & Ht). exists ix, jx.
      apply extremum_test_true in Ht. auto.
Qed.

(** C4.  Every candidate [Find_Extremum_Threading] emits comes from a pixel
    whose response is strictly above [dthreshold] and at least
    [DEFAULT_MIN_DETECTOR_THRESHOLD], and carries the absolute value of that
    response; hence no keypoint [Feature_Detection] returns has a response
    below either threshold. *)
Theorem detector_thresholding (level : Z) (m : nat) :
  Forall (Forall (fun k =>
            exists ix jx,
              let value := Ldet_at evolution level ix jx in
              k = extremum_point evolution level ix jx /\
              fgt value (dthreshold options) = true /\
              dge (to_double value) DEFAULT_MIN_DETECTOR_THRESHOLD = true /\
              response k = fabs value))
         (Find_Extremum_Threading options evolution level (replicate m [])) /\
  Forall (fun k =>
            flt (response k) (dthreshold options) = false /\
            dlt (to_double (response k)) DEFAULT_MIN_DETECTOR_THRESHOLD = false)
         (Feature_Detection options evolution []).
Proof.
  split.
  - rewrite Find_Extremum_Threading_alter. apply Forall_alter_replicate.
    apply Forall_forall. intros k Hk.
    apply level_candidates_elem in Hk as (ix & jx & _ & _ & Ht & ->).
    apply extremum_test_true in Ht as (H1 & H2 & _).
    exists ix, jx. cbv zeta. auto.
  - unfold Feature_Detection.
    rewrite Do_Subpixel_Refinement_omap, Determinant_Hessian_Parallel_fold.
    apply omap_refine_Forall; [intros k dst Hk; exact Hk|].
    apply fold_dedup_Forall; [|constructor].
    apply Forall_forall. intros [l c] Hc. simpl.
    apply all_candidates_elem, level_candidates_elem in Hc as (ix & jx & _ & _ & Ht & ->).
    apply extremum_test_true in Ht as (H1 & H2 & _). simpl. split.
    + by apply fgt_fabs_not_below.
    + by apply dge_fabs_not_below.
Qed.

(** C5.  The inner loop of [Determinant_Hessian_Parallel] with its flags and
    its [break] is the dedup step of the specification: the first accepted
    keypoint within one level of the candidate and closer than
    [sigma_size[level]] decides; the candidate replaces it in place when its
    response is strictly larger and is dropped otherwise (so the incumbent
    wins a tie); without such a keypoint the candidate is appended.  The
    fill loop applies that step to the candidates in level order. *)
Theorem cross_level_dedup :
  (forall level cand kpts,
     dedup_step evolution level cand kpts
     = match list_find (fun k => class_near k level && too_close evolution cand k level = true) kpts with
       | Some (ik, incumbent) =>
           if fgt (response cand) (response incumbent) then <[ik := cand]> kpts else kpts
       | None => kpts ++ [cand]
       end) /\
  (forall kpts,
     Determinant_Hessian_Parallel options evolution kpts
     = fold_left (fun acc lc => dedup_step evolution (fst lc) (snd lc) acc)
                 (all_candidates options evolution) kpts).
Proof.
  split.
  - intros level cand kpts. apply dedup_step_spec.
  - intros kpts. rewrite Determinant_Hessian_Parallel_fold.
    apply fold_left_ext_in. intros lc _ acc. symmetry. apply dedup_step_spec.
Qed.

(** C2 (as the code has it).  The dedup step appends a candidate exactly
    when every keypoint accepted so far whose [class_id] is within one of
    the candidate's level is not closer to it than [sigma_size[level]]
    (squared distance not below [sigma_size[level]^2], [level] being the
    candidate's level). *)
Theorem dedup_appends_iff_separated (level : Z) (cand : KeyPoint) (kpts : list KeyPoint) :
  dedup_step evolution level cand kpts = kpts ++ [cand] <->
  Forall (fun k => class_near k level = true -> too_close evolution cand k level = false) kpts.
Proof.
  rewrite dedup_step_spec. unfold dedup_spec.
  destruct (list_find _ kpts) as [[j inc]|] eqn:Hfind.
  - apply list_find_Some in Hfind as (Hj & Hinc & _).
    apply andb_true_iff in Hinc as [Hc Ht]. split.
    + intros Heq. exfalso. apply (f_equal length) in Heq.
      rewrite length_app in Heq. simpl in Heq.
      destruct (fgt _ _); [rewrite length_insert in Heq|]; lia.
    + intros Hall. exfalso.
      rewrite Forall_forall in Hall.
      specialize (Hall inc (list_elem_of_lookup_2 _ _ _ Hj) Hc). congruence.
  - split; [|reflexivity]. intros _.
    apply list_find_None in Hfind. eapply Forall_impl; [exact Hfind|].
    intros k Hk Hc. simpl in Hk. rewrite Hc in Hk. simpl in Hk.
    by destruct (too_close evolution cand k level).
Qed.

(** C3.  [Do_Subpixel_Refinement] treats the keypoints one by one and keeps
    their order.  For the keypoint [k], with [x] and [y] its truncated
    position, [c] its [class_id] and [L] the responses [Ldet], it forms the
    gradient by central differences with step 1,
    [Dx = (L c y (x+1) - L c y (x-1)) / 2] and [Dy] alike along [y],
    [Ds = 0.5 * (L (c+1) y x - L (c-1) y x)] between the two adjacent
    levels, and the Hessian by second differences,
    [Dxx = L c y (x+1) + L c y (x-1) - 2 * L c y x] ([Dyy], [Dss] alike) and
    [Dxy = ((L c (y+1) (x+1) + L c (y-1) (x-1))
            - (L c (y-1) (x+1) + L c (y+1) (x-1))) / 4] ([Dxs], [Dys] alike,
    with the levels [c+1] and [c-1] for the scale), each computed in double
    precision from sums and differences taken in single precision and
    rounded to single precision.  [dst] is what [cv::solve] returns for the
    symmetric matrix [A] of the second differences and the right-hand side
    [b = (-Dx, -Dy, -Ds)].  When the three components of [dst] are at most
    1 in magnitude the position is shifted by [(dst[0], dst[1])], the size
    becomes [2 * soffset * 2^dsc] with
    [dsc = octave + (angle + dst[2]) / nsublevels] and the angle becomes 0;
    otherwise the keypoint is removed. *)
Theorem subpixel_refinement_spec (kpts : list KeyPoint) :
  Do_Subpixel_Refinement options evolution kpts
  = omap (fun k =>
      let x := int_of_float (pt_x k) in
      let y := int_of_float (pt_y k) in
      let c := class_id k in
      let L := Ldet_at evolution in
      let half := ddiv d1_0 (dmul d2_0 (double_of_int 1)) in
      let quarter := ddiv d1_0 (dmul d4_0 (double_of_int 1)) in
      let unit := ddiv d1_0 (double_of_int (1 * 1)) in
      let Dx := to_float (dmul half (to_double (fsub (L c y (x + 1)) (L c y (x - 1))))) in
      let Dy := to_float (dmul half (to_double (fsub (L c (y + 1) x) (L c (y - 1) x)))) in
      let Ds := to_float (dmul d0_5 (to_double (fsub (L (c + 1) y x) (L (c - 1) y x)))) in
      let Dxx := to_float (dmul unit
                   (dsub (to_double (fadd (L c y (x + 1)) (L c y (x - 1))))
                         (dmul d2_0 (to_double (L c y x))))) in
      let Dyy := to_float (dmul unit
                   (dsub (to_double (fadd (L c (y + 1) x) (L c (y - 1) x)))
                         (dmul d2_0 (to_double (L c y x))))) in
      let Dss := to_float
                   (dsub (to_double (fadd (L (c + 1) y x) (L (c - 1) y x)))
                         (dmul d2_0 (to_double (L c y x)))) in
      let Dxy := to_float (dsub
                   (dmul quarter (to_double (fadd (L c (y + 1) (x + 1)) (L c (y - 1) (x - 1)))))
                   (dmul quarter (to_double (fadd (L c (y - 1) (x + 1)) (L c (y + 1) (x - 1)))))) in
      let Dxs := to_float (dsub
                   (dmul quarter (to_double (fadd (L (c + 1) y (x + 1)) (L (c - 1) y (x - 1)))))
                   (dmul quarter (to_double (fadd (L (c + 1) y (x - 1)) (L (c - 1) y (x + 1)))))) in
      let Dys := to_float (dsub
                   (dmul quarter (to_double (fadd (L (c + 1) (y + 1) x) (L (c - 1) (y - 1) x))))
                   (dmul quarter (to_double (fadd (L (c + 1) (y - 1) x) (L (c - 1) (y + 1) x))))) in
      let A := mkMat 3 3 [ Dxx; Dxy; Dxs;
                           Dxy; Dyy; Dys;
                           Dxs; Dys; Dss ] in
      let b := mkMat 3 1 [ fneg Dx; fneg Dy; fneg Ds ] in
      let dst := cv_solve A b in
      let d0 := Mat_at dst 0 0 in
      let d1 := Mat_at dst 1 0 in
      let d2 := Mat_at dst 2 0 in
      let dsc := fadd (float_of_int (kp_octave k))
                      (fdiv (fadd (angle k) d2) (float_of_int (nsublevels options))) in
      if dle (to_double (fabs d0)) d1_0
         && dle (to_double (fabs d1)) d1_0
         && dle (to_double (fabs d2)) d1_0
      then Some {| pt_x := fadd (pt_x k) d0;
                   pt_y := fadd (pt_y k) d1;
                   size := to_float (dmul (dmul d2_0 (to_double (soffset options)))
                                          (to_double (powf (fconst 1 1) dsc)));
                   angle := fzero;
                   response := response k;
                   kp_octave := kp_octave k;
                   class_id := class_id k |}
      else None) kpts.
Proof. rewrite Do_Subpixel_Refinement_omap. reflexivity. Qed.

End Detector_claims.

Section Detector_examples.
Import IEEE Model Detector Reference Examples.

(** C1, counterexample.  On the plateau the centre pixel of level 1 has the
    same response as its left neighbour and is accepted all the same. *)
Lemma plateau_accepted_with_equal_left_neighbour :
  Find_Extremum_Threading (ext := externals) plateau_options plateau_evolution 1 [[]]
  = [[extremum_point plateau_evolution 1 1 1]]
  /\ Ldet_at plateau_evolution 1 1 1 = fconst 5 0
  /\ Ldet_at plateau_evolution 1 1 0 = fconst 5 0
  /\ fgt (Ldet_at plateau_evolution 1 1 1) (Ldet_at plateau_evolution 1 1 0) = false.
Proof. vm_compute. repeat split. Qed.

(** C2, counterexample.  [Feature_Detection] returns two keypoints of
    levels 2 and 1 at squared distance 4, although [sigma_size[1]^2 = 9]:
    the level-2 candidate replaced, in place, a level-1 keypoint it was
    close to and was never compared with the other one. *)
Lemma crowded_output_violates_separation :
  exists a b,
    Feature_Detection (ext := externals) crowded_options crowded_evolution [] = [a; b]
    /\ class_id a = 2 /\ class_id b = 1
    /\ sigma_size (evolution_at crowded_evolution (Z.min (class_id a) (class_id b))) = 3
    /\ sq_dist a b = fconst 4 0
    /\ fgt (sq_dist a b) (float_of_int (3 * 3)) = false.
Proof.
  exists (mkKeyPoint (fconst 4 0) (fconst 2 0) (fconst 12 0) fzero (fconst 20 0) 2 2),
         (mkKeyPoint (fconst 6 0) (fconst 2 0) (fconst 6 0) fzero (fconst 10 0) 1 1).
  vm_compute. repeat split.
Qed.

(** The refinement moves the skewed maximum by an eighth of a pixel towards
    its larger neighbour. *)
Example skewed_maximum_refined :
  map (fun k => (pt_x k, pt_y k, size k, angle k))
      (Feature_Detection (ext := externals) skewed_options skewed_evolution [])
  = [(fconst 17 (-3), fconst 2 0, fconst 6 0, fzero)].
Proof. vm_compute. reflexivity. Qed.

End Detector_examples.

(* ================================================================== *)
(** * Zeros and NaN under the arithmetic *)
(* ================================================================== *)
Section Zero_or_NaN.
Import IEEE.

Lemma z0n_cases (a : float) :
  z0n a = true -> (exists s, a = F32 (S754_zero s)) \/ a = fnan.
Proof.
  destruct a as [[s|s| |s m e]]; cbv; try discriminate; eauto.
Qed.

Lemma is_zero_z0n a : is_zero a = true -> z0n a = true.
Proof. unfold z0n. by intros ->. Qed.

Lemma is_nan_z0n a : is_nan a = true -> z0n a = true.
Proof. unfold z0n. intros ->. apply orb_true_r. Qed.

Lemma z0n_fzero : z0n fzero = true.
Proof. reflexivity. Qed.

Lemma z0n_fadd a b : z0n a = true -> z0n b = true -> z0n (fadd a b) = true.
Proof.
  intros Ha Hb.
  destruct (z0n_cases a Ha) as [[sa ->]| ->], (z0n_cases b Hb) as [[sb ->]| ->];
    try destruct sa; try destruct sb; reflexivity.
Qed.

Lemma z0n_fabs a : z0n a = true -> z0n (fabs a) = true.
Proof. intros Ha. destruct (z0n_cases a Ha) as [[sa ->]| ->]; reflexivity. Qed.

Lemma z0n_fneg a : z0n a = true -> z0n (fneg a) = true.
Proof. intros Ha. destruct (z0n_cases a Ha) as [[sa ->]| ->]; reflexivity. Qed.

Lemma z0n_fsqrt a : z0n a = true -> z0n (fsqrt a) = true.
Proof. intros Ha. destruct (z0n_cases a Ha) as [[sa ->]| ->]; reflexivity. Qed.

(** A product with a zero or NaN factor is a zero or NaN, whatever the
    other factor is (zero times infinity is NaN). *)
Lemma z0n_fmul_l a b : z0n a = true -> z0n (fmul a b) = true.
Proof.
  intros Ha.
  destruct (z0n_cases a Ha) as [[sa ->]| ->], b as [[sb|sb| |sb mb eb]]; reflexivity.
Qed.

Lemma z0n_fmul_r a b : z0n b = true -> z0n (fmul a b) = true.
Proof.
  intros Hb.
  destruct (z0n_cases b Hb) as [[sb ->]| ->], a as [[sa|sa| |sa ma ea]]; reflexivity.
Qed.

(** The unguarded quotient: zero over zero, and anything involving NaN. *)
Lemma z0n_fdiv_nan a b : z0n a = true -> z0n b = true -> is_nan (fdiv a b) = true.
Proof.
  intros Ha Hb.
  destruct (z0n_cases a Ha) as [[sa ->]| ->], (z0n_cases b Hb) as [[sb ->]| ->]; reflexivity.
Qed.

Lemma is_nan_fdiv a b : is_nan a = true -> is_nan (fdiv a b) = true.
Proof.
  destruct a as [[s|s| |s m e]]; try discriminate. intros _.
  destruct b as [[sb|sb| |sb mb eb]]; reflexivity.
Qed.

Lemma is_nan_not_above a b : is_nan a = true -> fgt a b = false.
Proof. destruct a as [[s|s| |s m e]]; try discriminate. by destruct b as [[| | |]]. Qed.

Lemma is_nan_not_below a b : is_nan a = true -> flt a b = false.
Proof. destruct a as [[s|s| |s m e]]; try discriminate. by destruct b as [[| | |]]. Qed.

(** The squared gradient magnitude of a zero gradient compares equal to
    [0.0], so the G-SURF extractors take their [else] branch. *)
Lemma zero_gradient_modg rx ry :
  is_zero rx = true -> is_zero ry = true ->
  dne (to_double (to_float (dadd (pow2 rx) (pow2 ry)))) dzero = false.
Proof.
  destruct rx as [[sx|sx| |sx mx ex]], ry as [[sy|sy| |sy my ey]]; try discriminate.
  intros _ _. by destruct sx, sy.
Qed.

End Zero_or_NaN.
Example IEEE_half_plus_three :
  IEEE.fadd (IEEE.fconst 1 (-1)) (IEEE.fconst 3 0) = IEEE.fconst 7 (-1).
Proof. reflexivity. Qed.

Example IEEE_zero_over_zero : IEEE.fdiv IEEE.fzero IEEE.fzero = IEEE.fnan.
Proof. reflexivity. Qed.

Example IEEE_fRound_1_6 :
  IEEE.fRound (IEEE.to_float (IEEE.ddiv (IEEE.dconst 16 0) (IEEE.dconst 10 0))) = 2.
Proof. reflexivity. Qed.

Example IEEE_trunc_neg : IEEE.int_of_double (IEEE.dconst (-7) (-1)) = -3.
Proof. reflexivity. Qed.


(* ================================================================== *)
(** * The descriptor extractors *)
(* ================================================================== *)
Section Descriptor_facts.
Import IEEE Model Descriptor.

Local Abbreviation Z0N := (fun v : float => z0n v = true).
Local Abbreviation NAN := (fun v : float => is_nan v = true).
Local Abbreviation out_ok n st :=
  (length (desc st) = n /\ Forall Z0N (desc st) /\ z0n (len st) = true).
Local Abbreviation ok64 s :=
  (z0n (dx s) = true /\ z0n (dy s) = true /\ z0n (mdx s) = true /\ z0n (mdy s) = true).
Local Abbreviation ok128 s :=
  (z0n (dxp s) = true /\ z0n (dxn s) = true /\ z0n (mdxp s) = true /\ z0n (mdxn s) = true /\
   z0n (dyp s) = true /\ z0n (dyn s) = true /\ z0n (mdyp s) = true /\ z0n (mdyn s) = true).

Lemma store_ok (n : nat) (vals : list float) (sq : float) (st : out_state) :
  Forall Z0N vals -> z0n sq = true -> out_ok n st -> out_ok n (store vals sq st).
Proof.
  intros Hvals Hsq. unfold store.
  assert (H : forall st, out_ok n st ->
            out_ok n (fold_left (fun st v => mkOut (<[dcount st := v]> (desc st))
                                                   (S (dcount st)) (len st)) vals st)).
  { induction Hvals as [|v vals Hv _ IH]; intros st' Hst; [assumption|].
    simpl. apply IH. simpl. destruct Hst as (Hl & Hd & Hlen).
    rewrite length_insert. repeat split; try assumption. by apply Forall_insert. }
  intros Hst. destruct (H st Hst) as (Hl & Hd & Hlen). simpl.
  repeat split; try assumption. by apply z0n_fadd.
Qed.

Lemma zero64_ok : ok64 zero64.
Proof. repeat split. Qed.

Lemma zero128_ok : ok128 zero128.
Proof. repeat split. Qed.

Lemma add64_ok a b s : z0n a = true -> z0n b = true -> ok64 s -> ok64 (add64 a b s).
Proof.
  intros Ha Hb (H1 & H2 & H3 & H4). unfold add64. simpl.
  repeat split; auto using z0n_fadd, z0n_fabs.
Qed.

Lemma surf128_accumulate_ok a b s :
  z0n a = true -> z0n b = true -> ok128 s -> ok128 (surf128_accumulate a b s).
Proof.
  intros Ha Hb (H1 & H2 & H3 & H4 & H5 & H6 & H7 & H8). unfold surf128_accumulate.
  destruct (dge (to_double b) dzero), (dge (to_double a) dzero); simpl;
    repeat split; auto using z0n_fadd, z0n_fabs.
Qed.

Lemma gsurf128_accumulate_ok a b s :
  z0n a = true -> z0n b = true -> ok128 s -> ok128 (gsurf128_accumulate a b s).
Proof.
  intros Ha Hb (H1 & H2 & H3 & H4 & H5 & H6 & H7 & H8). unfold gsurf128_accumulate.
  destruct (dge (to_double a) dzero), (dge (to_double b) dzero); simpl;
    repeat split; auto using z0n_fadd, z0n_fabs.
Qed.

Lemma emit64_ok s : ok64 s -> Forall Z0N (emit64 s).
Proof. intros (H1 & H2 & H3 & H4). repeat constructor; assumption. Qed.

Lemma emit128_ok s : ok128 s -> Forall Z0N (emit128 s).
Proof.
  intros (H1 & H2 & H3 & H4 & H5 & H6 & H7 & H8). repeat constructor; assumption.
Qed.

Lemma sq64_ok s : ok64 s -> z0n (sq64 s) = true.
Proof.
  intros (H1 & H2 & H3 & H4). unfold sq64. auto 10 using z0n_fadd, z0n_fmul_l.
Qed.

Lemma sq128_ok s : ok128 s -> z0n (sq128 s) = true.
Proof.
  intros (H1 & H2 & H3 & H4 & H5 & H6 & H7 & H8). unfold sq128.
  auto 20 using z0n_fadd, z0n_fmul_l.
Qed.

Lemma weighted_ok vals g : Forall Z0N vals -> Forall Z0N (weighted vals g).
Proof.
  intros H. unfold weighted. apply Forall_map. eapply Forall_impl; [exact H|].
  intros v Hv. simpl. by apply z0n_fmul_l.
Qed.

Lemma weighted_sq_ok sq g : z0n sq = true -> z0n (weighted_sq sq g) = true.
Proof. intros H. unfold weighted_sq. by apply z0n_fmul_l, z0n_fmul_l. Qed.

Lemma cell_inv {A} (G : A -> Prop) (n i j : Z) (step : Z -> Z -> A -> A) (init : A) :
  G init ->
  (forall k l s, i <= k < i + n -> j <= l < j + n -> G s -> G (step k l s)) ->
  G (cell n i j step init).
Proof.
  intros Hinit Hstep. unfold cell.
  apply for_range_inv; [assumption|]. intros k acc Hk Hacc.
  apply for_range_inv; [assumption|]. intros l acc' Hl Hacc'. by apply Hstep.
Qed.

Lemma grid_ok {A} (G : A -> Prop) (n : nat) (cell_of : Z -> Z -> A)
      (emit : A -> list float) (sq : A -> float) (desc0 : list float) :
  (forall a b, 0 <= a < 4 -> 0 <= b < 4 -> G (cell_of (-10 + 5 * a) (-10 + 5 * b))) ->
  (forall s, G s -> Forall Z0N (emit s)) ->
  (forall s, G s -> z0n (sq s) = true) ->
  length desc0 = n -> Forall Z0N desc0 ->
  out_ok n (grid cell_of emit sq desc0).
Proof.
  intros Hcell Hemit Hsq Hlen H0. unfold grid.
  apply (for_step_inv (fun st => out_ok n st)); [by repeat split|].
  intros a st Ha Hst.
  apply (for_step_inv (fun st => out_ok n st)); [assumption|].
  intros b st' Hb Hst'. cbv zeta.
  change ((10 - -10 + 5 - 1) / 5) with 4 in Ha, Hb.
  apply store_ok; auto.
Qed.

Lemma msurf_grid_ok {A} (G : A -> Prop) (n : nat) (cy_step : float -> float)
      (cell_of : Z -> Z -> A) (emit : A -> list float) (sq : A -> float)
      (desc0 : list float) `{ext : Externals} :
  (forall a b, 0 <= a < 4 -> 0 <= b < 4 -> G (cell_of (-12 + 5 * a) (-12 + 5 * b))) ->
  (forall s, G s -> Forall Z0N (emit s)) ->
  (forall s, G s -> z0n (sq s) = true) ->
  length desc0 = n -> Forall Z0N desc0 ->
  exists st, msurf_grid cy_step cell_of emit sq desc0 = Some st /\ out_ok n st.
Proof.
  intros Hcell Hemit Hsq Hlen H0. unfold msurf_grid.
  match goal with |- context [while_loop 20 ?cnd ?bdy ?ini] =>
    destruct (while_loop_total
      (fun s => (exists a, 0 <= a /\ w_i s = -8 + 5 * a) /\ out_ok n (w_out s))
      (fun s => Z.to_nat (12 - w_i s)) cnd bdy 20%nat ini) as (s' & -> & (_ & Hout) & _)
  end.
  - split; [exists 0; simpl; lia|]. by repeat split.
  - intros s ((a & Ha & Hi) & Hout) Hc. apply Z.ltb_lt in Hc.
    match goal with |- context [while_loop 20 ?cnd ?bdy ?ini] =>
      destruct (while_loop_total
        (fun t => (exists b, 0 <= b /\ w_j t = -8 + 5 * b) /\ out_ok n (w_out' t))
        (fun t => Z.to_nat (12 - w_j t)) cnd bdy 20%nat ini) as (t' & -> & (_ & Hout') & _)
    end.
    + split; [exists 0; simpl; lia|]. exact Hout.
    + intros t ((b & Hb & Hj) & Houtt) Hct. apply Z.ltb_lt in Hct.
      eexists. split; [reflexivity|]. simpl. split; [split|].
      * exists (b + 1). lia.
      * replace (w_i s - 4) with (-12 + 5 * a) by lia.
        replace (w_j t - 4) with (-12 + 5 * b) by lia.
        assert (HG : G (cell_of (-12 + 5 * a) (-12 + 5 * b))) by (apply Hcell; lia).
        apply store_ok; auto using weighted_ok, weighted_sq_ok.
      * lia.
    + simpl. lia.
    + eexists. split; [reflexivity|]. simpl. split; [split|].
      * exists (a + 1). lia.
      * exact Hout'.
      * lia.
  - simpl. lia.
  - eauto.
Qed.

Lemma Forall_nan_insert (d : list float) (j : nat) (v : float) :
  Forall NAN d -> (forall x, d !! j = Some x -> is_nan v = true) -> Forall NAN (<[j := v]> d).
Proof.
  intros Hd Hv. destruct (d !! j) as [x|] eqn:Hx.
  - apply Forall_insert; [assumption|]. by apply (Hv x).
  - rewrite list_insert_ge; [assumption|]. by apply lookup_ge_None.
Qed.

Lemma nth_nan (d : list float) (j : nat) (x : float) :
  Forall NAN d -> d !! j = Some x -> is_nan (nth j d fzero) = true.
Proof.
  intros Hd Hx. rewrite (nth_lookup_Some _ _ _ _ Hx).
  rewrite Forall_forall in Hd. apply Hd. by eapply list_elem_of_lookup_2.
Qed.

Section WithExternals.
Context {ext : Externals}.

(** Clipping keeps a row of NaN as it is: NaN is neither above [cratio] nor
    below [-cratio], and NaN divided by anything is NaN. *)
Lemma Clipping_Descriptor_nan (d : list float) (dsize niter : Z) (ratio : float) :
  Forall NAN d ->
  Forall NAN (Clipping_Descriptor d dsize niter ratio) /\
  length (Clipping_Descriptor d dsize niter ratio) = length d.
Proof.
  intros Hd. unfold Clipping_Descriptor.
  apply (for_range_inv (fun d' => Forall NAN d' /\ length d' = length d)); [by split|].
  intros _ d1 _ [Hd1 Hl1].
  match goal with |- context [for_range 0 dsize ?bdy (d1, fzero)] =>
    pose proof (for_range_inv
      (fun p : list float * float => Forall NAN (fst p) /\ length (fst p) = length d)
      0 dsize bdy (d1, fzero)) as Hinner
  end.
  destruct (for_range 0 dsize _ (d1, fzero)) as [d2 len2].
  destruct Hinner as [Hd2 Hl2]; [by split|..].
  { intros j [d' len'] _ [Hd' Hl']. simpl in *. rewrite length_insert. split; [|assumption].
    apply Forall_nan_insert; [assumption|]. intros x Hx.
    pose proof (nth_nan _ _ _ Hd' Hx) as Hnan.
    by rewrite (is_nan_not_above _ _ Hnan), (is_nan_not_below _ _ Hnan). }
  simpl in *.
  apply (for_range_inv (fun d' => Forall NAN d' /\ length d' = length d)); [by split|].
  intros j d3 _ [Hd3 Hl3]. rewrite length_insert. split; [|assumption].
  apply Forall_nan_insert; [assumption|]. intros x Hx.
  apply is_nan_fdiv. by eapply nth_nan.
Qed.

(** The normalisation tail on sums that are all zero (or NaN): every entry
    becomes the quotient by [sqrt(len)], which is NaN. *)
Lemma normalize_nan (dsize : Z) (st : out_state) :
  0 <= dsize ->
  out_ok (Z.to_nat dsize) st ->
  Forall NAN (normalize dsize st) /\ length (normalize dsize st) = Z.to_nat dsize.
Proof.
  intros Hds (Hlen & Hd & Hl). unfold normalize.
  pose proof (for_range_map_in_place (fun d => fdiv d (fsqrt (len st))) fzero (desc st)) as Hloop.
  rewrite Hlen, Z2Nat.id in Hloop by lia. rewrite Hloop. clear Hloop.
  assert (Hmap : Forall NAN (map (fun d => fdiv d (fsqrt (len st))) (desc st))).
  { apply Forall_map. eapply Forall_impl; [exact Hd|]. intros v Hv.
    apply z0n_fdiv_nan; [exact Hv|by apply z0n_fsqrt]. }
  destruct USE_CLIPPING_NORMALIZATION.
  - destruct (Clipping_Descriptor_nan _ dsize
                CLIPPING_NORMALIZATION_NITER CLIPPING_NORMALIZATION_RATIO Hmap) as [H1 H2].
    split; [assumption|]. by rewrite H2, length_map.
  - split; [assumption|]. by rewrite length_map.
Qed.

Variable options : KAZEOptions.
Variable evolution : KAZEEvolution.
Variable kpt : KeyPoint.

Lemma flat_atb_correct crn pos lo hi :
  flat_atb evolution kpt crn pos lo hi = true ->
  flat_at evolution kpt crn pos lo hi.
Proof.
  unfold flat_atb, flat_at. intros H k l Hk Hl.
  rewrite forallb_forall in H.
  specialize (H k ltac:(apply list_elem_of_In, elem_of_seqZ; lia)).
  rewrite forallb_forall in H.
  specialize (H l ltac:(apply list_elem_of_In, elem_of_seqZ; lia)).
  by apply andb_true_iff in H.
Qed.

Lemma rotate_ok (r : float * float) :
  z0n (fst r) = true -> z0n (snd r) = true ->
  z0n (fst (rotate kpt r)) = true /\ z0n (snd (rotate kpt r)) = true.
Proof.
  destruct r as [rx ry]. simpl. intros Hx Hy.
  split; apply z0n_fadd; apply z0n_fmul_l; auto using z0n_fneg.
Qed.

Lemma gauge_flat (c : corners) :
  is_zero (fst (first_derivatives evolution kpt c)) = true ->
  is_zero (snd (first_derivatives evolution kpt c)) = true ->
  gauge evolution kpt c = (fzero, fzero).
Proof.
  unfold gauge. destruct (first_derivatives evolution kpt c) as [rx ry]. simpl.
  intros Hx Hy. by rewrite zero_gradient_modg.
Qed.

Local Abbreviation trunc_c := (corners_trunc options).
Local Abbreviation round_c := (corners_round options).
Local Abbreviation flat crn pos lo hi := (flat_at evolution kpt crn pos lo hi).
Local Abbreviation FD c := (first_derivatives evolution kpt c).

Lemma flat_z0n crn pos lo hi k l :
  flat crn pos lo hi -> lo <= k < hi -> lo <= l < hi ->
  z0n (fst (FD (crn (pos k l)))) = true /\ z0n (snd (FD (crn (pos k l)))) = true.
Proof.
  intros H Hk Hl. destruct (H k l Hk Hl). split; by apply is_zero_z0n.
Qed.

(** The sub-cell sums of each extractor on a flat neighbourhood. *)
Lemma plain64_cell_ok pos i j :
  flat trunc_c pos (-10) 10 -> -10 <= i <= 5 -> -10 <= j <= 5 ->
  ok64 (cell 5 i j (fun k l s =>
          let '(rx, ry) := FD (trunc_c (pos k l)) in add64 rx ry s) zero64).
Proof.
  intros H Hi Hj. apply (cell_inv (fun s => ok64 s)); [apply zero64_ok|].
  intros k l s Hk Hl Hs.
  destruct (flat_z0n _ _ _ _ k l H) as [Hx Hy]; [lia..|].
  destruct (FD _) as [rx ry]. by apply add64_ok.
Qed.

Lemma plain128_cell_ok pos i j :
  flat trunc_c pos (-10) 10 -> -10 <= i <= 5 -> -10 <= j <= 5 ->
  ok128 (cell 5 i j (fun k l s =>
           let '(rx, ry) := FD (trunc_c (pos k l)) in surf128_accumulate rx ry s) zero128).
Proof.
  intros H Hi Hj. apply (cell_inv (fun s => ok128 s)); [apply zero128_ok|].
  intros k l s Hk Hl Hs.
  destruct (flat_z0n _ _ _ _ k l H) as [Hx Hy]; [lia..|].
  destruct (FD _) as [rx ry]. by apply surf128_accumulate_ok.
Qed.

Lemma rotated64_cell_ok i j :
  flat trunc_c (rotated_position kpt) (-10) 10 -> -10 <= i <= 5 -> -10 <= j <= 5 ->
  ok64 (cell 5 i j (fun k l s =>
          let '(rrx, rry) := rotate kpt (FD (trunc_c (rotated_position kpt k l))) in
          add64 rrx rry s) zero64).
Proof.
  intros H Hi Hj. apply (cell_inv (fun s => ok64 s)); [apply zero64_ok|].
  intros k l s Hk Hl Hs.
  destruct (flat_z0n _ _ _ _ k l H) as [Hx Hy]; [lia..|].
  destruct (rotate_ok _ Hx Hy) as [Hx' Hy'].
  destruct (rotate kpt _) as [rrx rry]. by apply add64_ok.
Qed.

Lemma rotated128_cell_ok i j :
  flat trunc_c (rotated_position kpt) (-10) 10 -> -10 <= i <= 5 -> -10 <= j <= 5 ->
  ok128 (cell 5 i j (fun k l s =>
           let '(rrx, rry) := rotate kpt (FD (trunc_c (rotated_position kpt k l))) in
           surf128_accumulate rrx rry s) zero128).
Proof.
  intros H Hi Hj. apply (cell_inv (fun s => ok128 s)); [apply zero128_ok|].
  intros k l s Hk Hl Hs.
  destruct (flat_z0n _ _ _ _ k l H) as [Hx Hy]; [lia..|].
  destruct (rotate_ok _ Hx Hy) as [Hx' Hy'].
  destruct (rotate kpt _) as [rrx rry]. by apply surf128_accumulate_ok.
Qed.

Lemma gauge64_cell_ok pos i j :
  flat trunc_c pos (-10) 10 -> -10 <= i <= 5 -> -10 <= j <= 5 ->
  ok64 (cell 5 i j (fun k l s =>
          let '(lww, lvv) := gauge evolution kpt (trunc_c (pos k l)) in
          add64 lww lvv s) zero64).
Proof.
  intros H Hi Hj. apply (cell_inv (fun s => ok64 s)); [apply zero64_ok|].
  intros k l s Hk Hl Hs.
  destruct (H k l) as [Hx Hy]; [lia..|].
  rewrite (gauge_flat _ Hx Hy). by apply add64_ok.
Qed.

Lemma gsurf128_cell_ok i j :
  flat trunc_c (rotated_position kpt) (-10) 10 -> -10 <= i <= 5 -> -10 <= j <= 5 ->
  ok128 (gsurf128_cell options evolution kpt i j).
Proof.
  intros H Hi Hj. apply (cell_inv (fun s => ok128 s)); [apply zero128_ok|].
  intros k l s Hk Hl Hs. unfold gsurf128_sample.
  destruct (H k l) as [Hx Hy]; [lia..|].
  rewrite (gauge_flat _ Hx Hy). by apply gsurf128_accumulate_ok.
Qed.

Lemma msurf_upright_pair_ok i j k l :
  flat trunc_c (upright_position kpt) (-12) 12 -> -12 <= k < 12 -> -12 <= l < 12 ->
  z0n (fst (msurf_upright_pair options evolution kpt i j k l)) = true /\
  z0n (snd (msurf_upright_pair options evolution kpt i j k l)) = true.
Proof.
  intros H Hk Hl. unfold msurf_upright_pair. cbv zeta.
  destruct (flat_z0n _ _ _ _ k l H) as [Hx Hy]; [lia..|].
  destruct (FD _) as [rx ry]. simpl in *. split; by apply z0n_fmul_r.
Qed.

Lemma msurf_rotated_pair_ok i j k l :
  flat round_c (rotated_position kpt) (-12) 12 -> -12 <= k < 12 -> -12 <= l < 12 ->
  z0n (fst (msurf_rotated_pair options evolution kpt i j k l)) = true /\
  z0n (snd (msurf_rotated_pair options evolution kpt i j k l)) = true.
Proof.
  intros H Hk Hl. unfold msurf_rotated_pair. cbv zeta.
  destruct (flat_z0n _ _ _ _ k l H) as [Hx Hy]; [lia..|].
  destruct (rotate_ok _ Hx Hy) as [Hx' Hy'].
  destruct (rotate kpt _) as [rrx rry]. simpl in *. split; by apply z0n_fmul_r.
Qed.

Lemma msurf64_cell_ok (pair : Z -> Z -> Z -> Z -> float * float) i j :
  (forall k l, -12 <= k < 12 -> -12 <= l < 12 ->
     z0n (fst (pair i j k l)) = true /\ z0n (snd (pair i j k l)) = true) ->
  -12 <= i <= 3 -> -12 <= j <= 3 ->
  ok64 (cell 9 i j (fun k l s => let '(a, b) := pair i j k l in add64 a b s) zero64).
Proof.
  intros H Hi Hj. apply (cell_inv (fun s => ok64 s)); [apply zero64_ok|].
  intros k l s Hk Hl Hs. destruct (H k l) as [Ha Hb]; [lia..|].
  destruct (pair i j k l) as [a b]. by apply add64_ok.
Qed.

Lemma msurf128_cell_ok (pair : Z -> Z -> Z -> Z -> float * float) i j :
  (forall k l, -12 <= k < 12 -> -12 <= l < 12 ->
     z0n (fst (pair i j k l)) = true /\ z0n (snd (pair i j k l)) = true) ->
  -12 <= i <= 3 -> -12 <= j <= 3 ->
  ok128 (cell 9 i j (fun k l s =>
           let '(a, b) := pair i j k l in surf128_accumulate a b s) zero128).
Proof.
  intros H Hi Hj. apply (cell_inv (fun s => ok128 s)); [apply zero128_ok|].
  intros k l s Hk Hl Hs. destruct (H k l) as [Ha Hb]; [lia..|].
  destruct (pair i j k l) as [a b]. by apply surf128_accumulate_ok.
Qed.

Lemma zeros_row (n : nat) :
  length (replicate n fzero) = n /\ Forall Z0N (replicate n fzero).
Proof.
  split; [apply length_replicate|]. apply Forall_replicate. reflexivity.
Qed.

Lemma flat_at_mono crn pos lo hi lo' hi' :
  lo <= lo' -> hi' <= hi -> flat crn pos lo hi -> flat crn pos lo' hi'.
Proof. intros Hlo Hhi H k l Hk Hl. apply H; lia. Qed.

Lemma normalize_grid_undefined {A} (G : A -> Prop) (dsize : Z)
      (cell_of : Z -> Z -> A) (emit : A -> list float) (sq : A -> float) :
  0 <= dsize ->
  (forall a b, 0 <= a < 4 -> 0 <= b < 4 -> G (cell_of (-10 + 5 * a) (-10 + 5 * b))) ->
  (forall s, G s -> Forall Z0N (emit s)) ->
  (forall s, G s -> z0n (sq s) = true) ->
  undefined_row (Z.to_nat dsize)
    (normalize dsize (grid cell_of emit sq (replicate (Z.to_nat dsize) fzero))).
Proof.
  intros Hds Hcell Hemit Hsq.
  destruct (zeros_row (Z.to_nat dsize)) as [Hl Hz].
  destruct (normalize_nan dsize _ Hds (grid_ok G _ _ _ _ _ Hcell Hemit Hsq Hl Hz)).
  by split.
Qed.

Lemma normalize_msurf_grid_undefined {A} (G : A -> Prop) (dsize : Z) cy_step
      (cell_of : Z -> Z -> A) (emit : A -> list float) (sq : A -> float) :
  0 <= dsize ->
  (forall a b, 0 <= a < 4 -> 0 <= b < 4 -> G (cell_of (-12 + 5 * a) (-12 + 5 * b))) ->
  (forall s, G s -> Forall Z0N (emit s)) ->
  (forall s, G s -> z0n (sq s) = true) ->
  exists d,
    option_map (normalize dsize)
      (msurf_grid cy_step cell_of emit sq (replicate (Z.to_nat dsize) fzero)) = Some d /\
    undefined_row (Z.to_nat dsize) d.
Proof.
  intros Hds Hcell Hemit Hsq.
  destruct (zeros_row (Z.to_nat dsize)) as [Hl Hz].
  destruct (msurf_grid_ok G _ cy_step _ _ _ _ Hcell Hemit Hsq Hl Hz) as (st & -> & Hst).
  simpl. eexists. split; [reflexivity|].
  destruct (normalize_nan dsize _ Hds Hst). by split.
Qed.

(** C10.  No extractor guards the division by [len = sqrt(sum of squares)].
    For a keypoint whose sampled first derivatives are all zero, each of the
    eleven extractors, started on a row of zeros, returns a row in which
    every entry is NaN: the quotient of a zero by the zero length. *)
Theorem unguarded_normalisation :
  flat_neighbourhood options evolution kpt ->
  undefined_row 64 (Get_SURF_Upright_Descriptor_64 options evolution kpt (replicate 64 fzero)) /\
  undefined_row 64 (Get_SURF_Descriptor_64 options evolution kpt (replicate 64 fzero)) /\
  undefined_row 128 (Get_SURF_Upright_Descriptor_128 options evolution kpt (replicate 128 fzero)) /\
  undefined_row 128 (Get_SURF_Descriptor_128 options evolution kpt (replicate 128 fzero)) /\
  undefined_row 64 (Get_GSURF_Descriptor_64 options evolution kpt (replicate 64 fzero)) /\
  undefined_row 64 (Get_GSURF_Upright_Descriptor_64 options evolution kpt (replicate 64 fzero)) /\
  undefined_row 128 (Get_GSURF_Descriptor_128 options evolution kpt (replicate 128 fzero)) /\
  (exists d, Get_MSURF_Upright_Descriptor_64 options evolution kpt (replicate 64 fzero) = Some d
             /\ undefined_row 64 d) /\
  (exists d, Get_MSURF_Descriptor_64 options evolution kpt (replicate 64 fzero) = Some d
             /\ undefined_row 64 d) /\
  (exists d, Get_MSURF_Upright_Descriptor_128 options evolution kpt (replicate 128 fzero) = Some d
             /\ undefined_row 128 d) /\
  (exists d, Get_MSURF_Descriptor_128 options evolution kpt (replicate 128 fzero) = Some d
             /\ undefined_row 128 d).
Proof.
  intros (Hup12 & Hgup & Hrot & Hrot12).
  assert (Hup : flat trunc_c (upright_position kpt) (-10) 10)
    by (eapply flat_at_mono; [| |exact Hup12]; lia).
  repeat match goal with |- _ /\ _ => split end.
  - apply (normalize_grid_undefined (fun s => ok64 s) 64); [lia| |apply emit64_ok|apply sq64_ok].
    intros a b Ha Hb. apply plain64_cell_ok; [assumption|lia..].
  - apply (normalize_grid_undefined (fun s => ok64 s) 64); [lia| |apply emit64_ok|apply sq64_ok].
    intros a b Ha Hb. apply rotated64_cell_ok; [assumption|lia..].
  - apply (normalize_grid_undefined (fun s => ok128 s) 128); [lia| |apply emit128_ok|apply sq128_ok].
    intros a b Ha Hb. apply plain128_cell_ok; [assumption|lia..].
  - apply (normalize_grid_undefined (fun s => ok128 s) 128); [lia| |apply emit128_ok|apply sq128_ok].
    intros a b Ha Hb. apply rotated128_cell_ok; [assumption|lia..].
  - apply (normalize_grid_undefined (fun s => ok64 s) 64); [lia| |apply emit64_ok|apply sq64_ok].
    intros a b Ha Hb. apply gauge64_cell_ok; [assumption|lia..].
  - apply (normalize_grid_undefined (fun s => ok64 s) 64); [lia| |apply emit64_ok|apply sq64_ok].
    intros a b Ha Hb. apply gauge64_cell_ok; [assumption|lia..].
  - apply (normalize_grid_undefined (fun s => ok128 s) 128); [lia| |apply emit128_ok|apply sq128_ok].
    intros a b Ha Hb. apply gsurf128_cell_ok; [assumption|lia..].
  - apply (normalize_msurf_grid_undefined (fun s => ok64 s) 64); [lia| |apply emit64_ok|apply sq64_ok].
    intros a b Ha Hb.
    apply (msurf64_cell_ok (msurf_upright_pair options evolution kpt)); [|lia..].
    intros k l Hk Hl. by apply msurf_upright_pair_ok.
  - apply (normalize_msurf_grid_undefined (fun s => ok64 s) 64); [lia| |apply emit64_ok|apply sq64_ok].
    intros a b Ha Hb.
    apply (msurf64_cell_ok (msurf_rotated_pair options evolution kpt)); [|lia..].
    intros k l Hk Hl. by apply msurf_rotated_pair_ok.
  - apply (normalize_msurf_grid_undefined (fun s => ok128 s) 128); [lia| |apply emit128_ok|apply sq128_ok].
    intros a b Ha Hb.
    apply (msurf128_cell_ok (msurf_upright_pair options evolution kpt)); [|lia..].
    intros k l Hk Hl. by apply msurf_upright_pair_ok.
  - apply (normalize_msurf_grid_undefined (fun s => ok128 s) 128); [lia| |apply emit128_ok|apply sq128_ok].
    intros a b Ha Hb.
    apply (msurf128_cell_ok (msurf_rotated_pair options evolution kpt)); [|lia..].
    intros k l Hk Hl. by apply msurf_rotated_pair_ok.
Qed.

End WithExternals.
End Descriptor_facts.

Section Descriptor_claims.
Import IEEE Model Descriptor.
Context {ext : Externals}.
Variable options : KAZEOptions.
Variable evolution : KAZEEvolution.
Variable kpt : KeyPoint.

(** The eight sums after a run of samples, bucket by bucket. *)
Lemma gsurf128_accumulate_fold (samples : list (float * float)) (s : sums128) :
  fold_left (fun s p => gsurf128_accumulate (fst p) (snd p) s) samples s
  = mk128 (fold_left fadd (bucket fst snd true samples) (dxp s))
          (fold_left fadd (bucket fst snd false samples) (dxn s))
          (fold_left fadd (map fabs (bucket fst snd true samples)) (mdxp s))
          (fold_left fadd (map fabs (bucket fst snd false samples)) (mdxn s))
          (fold_left fadd (bucket snd fst true samples) (dyp s))
          (fold_left fadd (bucket snd fst false samples) (dyn s))
          (fold_left fadd (map fabs (bucket snd fst true samples)) (mdyp s))
          (fold_left fadd (map fabs (bucket snd fst false samples)) (mdyn s)).
Proof.
  revert s. induction samples as [|[lww lvv] samples IH]; intros s.
  - by destruct s.
  - cbn [fold_left]. rewrite IH. unfold bucket, gsurf128_accumulate. cbn [List.filter fst snd].
    destruct (dge (to_double lww) dzero), (dge (to_double lvv) dzero); reflexivity.
Qed.

Lemma gsurf128_cell_fold (i j : Z) :
  gsurf128_cell options evolution kpt i j
  = fold_left (fun s p => gsurf128_accumulate (fst p) (snd p) s)
              (gsurf128_cell_samples options evolution kpt i j) zero128.
Proof.
  unfold gsurf128_cell, gsurf128_cell_samples, cell, for_range.
  rewrite fold_left_flat_map.
  replace (i + 5 - i) with 5 by lia. replace (j + 5 - j) with 5 by lia.
  apply fold_left_ext_in. intros k _ acc.
  rewrite fold_left_map.
  apply fold_left_ext_in. intros l _ acc'.
  by destruct (gsurf128_sample options evolution kpt k l).
Qed.

(** C9.  In [Get_GSURF_Descriptor_128] the x-half of a sub-cell
    ([dxp], [dxn], [mdxp], [mdxn]) sums the [lvv] values (and their
    magnitudes) of the samples, split by the test [lww >= 0.0], and the
    y-half ([dyp], [dyn], [mdyp], [mdyn]) sums the [lww] values, split by
    [lvv >= 0.0]; the eight sums are stored in that order.  Sample by
    sample this is the extended SURF accumulation with [lvv] in the place of
    [rx] and [lww] in the place of [ry], whereas the 64-dimensional G-SURF
    adds [lww] to [dx] and [lvv] to [dy]. *)
Theorem gsurf128_sign_bucketing :
  (forall i j,
     let samples := gsurf128_cell_samples options evolution kpt i j in
     emit128 (gsurf128_cell options evolution kpt i j)
     = [ fsum (bucket fst snd true samples);
         fsum (bucket fst snd false samples);
         fsum (map fabs (bucket fst snd true samples));
         fsum (map fabs (bucket fst snd false samples));
         fsum (bucket snd fst true samples);
         fsum (bucket snd fst false samples);
         fsum (map fabs (bucket snd fst true samples));
         fsum (map fabs (bucket snd fst false samples)) ]) /\
  (forall lww lvv s, gsurf128_accumulate lww lvv s = surf128_accumulate lvv lww s) /\
  (forall desc0,
     Get_GSURF_Descriptor_128 options evolution kpt desc0
     = normalize 128 (grid (gsurf128_cell options evolution kpt) emit128 sq128 desc0)).
Proof.
  split; [|split].
  - intros i j. cbv zeta. rewrite gsurf128_cell_fold, gsurf128_accumulate_fold.
    unfold emit128, fsum, zero128. cbn [dxp dxn mdxp mdxn dyp dyn mdyp mdyn]. reflexivity.
  - intros lww lvv s. reflexivity.
  - intros desc0. reflexivity.
Qed.

End Descriptor_claims.

Section Descriptor_examples.
Import IEEE Model Descriptor Reference Examples.

(** C10, witness: the constant level of the examples. *)
Lemma flat_level_descriptors_undefined :
  undefined_row 64
    (Get_SURF_Upright_Descriptor_64 (ext := externals) flat_options flat_evolution
       flat_keypoint (replicate 64 fzero)) /\
  undefined_row 64
    (Get_GSURF_Descriptor_64 (ext := externals) flat_options flat_evolution
       flat_keypoint (replicate 64 fzero)).
Proof.
  assert (Hflat : flat_neighbourhood (ext := externals) flat_options flat_evolution flat_keypoint).
  { unfold flat_neighbourhood.
    repeat match goal with |- _ /\ _ => split end;
      apply flat_atb_correct; vm_compute; reflexivity. }
  destruct (unguarded_normalisation (ext := externals)
              flat_options flat_evolution flat_keypoint Hflat)
    as (Hsurf & _ & _ & _ & Hgsurf & _).
  split; [exact Hsurf|exact Hgsurf].
Defined.

(** With the clipping normalisation on, the row stays undefined. *)
Example flat_level_clipped :
  forallb is_nan
    (Get_SURF_Upright_Descriptor_64 (ext := clipping_externals) flat_options flat_evolution
       flat_keypoint (replicate 64 fzero)) = true
  /\ option_map (forallb is_nan)
       (Get_MSURF_Upright_Descriptor_64 (ext := clipping_externals) flat_options flat_evolution
          flat_keypoint (replicate 64 fzero)) = Some true.
Proof. vm_compute. split; reflexivity. Qed.

(** On a level with structure the two halves of a G-SURF-128 sub-cell
    differ from the 64-dimensional sums, and the row has unit length up to
    rounding. *)
Example bumpy_level_gsurf128_defined :
  forallb (fun v => negb (is_nan v))
    (Get_GSURF_Descriptor_128 (ext := externals) flat_options bumpy_evolution
       flat_keypoint (replicate 128 fzero)) = true.
Proof. vm_compute. reflexivity. Qed.

End Descriptor_examples.

(* ================================================================== *)
(** * The AOS step *)
(* ================================================================== *)
Section AOS_facts.
Import AOS.
Context {F : Type} {ar : Arith F}.

Lemma index_inj (c i j i' j' : Z) :
  0 <= i -> 0 <= i' -> 0 <= j < c -> 0 <= j' < c ->
  Z.to_nat (i * c + j) = Z.to_nat (i' * c + j') -> i = i' /\ j = j'.
Proof.
  intros Hi Hi' Hj Hj' H. assert (H' : i * c + j = i' * c + j') by nia.
  assert (i = i') by nia. subst. lia.
Qed.

Lemma Mat_at_set (m : Mat F) (r c i j i' j' : Z) (v : F) :
  Mat_is r c m -> 0 <= i < r -> 0 <= j < c -> 0 <= i' < r -> 0 <= j' < c ->
  Mat_at (Mat_set m i j v) i' j'
  = if decide (i = i' /\ j = j') then v else Mat_at m i' j'.
Proof.
  intros (Hr & Hc & Hl) Hi Hj Hi' Hj'. unfold Mat_at, Mat_set. simpl. rewrite Hc.
  rewrite !nth_lookup.
  destruct (decide (i = i' /\ j = j')) as [[-> ->]|Hne].
  - rewrite list_lookup_insert_eq; [reflexivity|]. rewrite Hl. nia.
  - rewrite list_lookup_insert_ne; [reflexivity|].
    intros Heq. apply Hne. apply (index_inj c); [lia..|exact Heq].
Qed.

Lemma Mat_set_is (m : Mat F) (r c i j : Z) (v : F) :
  Mat_is r c m -> Mat_is r c (Mat_set m i j v).
Proof.
  intros (Hr & Hc & Hl). unfold Mat_is, Mat_set. simpl.
  by rewrite length_insert.
Qed.

Lemma Mat_zeros_is (r c : Z) : Mat_is r c (Mat_zeros r c).
Proof. unfold Mat_is, Mat_zeros. simpl. by rewrite length_replicate. Qed.

(** Writing [f i j] at each index of a list of in-range indices. *)
Lemma fill_pairs (f : Z -> Z -> F) (r c : Z) (idxs : list (Z * Z)) (m : Mat F) :
  Mat_is r c m ->
  Forall (fun p => 0 <= fst p < r /\ 0 <= snd p < c) idxs ->
  let m' := fold_left (fun m p => Mat_set m (fst p) (snd p) (f (fst p) (snd p))) idxs m in
  Mat_is r c m' /\
  forall i j, 0 <= i < r -> 0 <= j < c ->
    Mat_at m' i j = if decide ((i, j) ∈ idxs) then f i j else Mat_at m i j.
Proof.
  revert m. induction idxs as [|[i0 j0] idxs IH]; intros m Hm Hin; cbv zeta.
  - cbn [fold_left]. split; [assumption|]. intros i j _ _.
    rewrite decide_False; [reflexivity|apply not_elem_of_nil].
  - inversion Hin as [|? ? [Hi0 Hj0] Hin']; subst. simpl in Hi0, Hj0. cbn [fold_left fst snd].
    destruct (IH (Mat_set m i0 j0 (f i0 j0)) (Mat_set_is _ _ _ _ _ _ Hm) Hin') as [Hm' Hat].
    split; [assumption|]. intros i j Hi Hj. rewrite (Hat i j Hi Hj).
    rewrite (Mat_at_set m r c) by assumption.
    destruct (decide ((i, j) ∈ idxs)) as [H|H].
    + rewrite decide_True; [reflexivity|]. by constructor.
    + destruct (decide (i0 = i /\ j0 = j)) as [[-> ->]|Hne].
      * rewrite decide_True; [reflexivity|]. constructor.
      * rewrite decide_False; [reflexivity|].
        intros Hin2. apply elem_of_cons in Hin2 as [Heq|Hin2]; [|contradiction].
        inversion Heq; subst. by apply Hne.
Qed.

(** The row-major and the column-major double loop that write [f i j]. *)
Lemma fill_rows (f : Z -> Z -> F) (r c i0 i1 j0 j1 : Z) (m : Mat F) :
  Mat_is r c m -> 0 <= i0 -> i1 <= r -> 0 <= j0 -> j1 <= c ->
  let m' := for_range i0 i1 (fun i m =>
              for_range j0 j1 (fun j m => Mat_set m i j (f i j)) m) m in
  Mat_is r c m' /\
  forall i j, 0 <= i < r -> 0 <= j < c ->
    Mat_at m' i j = if decide (i0 <= i < i1 /\ j0 <= j < j1) then f i j else Mat_at m i j.
Proof.
  intros Hm Hi0 Hi1 Hj0 Hj1. cbv zeta.
  set (idxs := flat_map (fun i => map (fun j => (i, j)) (seqZ j0 (j1 - j0))) (seqZ i0 (i1 - i0))).
  assert (Heq : for_range i0 i1 (fun i m =>
                  for_range j0 j1 (fun j m => Mat_set m i j (f i j)) m) m
                = fold_left (fun m p => Mat_set m (fst p) (snd p) (f (fst p) (snd p))) idxs m).
  { unfold for_range, idxs. rewrite fold_left_flat_map.
    apply fold_left_ext_in. intros i _ acc. by rewrite fold_left_map. }
  rewrite Heq.
  assert (Hmem : forall i j, (i, j) ∈ idxs <-> i0 <= i < i1 /\ j0 <= j < j1).
  { intros i j. unfold idxs. rewrite list_elem_of_In, in_flat_map. split.
    - intros (i' & Hi' & Hj'). apply in_map_iff in Hj' as (j' & Hp & Hj').
      inversion Hp; subst. apply list_elem_of_In, elem_of_seqZ in Hi', Hj'. lia.
    - intros [Hi Hj]. exists i. split; [apply list_elem_of_In, elem_of_seqZ; lia|].
      apply in_map_iff. exists j. split; [reflexivity|].
      apply list_elem_of_In, elem_of_seqZ; lia. }
  destruct (fill_pairs f r c idxs m Hm) as [Hm' Hat].
  { apply Forall_forall. intros [i j] Hp. apply Hmem in Hp. simpl. lia. }
  split; [assumption|]. intros i j Hi Hj. rewrite (Hat i j Hi Hj).
  destruct (decide ((i, j) ∈ idxs)) as [H|H]; apply Hmem in H ||
    (assert (~ (i0 <= i < i1 /\ j0 <= j < j1)) by (intros H'; by apply H, Hmem)).
  - by rewrite decide_True.
  - by rewrite decide_False.
Qed.

Lemma fill_cols (f : Z -> Z -> F) (r c i0 i1 j0 j1 : Z) (m : Mat F) :
  Mat_is r c m -> 0 <= i0 -> i1 <= r -> 0 <= j0 -> j1 <= c ->
  let m' := for_range j0 j1 (fun j m =>
              for_range i0 i1 (fun i m => Mat_set m i j (f i j)) m) m in
  Mat_is r c m' /\
  forall i j, 0 <= i < r -> 0 <= j < c ->
    Mat_at m' i j = if decide (i0 <= i < i1 /\ j0 <= j < j1) then f i j else Mat_at m i j.
Proof.
  intros Hm Hi0 Hi1 Hj0 Hj1. cbv zeta.
  set (idxs := flat_map (fun j => map (fun i => (i, j)) (seqZ i0 (i1 - i0))) (seqZ j0 (j1 - j0))).
  assert (Heq : for_range j0 j1 (fun j m =>
                  for_range i0 i1 (fun i m => Mat_set m i j (f i j)) m) m
                = fold_left (fun m p => Mat_set m (fst p) (snd p) (f (fst p) (snd p))) idxs m).
  { unfold for_range, idxs. rewrite fold_left_flat_map.
    apply fold_left_ext_in. intros j _ acc. by rewrite fold_left_map. }
  rewrite Heq.
  assert (Hmem : forall i j, (i, j) ∈ idxs <-> i0 <= i < i1 /\ j0 <= j < j1).
  { intros i j. unfold idxs. rewrite list_elem_of_In, in_flat_map. split.
    - intros (j' & Hj' & Hi'). apply in_map_iff in Hi' as (i' & Hp & Hi').
      inversion Hp; subst. apply list_elem_of_In, elem_of_seqZ in Hi', Hj'. lia.
    - intros [Hi Hj]. exists j. split; [apply list_elem_of_In, elem_of_seqZ; lia|].
      apply in_map_iff. exists i. split; [reflexivity|].
      apply list_elem_of_In, elem_of_seqZ; lia. }
  destruct (fill_pairs f r c idxs m Hm) as [Hm' Hat].
  { apply Forall_forall. intros [i j] Hp. apply Hmem in Hp. simpl. lia. }
  split; [assumption|]. intros i j Hi Hj. rewrite (Hat i j Hi Hj).
  destruct (decide ((i, j) ∈ idxs)) as [H|H]; apply Hmem in H ||
    (assert (~ (i0 <= i < i1 /\ j0 <= j < j1)) by (intros H'; by apply H, Hmem)).
  - by rewrite decide_True.
  - by rewrite decide_False.
Qed.

(** A single loop along a row or along a column. *)
Lemma fill_row (f : Z -> F) (r c i : Z) (m : Mat F) :
  Mat_is r c m -> 0 <= i < r ->
  let m' := for_range 0 c (fun j m => Mat_set m i j (f j)) m in
  Mat_is r c m' /\
  forall i' j, 0 <= i' < r -> 0 <= j < c ->
    Mat_at m' i' j = if decide (i' = i) then f j else Mat_at m i' j.
Proof.
  intros Hm Hi. cbv zeta.
  destruct (fill_rows (fun _ j => f j) r c i (i + 1) 0 c m Hm) as [Hm' Hat]; try lia.
  assert (Heq : for_range i (i + 1) (fun i0 m0 =>
                  for_range 0 c (fun j m1 => Mat_set m1 i0 j (f j)) m0) m
                = for_range 0 c (fun j m => Mat_set m i j (f j)) m).
  { unfold for_range at 1. replace (i + 1 - i) with 1 by lia. reflexivity. }
  rewrite Heq in Hm', Hat. split; [assumption|].
  intros i' j Hi' Hj. rewrite (Hat i' j Hi' Hj).
  destruct (decide (i' = i)) as [->|Hne].
  - rewrite decide_True; [reflexivity|lia].
  - rewrite decide_False; [reflexivity|lia].
Qed.

Lemma fill_col (f : Z -> F) (r c j : Z) (m : Mat F) :
  Mat_is r c m -> 0 <= j < c ->
  let m' := for_range 0 r (fun i m => Mat_set m i j (f i)) m in
  Mat_is r c m' /\
  forall i j', 0 <= i < r -> 0 <= j' < c ->
    Mat_at m' i j' = if decide (j' = j) then f i else Mat_at m i j'.
Proof.
  intros Hm Hj. cbv zeta.
  destruct (fill_cols (fun i _ => f i) r c 0 r j (j + 1) m Hm) as [Hm' Hat]; try lia.
  assert (Heq : for_range j (j + 1) (fun j0 m0 =>
                  for_range 0 r (fun i m1 => Mat_set m1 i j0 (f i)) m0) m
                = for_range 0 r (fun i m => Mat_set m i j (f i)) m).
  { unfold for_range at 1. replace (j + 1 - j) with 1 by lia. reflexivity. }
  rewrite Heq in Hm', Hat. split; [assumption|].
  intros i j' Hi Hj'. rewrite (Hat i j' Hi Hj').
  destruct (decide (j' = j)) as [->|Hne].
  - rewrite decide_True; [reflexivity|lia].
  - rewrite decide_False; [reflexivity|lia].
Qed.

Lemma Mat_at_map (f : F -> F) (m : Mat F) (r c i j : Z) :
  Mat_is r c m -> 0 <= i < r -> 0 <= j < c ->
  Mat_at (Mat_map f m) i j = f (Mat_at m i j).
Proof.
  intros (Hr & Hc & Hl) Hi Hj. unfold Mat_at, Mat_map. simpl.
  rewrite Hc. rewrite (nth_indep _ azero (f azero)) by (rewrite length_map, Hl; nia).
  apply map_nth.
Qed.

Lemma Mat_map_is (f : F -> F) (m : Mat F) (r c : Z) :
  Mat_is r c m -> Mat_is r c (Mat_map f m).
Proof. intros (Hr & Hc & Hl). unfold Mat_is, Mat_map. simpl. by rewrite length_map. Qed.

Lemma Mat_t_is (m : Mat F) (r c : Z) :
  0 <= r -> 0 <= c -> Mat_is r c m -> Mat_is c r (Mat_t m).
Proof.
  intros H0r H0c (Hr & Hc & Hl). unfold Mat_is, Mat_t. simpl.
  rewrite length_map, length_seqZ, Hr, Hc. auto.
Qed.

Lemma Mat_at_t (m : Mat F) (r c i j : Z) :
  Mat_is r c m -> 0 <= i < c -> 0 <= j < r ->
  Mat_at (Mat_t m) i j = Mat_at m j i.
Proof.
  intros (Hr & Hc & Hl) Hi Hj. unfold Mat_t. unfold Mat_at at 1. simpl.
  rewrite Hr, Hc.
  rewrite (nth_indep _ azero (Mat_at m (0 mod r) (0 / r)))
    by (rewrite length_map, length_seqZ; nia).
  rewrite (map_nth (fun idx => Mat_at m (idx mod r) (idx / r))).
  rewrite nth_seqZ by nia. rewrite Z2Nat.id, Z.add_0_l by nia.
  f_equal.
  - rewrite Z.add_comm, Z.mod_add by lia. apply Z.mod_small. lia.
  - rewrite Z.add_comm, Z.div_add by lia. rewrite Z.div_small by lia. lia.
Qed.

Lemma Mat_at_add (a b : Mat F) (r c i j : Z) :
  Mat_is r c a -> Mat_is r c b -> 0 <= i < r -> 0 <= j < c ->
  Mat_at (Mat_add a b) i j = aadd (Mat_at a i j) (Mat_at b i j).
Proof.
  intros (Hra & Hca & Hla) (Hrb & Hcb & Hlb) Hi Hj. unfold Mat_at, Mat_add. simpl.
  rewrite Hca, Hcb. rewrite !nth_lookup, lookup_zip_with.
  destruct (lookup_lt_is_Some_2 (data a) (Z.to_nat (i * c + j))) as [x ->]; [rewrite Hla; nia|].
  destruct (lookup_lt_is_Some_2 (data b) (Z.to_nat (i * c + j))) as [y ->]; [rewrite Hlb; nia|].
  reflexivity.
Qed.

Lemma Mat_add_is (a b : Mat F) (r c : Z) :
  Mat_is r c a -> Mat_is r c b -> Mat_is r c (Mat_add a b).
Proof.
  intros (Hra & Hca & Hla) (Hrb & Hcb & Hlb). unfold Mat_is, Mat_add. simpl.
  rewrite length_zip_with, Hla, Hlb. repeat split; auto. lia.
Qed.

(** [Thomas] writes into [x] without changing its shape. *)
Lemma Thomas_is (a b Ld x : Mat F) (r c : Z) :
  Mat_is r c x -> Mat_is r c (Thomas a b Ld x).
Proof.
  intros Hx. unfold Thomas.
  destruct (for_range 1 (rows a) _ _) as [[l m] y].
  unfold for_range_down. apply fold_left_inv.
  - apply for_range_inv; [assumption|]. intros j acc _ Hacc. by apply Mat_set_is.
  - intros i acc _ Hacc.
    assert (Hcols : cols acc = c) by apply Hacc. rewrite Hcols.
    apply for_range_inv; [assumption|]. intros j acc' _ Hacc'. by apply Mat_set_is.
Qed.

Section Step.
Variables (H W : Z) (Ldprev c : Mat F) (stepsize : F) (st : Scratch F).
Hypothesis H_ge_2 : 2 <= H.
Hypothesis W_ge_2 : 2 <= W.
Hypothesis st_is : Scratch_is H W st.

Local Abbreviation rw := (AOS_Rows Ldprev c stepsize st).
Local Abbreviation cl := (AOS_Columns Ldprev c stepsize rw).

Lemma AOS_Rows_frame :
  Ltx rw = Ltx st /\ px rw = px st /\ qc rw = qc st /\ Mat_is H W (Lty rw).
Proof.
  destruct st_is as (HLtx & HLty & Hpx & Hpy & Hqr & Hqc).
  split; [reflexivity|]. split; [reflexivity|]. split; [reflexivity|].
  apply (Thomas_is _ _ _ _ H W HLty).
Qed.

Lemma AOS_Rows_qr i j :
  0 <= i < H - 1 -> 0 <= j < W ->
  Mat_is (H - 1) W (qr rw) /\
  Mat_at (qr rw) i j = aadd (Mat_at c i j) (Mat_at c (i + 1) j).
Proof.
  intros Hi Hj. destruct st_is as (HLtx & HLty & Hpx & Hpy & Hqr & Hqc).
  cbn [AOS_Rows qr]. destruct Hqr as (Hr & Hc & Hl). rewrite Hr, Hc.
  destruct (fill_rows (fun i j => aadd (Mat_at c i j) (Mat_at c (i + 1) j))
              (H - 1) W 0 (H - 1) 0 W (qr st)) as [Hm Hat]; try lia; [by repeat split|].
  split; [assumption|]. rewrite (Hat i j) by lia. by rewrite decide_True by lia.
Qed.

Lemma AOS_Rows_py i j :
  0 <= i < H -> 0 <= j < W ->
  Mat_is H W (py rw) /\
  Mat_at (py rw) i j =
    if decide (1 <= i < H - 1) then aadd (Mat_at (qr rw) (i - 1) j) (Mat_at (qr rw) i j)
    else if decide (i = H - 1) then Mat_at (qr rw) (H - 2) j
    else Mat_at (qr rw) 0 j.
Proof.
  intros Hi Hj. destruct st_is as (HLtx & HLty & Hpx & Hpy & Hqr & Hqc).
  destruct (AOS_Rows_qr 0 0) as [(Hqr1 & Hqc1 & _) _]; [lia..|].
  cbn [AOS_Rows py qr] in *.
  set (qr1 := for_range 0 (rows (qr st)) _ (qr st)) in *.
  destruct Hpy as (Hr & Hc & Hl). rewrite Hc.
  destruct (fill_row (fun j => Mat_at qr1 0 j) H W 0 (py st)) as [Hm1 Hat1];
    [by repeat split|lia|].
  set (py1 := for_range 0 W _ (py st)) in *.
  assert (Hc1 : cols py1 = W) by apply Hm1. assert (Hr1 : rows py1 = H) by apply Hm1.
  rewrite Hc1, Hr1, Hqr1.
  destruct (fill_row (fun j => Mat_at qr1 (H - 1 - 1) j) H W (H - 1) py1) as [Hm2 Hat2];
    [assumption|lia|].
  set (py2 := for_range 0 W _ py1) in *.
  assert (Hc2 : cols py2 = W) by apply Hm2. assert (Hr2 : rows py2 = H) by apply Hm2.
  rewrite Hc2, Hr2.
  destruct (fill_rows (fun i j => aadd (Mat_at qr1 (i - 1) j) (Mat_at qr1 i j))
              H W 1 (H - 1) 0 W py2) as [Hm3 Hat3]; try lia; [assumption|].
  split; [assumption|]. rewrite (Hat3 i j) by lia.
  destruct (decide (1 <= i < H - 1)) as [Hmid|Hmid].
  - by rewrite decide_True by lia.
  - rewrite decide_False by lia. rewrite (Hat2 i j) by lia.
    destruct (decide (i = H - 1)) as [->|Hbot].
    + by replace (H - 1 - 1) with (H - 2) by lia.
    + rewrite (Hat1 i j) by lia. by rewrite decide_True by lia.
Qed.

Lemma AOS_Columns_frame :
  Lty cl = Lty rw /\ qr cl = qr rw /\ py cl = py rw /\ Mat_is W H (Ltx cl).
Proof.
  destruct st_is as (HLtx & HLty & Hpx & Hpy & Hqr & Hqc).
  split; [reflexivity|]. split; [reflexivity|]. split; [reflexivity|].
  apply (Thomas_is _ _ _ _ W H). exact HLtx.
Qed.

Lemma AOS_Columns_qc i j :
  0 <= i < H -> 0 <= j < W - 1 ->
  Mat_is H (W - 1) (qc cl) /\
  Mat_at (qc cl) i j = aadd (Mat_at c i j) (Mat_at c i (j + 1)).
Proof.
  intros Hi Hj. destruct st_is as (HLtx & HLty & Hpx & Hpy & Hqr & Hqc).
  cbn [AOS_Columns AOS_Rows qc]. destruct Hqc as (Hr & Hc & Hl). rewrite Hr, Hc.
  destruct (fill_cols (fun i j => aadd (Mat_at c i j) (Mat_at c i (j + 1)))
              H (W - 1) 0 H 0 (W - 1) (qc st)) as [Hm Hat]; try lia; [by repeat split|].
  split; [assumption|]. rewrite (Hat i j) by lia. by rewrite decide_True by lia.
Qed.

Lemma AOS_Columns_px i j :
  0 <= i < H -> 0 <= j < W ->
  Mat_is H W (px cl) /\
  Mat_at (px cl) i j =
    if decide (1 <= j < W - 1) then aadd (Mat_at (qc cl) i (j - 1)) (Mat_at (qc cl) i j)
    else if decide (j = W - 1) then Mat_at (qc cl) i (W - 2)
    else Mat_at (qc cl) i 0.
Proof.
  intros Hi Hj. destruct st_is as (HLtx & HLty & Hpx & Hpy & Hqr & Hqc).
  destruct (AOS_Columns_qc 0 0) as [(Hqr1 & Hqc1 & _) _]; [lia..|].
  cbn [AOS_Columns AOS_Rows px qc] in *.
  set (qc1 := for_range 0 (cols (qc st)) _ (qc st)) in *.
  destruct Hpx as (Hr & Hc & Hl). rewrite Hr.
  destruct (fill_col (fun i => Mat_at qc1 i 0) H W 0 (px st)) as [Hm1 Hat1];
    [by repeat split|lia|].
  set (px1 := for_range 0 H _ (px st)) in *.
  assert (Hc1 : cols px1 = W) by apply Hm1. assert (Hr1 : rows px1 = H) by apply Hm1.
  rewrite Hc1, Hr1, Hqc1.
  destruct (fill_col (fun i => Mat_at qc1 i (W - 1 - 1)) H W (W - 1) px1) as [Hm2 Hat2];
    [assumption|lia|].
  set (px2 := for_range 0 H _ px1) in *.
  assert (Hc2 : cols px2 = W) by apply Hm2. assert (Hr2 : rows px2 = H) by apply Hm2.
  rewrite Hc2, Hr2.
  destruct (fill_cols (fun i j => aadd (Mat_at qc1 i (j - 1)) (Mat_at qc1 i j))
              H W 0 H 1 (W - 1) px2) as [Hm3 Hat3]; try lia; [assumption|].
  split; [assumption|]. rewrite (Hat3 i j) by lia.
  destruct (decide (1 <= j < W - 1)) as [Hmid|Hmid].
  - by rewrite decide_True by lia.
  - rewrite decide_False by lia. rewrite (Hat2 i j) by lia.
    destruct (decide (j = W - 1)) as [->|Hbot].
    + by replace (W - 1 - 1) with (W - 2) by lia.
    + rewrite (Hat1 i j) by lia. by rewrite decide_True by lia.
Qed.

End Step.
End AOS_facts.
(* ================================================================== *)
(** * The Thomas algorithm *)
(* ================================================================== *)
Section Thomas_facts.
Import AOS.
Context {F : Type} {ar : Arith F}.

(** Induction along a loop that counts down. *)
Lemma for_range_down_ind {St} (P : Z -> St -> Prop) lo hi (body : Z -> St -> St) s :
  lo <= hi -> P hi s ->
  (forall i acc, lo <= i < hi -> P (i + 1) acc -> P i (body i acc)) ->
  P lo (for_range_down lo hi body s).
Proof.
  intros Hle H0 Hstep. unfold for_range_down.
  remember (Z.to_nat (hi - lo)) as n eqn:Hn.
  replace (hi - lo) with (Z.of_nat n) by lia.
  assert (Hhi : hi = lo + Z.of_nat n) by lia. clear Hn Hle.
  revert hi s Hhi H0 Hstep. induction n as [|n IH]; intros hi s Hhi H0 Hstep.
  - simpl. by replace lo with hi by lia.
  - rewrite seqZ_S, rev_app_distr. simpl.
    apply (IH (lo + Z.of_nat n)); [reflexivity| |].
    + apply Hstep; [lia|]. by replace (lo + Z.of_nat n + 1) with hi by lia.
    + intros i acc Hi. apply Hstep. lia.
Qed.

(** Writing row [i] from values that read row [i0] of the matrix being
    written, [i0] another row. *)
Lemma fill_row_reading (g : Z -> F -> F) (r c i i0 : Z) (m : Mat F) :
  Mat_is r c m -> 0 <= i < r -> 0 <= i0 < r -> i0 <> i -> 0 <= c ->
  let m' := for_range 0 c (fun j acc => Mat_set acc i j (g j (Mat_at acc i0 j))) m in
  Mat_is r c m' /\
  forall i' j, 0 <= i' < r -> 0 <= j < c ->
    Mat_at m' i' j = if decide (i' = i) then g j (Mat_at m i0 j) else Mat_at m i' j.
Proof.
  intros Hm Hi Hi0 Hne Hc. cbv zeta.
  pose (P := fun (n : Z) (acc : Mat F) =>
    Mat_is r c acc /\
    forall i' j, 0 <= i' < r -> 0 <= j < c ->
      Mat_at acc i' j = if decide (i' = i /\ j < n) then g j (Mat_at m i0 j)
                        else Mat_at m i' j).
  assert (HP : P c (for_range 0 c (fun j acc => Mat_set acc i j (g j (Mat_at acc i0 j))) m)).
  { apply (for_range_ind P); [lia| |].
    - split; [assumption|]. intros i' j Hi' Hj. rewrite decide_False by lia. reflexivity.
    - intros j acc Hj [Hacc Hat]. split; [by apply Mat_set_is|].
      intros i' j' Hi' Hj'.
      rewrite (Mat_at_set acc r c) by (assumption || lia).
      rewrite (Hat i0 j) by lia. rewrite (decide_False (P := i0 = i /\ j < j)) by lia.
      destruct (decide (i = i' /\ j = j')) as [[<- <-]|Hn].
      + rewrite decide_True by lia. reflexivity.
      + rewrite (Hat i' j') by lia.
        destruct (decide (i' = i /\ j' < j)) as [Ht|Hf].
        * rewrite decide_True by lia. reflexivity.
        * rewrite decide_False by lia. reflexivity. }
  destruct HP as [Hm' Hat]. split; [assumption|].
  intros i' j Hi' Hj. rewrite (Hat i' j) by lia.
  destruct (decide (i' = i)) as [->|Hn].
  - rewrite decide_True by lia. reflexivity.
  - rewrite decide_False by lia. reflexivity.
Qed.

(** What [Thomas] computes, entry by entry: the pivots [m] and the
    forward-substituted right-hand side [y] of the elimination (with the
    multiplier [l[k-1] = b[k-1] / m[k-1]]), and the back substitution
    that fills [x] from its last row up. *)
Lemma Thomas_recurrences (n W : Z) (a b Ld x : Mat F) :
  1 <= n -> 0 <= W ->
  Mat_is n W a -> Mat_is (n - 1) W b -> Mat_is n W Ld -> Mat_is n W x ->
  exists m y : Mat F,
    (forall j, 0 <= j < W -> Mat_at m 0 j = Mat_at a 0 j /\ Mat_at y 0 j = Mat_at Ld 0 j) /\
    (forall k j, 1 <= k < n -> 0 <= j < W ->
       Mat_at m k j
       = asub (Mat_at a k j)
              (amul (adiv (Mat_at b (k - 1) j) (Mat_at m (k - 1) j)) (Mat_at b (k - 1) j)) /\
       Mat_at y k j
       = asub (Mat_at Ld k j)
              (amul (adiv (Mat_at b (k - 1) j) (Mat_at m (k - 1) j)) (Mat_at y (k - 1) j))) /\
    Mat_is n W (Thomas a b Ld x) /\
    (forall j, 0 <= j < W ->
       Mat_at (Thomas a b Ld x) (n - 1) j = adiv (Mat_at y (n - 1) j) (Mat_at m (n - 1) j)) /\
    (forall i j, 0 <= i < n - 1 -> 0 <= j < W ->
       Mat_at (Thomas a b Ld x) i j
       = adiv (asub (Mat_at y i j) (amul (Mat_at b i j) (Mat_at (Thomas a b Ld x) (i + 1) j)))
              (Mat_at m i j)).
Proof.
  intros Hn HW Ha Hb HLd Hx.
  pose proof Ha as (Hra & Hca & _). pose proof Hb as (Hrb & Hcb & _).
  pose proof HLd as (HrL & HcL & _).
  unfold Thomas. rewrite Hra, Hca, Hrb, Hcb, HrL, HcL.
  change (cols (Mat_zeros n W)) with W.
  destruct (fill_row (fun j => Mat_at a 0 j) n W 0 (Mat_zeros n W) (Mat_zeros_is n W))
    as [Hm0 Hm0at]; [lia|].
  destruct (fill_row (fun j => Mat_at Ld 0 j) n W 0 (Mat_zeros n W) (Mat_zeros_is n W))
    as [Hy0 Hy0at]; [lia|].
  set (m0 := for_range 0 W (fun j m => Mat_set m 0 j (Mat_at a 0 j)) (Mat_zeros n W)) in *.
  set (y0 := for_range 0 W (fun j y => Mat_set y 0 j (Mat_at Ld 0 j)) (Mat_zeros n W)) in *.
  pose (Q := fun (k : Z) (s : Mat F * Mat F * Mat F) =>
    let '(l, m, y) := s in
    Mat_is (n - 1) W l /\ Mat_is n W m /\ Mat_is n W y /\
    (forall j, 0 <= j < W -> Mat_at m 0 j = Mat_at a 0 j /\ Mat_at y 0 j = Mat_at Ld 0 j) /\
    (forall k' j, 1 <= k' < k -> 0 <= j < W ->
       Mat_at m k' j
       = asub (Mat_at a k' j)
              (amul (adiv (Mat_at b (k' - 1) j) (Mat_at m (k' - 1) j)) (Mat_at b (k' - 1) j)) /\
       Mat_at y k' j
       = asub (Mat_at Ld k' j)
              (amul (adiv (Mat_at b (k' - 1) j) (Mat_at m (k' - 1) j)) (Mat_at y (k' - 1) j)))).
  match goal with |- context [for_range 1 n ?body ?init] =>
    assert (HQ : Q n (for_range 1 n body init)) end.
  { apply (for_range_ind Q); [lia| |].
    - unfold Q. split; [apply Mat_zeros_is|]. split; [assumption|]. split; [assumption|].
      split.
      + intros j Hj. rewrite (Hm0at 0 j), (Hy0at 0 j) by lia.
        rewrite !decide_True by reflexivity. by split.
      + intros k' j Hk'. lia.
    - intros k [[l m] y] Hk (Hl & Hm & Hy & Hrow0 & Hrec).
      pose proof Hl as (_ & Hcl & _). pose proof Hm as (_ & Hcm & _).
      pose proof Hy as (_ & Hcy & _).
      unfold Q. rewrite Hcl, Hcm, Hcy.
      destruct (fill_row (fun j => adiv (Mat_at b (k - 1) j) (Mat_at m (k - 1) j))
                  (n - 1) W (k - 1) l Hl) as [Hl' Hl'at]; [lia|].
      set (l' := for_range 0 W _ l) in *.
      destruct (fill_row (fun j => asub (Mat_at a k j)
                                        (amul (Mat_at l' (k - 1) j) (Mat_at b (k - 1) j)))
                  n W k m Hm) as [Hm' Hm'at]; [lia|].
      set (m' := for_range 0 W _ m) in *.
      destruct (fill_row_reading
                  (fun j v => asub (Mat_at Ld k j) (amul (Mat_at l' (k - 1) j) v))
                  n W k (k - 1) y Hy) as [Hy' Hy'at]; [lia..|].
      set (y' := for_range 0 W _ y) in *.
      split; [assumption|]. split; [assumption|]. split; [assumption|]. split.
      + intros j Hj. rewrite (Hm'at 0 j), (Hy'at 0 j) by lia.
        rewrite !decide_False by lia. by apply Hrow0.
      + intros k' j Hk' Hj.
        rewrite (Hm'at k' j), (Hy'at k' j), (Hm'at (k' - 1) j), (Hy'at (k' - 1) j) by lia.
        rewrite !(decide_False (P := k' - 1 = k)) by lia.
        destruct (decide (k' = k)) as [->|Hne].
        * rewrite (Hl'at (k - 1) j) by lia. rewrite decide_True by reflexivity. by split.
        * apply Hrec; lia. }
  destruct (for_range 1 n _ _) as [[l m] y].
  destruct HQ as (Hl & Hm & Hy & Hrow0 & Hrec).
  pose proof Hy as (_ & Hcy & _). rewrite Hcy.
  exists m, y. split; [assumption|]. split; [assumption|].
  destruct (fill_row (fun j => adiv (Mat_at y (n - 1) j) (Mat_at m (n - 1) j))
              n W (n - 1) x Hx) as [Hx0 Hx0at]; [lia|].
  set (x0 := for_range 0 W _ x) in *.
  pose (R := fun (i : Z) (acc : Mat F) =>
    Mat_is n W acc /\
    (forall j, 0 <= j < W ->
       Mat_at acc (n - 1) j = adiv (Mat_at y (n - 1) j) (Mat_at m (n - 1) j)) /\
    (forall i' j, i <= i' < n - 1 -> 0 <= j < W ->
       Mat_at acc i' j
       = adiv (asub (Mat_at y i' j) (amul (Mat_at b i' j) (Mat_at acc (i' + 1) j)))
              (Mat_at m i' j))).
  match goal with |- context [for_range_down 0 (n - 1) ?body x0] =>
    assert (HR : R 0 (for_range_down 0 (n - 1) body x0)) end.
  { apply (for_range_down_ind R); [lia| |].
    - split; [assumption|]. split.
      + intros j Hj. rewrite (Hx0at (n - 1) j) by lia. by rewrite decide_True.
      + intros i' j Hi'. lia.
    - intros i acc Hi (Hacc & Hlast & Hback).
      pose proof Hacc as (_ & Hca' & _). rewrite Hca'.
      destruct (fill_row_reading
                  (fun j v => adiv (asub (Mat_at y i j) (amul (Mat_at b i j) v)) (Mat_at m i j))
                  n W i (i + 1) acc Hacc) as [Hacc' Hacc'at]; [lia..|].
      set (acc' := for_range 0 W _ acc) in *.
      split; [assumption|]. split.
      + intros j Hj. rewrite (Hacc'at (n - 1) j) by lia. rewrite decide_False by lia.
        by apply Hlast.
      + intros i' j Hi' Hj.
        rewrite (Hacc'at i' j), (Hacc'at (i' + 1) j) by lia.
        rewrite (decide_False (P := i' + 1 = i)) by lia.
        destruct (decide (i' = i)) as [->|Hne]; [reflexivity|].
        apply Hback; lia. }
  destruct HR as (HxR & Hlast & Hback).
  split; [assumption|]. split; [assumption|].
  intros i j Hi Hj. apply Hback; lia.
Qed.

End Thomas_facts.
Section AOS_claims.
Import AOS.
Context {F : Type} {ar : Arith F}.

(** Two matrices of one shape with the same elements are the same. *)
Lemma Mat_ext (a b : Mat F) (r c : Z) :
  0 <= r -> 0 <= c -> Mat_is r c a -> Mat_is r c b ->
  (forall i j, 0 <= i < r -> 0 <= j < c -> Mat_at a i j = Mat_at b i j) -> a = b.
Proof.
  intros H0r H0c (Hra & Hca & Hla) (Hrb & Hcb & Hlb) Hat.
  destruct a as [ra ca da], b as [rb cb db]; simpl in *. subst.
  f_equal. apply (nth_ext _ _ azero azero); [lia|].
  intros n Hn. rewrite Hla in Hn.
  assert (Hc : 0 < c) by nia.
  specialize (Hat (Z.of_nat n / c) (Z.of_nat n mod c)).
  unfold Mat_at in Hat. simpl in Hat.
  replace (Z.of_nat n / c * c + Z.of_nat n mod c) with (Z.of_nat n) in Hat
    by (rewrite (Z.div_mod (Z.of_nat n) c) at 1 by lia; ring).
  rewrite Nat2Z.id in Hat. apply Hat.
  - split; [apply Z.div_pos; lia|]. apply Z.div_lt_upper_bound; nia.
  - apply Z.mod_pos_bound. lia.
Qed.

(** The column pass builds the matrices the row pass builds on the
    transposed conductivity. *)
Lemma AOS_Columns_transposed (H W : Z) (Ldprev c : Mat F) (stepsize : F)
    (st stT : Scratch F) :
  2 <= H -> 2 <= W -> Mat_is H W c -> Scratch_is H W st -> Scratch_is W H stT ->
  let cl := AOS_Columns Ldprev c stepsize (AOS_Rows Ldprev c stepsize st) in
  let rwT := AOS_Rows (Mat_t Ldprev) (Mat_t c) stepsize stT in
  Mat_t (qc cl) = qr rwT /\ Mat_t (px cl) = py rwT.
Proof.
  intros HH HW Hc Hst HstT cl rwT.
  assert (Hqr : Mat_t (qc cl) = qr rwT).
  { apply (Mat_ext _ _ (W - 1) H); try lia.
    - apply Mat_t_is; try lia.
      apply (AOS_Columns_qc H W Ldprev c stepsize st Hst 0 0); lia.
    - apply (AOS_Rows_qr W H (Mat_t Ldprev) (Mat_t c) stepsize stT HstT 0 0); lia.
    - intros j i Hj Hi.
      destruct (AOS_Columns_qc H W Ldprev c stepsize st Hst i j) as [Hm Hat]; try lia.
      destruct (AOS_Rows_qr W H (Mat_t Ldprev) (Mat_t c) stepsize stT HstT j i)
        as [Hm' Hat']; try lia.
      rewrite (Mat_at_t _ H (W - 1)) by (assumption || lia).
      fold cl in Hat. fold rwT in Hat'. rewrite Hat, Hat'.
      by rewrite !(Mat_at_t c H W) by (assumption || lia). }
  split; [exact Hqr|].
  apply (Mat_ext _ _ W H); try lia.
  - apply Mat_t_is; try lia.
    apply (AOS_Columns_px H W Ldprev c stepsize st HH HW Hst 0 0); lia.
  - apply (AOS_Rows_py W H (Mat_t Ldprev) (Mat_t c) stepsize stT HW HH HstT 0 0); lia.
  - intros j i Hj Hi.
    destruct (AOS_Columns_px H W Ldprev c stepsize st HH HW Hst i j) as [Hm Hat]; try lia.
    destruct (AOS_Columns_qc H W Ldprev c stepsize st Hst 0 0) as [Hmq _]; try lia.
    destruct (AOS_Rows_py W H (Mat_t Ldprev) (Mat_t c) stepsize stT HW HH HstT j i)
      as [Hm' Hat']; try lia.
    rewrite (Mat_at_t _ H W) by (assumption || lia).
    fold cl in Hat, Hmq. fold rwT in Hat'. rewrite Hat, Hat', <- Hqr.
    repeat case_decide; rewrite !(Mat_at_t _ H (W - 1)) by (assumption || lia);
      reflexivity.
Qed.

(** The Thomas algorithm on the [W] tridiagonal systems of [n] unknowns
    with diagonal [a], off-diagonal [b] and right-hand side [d]: the
    forward elimination computes the pivots [m] and the right-hand sides
    [y] with the multiplier [b[k-1] / m[k-1]], and the back substitution
    fills [x] from its last row up. *)
Local Abbreviation elimination n W a b d x :=
  (exists m y : Mat F,
     (forall j, 0 <= j < W -> Mat_at m 0 j = a 0 j /\ Mat_at y 0 j = d 0 j) /\
     (forall k j, 1 <= k < n -> 0 <= j < W ->
        Mat_at m k j
        = asub (a k j) (amul (adiv (b (k - 1) j) (Mat_at m (k - 1) j)) (b (k - 1) j)) /\
        Mat_at y k j
        = asub (d k j) (amul (adiv (b (k - 1) j) (Mat_at m (k - 1) j)) (Mat_at y (k - 1) j))) /\
     (forall j, 0 <= j < W -> x (n - 1) j = adiv (Mat_at y (n - 1) j) (Mat_at m (n - 1) j)) /\
     (forall i j, 0 <= i < n - 1 -> 0 <= j < W ->
        x i j = adiv (asub (Mat_at y i j) (amul (b i j) (x (i + 1) j))) (Mat_at m i j))).

(** C7.  One AOS step on an [H x W] image.  The row pass forms
    [qr[i,j] = c[i,j] + c[i+1,j]] for [i] in [0, H-2]; [py] is row [0] of
    [qr] at the top, row [H-2] of [qr] at the bottom and
    [qr[i-1,j] + qr[i,j]] in between; the diagonal is
    [ay = 1 + stepsize*py], the off-diagonal [by = -stepsize*qr], and [Lty]
    is what [Thomas] computes from them and the previous image: the
    forward elimination and back substitution of the Thomas algorithm, on
    each column.  The column pass gives for [Ltx] what the row pass gives
    for [Lty] on the transposed image and conductivity:
    [qc[i,j] = c[i,j] + c[i,j+1]], [px] from the columns of [qc] as [py]
    from the rows of [qr], [ax = 1 + stepsize*px.t()],
    [bx = -stepsize*qc.t()], and [Ltx] by the same elimination on the
    transposed image.  The result is
    [Ld[i,j] = 0.5 * (Lty[i,j] + Ltx[j,i])]. *)
Theorem AOS_step_construction (H W : Z) (Ldprev c : Mat F) (stepsize : F)
    (st stT : Scratch F) :
  2 <= H -> 2 <= W -> Mat_is H W c ->
  Scratch_is H W st -> Scratch_is W H stT -> Lty stT = Ltx st ->
  let rw := AOS_Rows Ldprev c stepsize st in
  let cl := AOS_Columns Ldprev c stepsize rw in
  let Ld := fst (AOS_Step_Scalar Ldprev c stepsize st) in
  (forall i j, 0 <= i < H - 1 -> 0 <= j < W ->
     Mat_at (qr rw) i j = aadd (Mat_at c i j) (Mat_at c (i + 1) j) /\
     Mat_at (by_ rw) i j = amul (aneg stepsize) (Mat_at (qr rw) i j)) /\
  (forall j, 0 <= j < W ->
     Mat_at (py rw) 0 j = Mat_at (qr rw) 0 j /\
     Mat_at (py rw) (H - 1) j = Mat_at (qr rw) (H - 2) j) /\
  (forall i j, 1 <= i < H - 1 -> 0 <= j < W ->
     Mat_at (py rw) i j = aadd (Mat_at (qr rw) (i - 1) j) (Mat_at (qr rw) i j)) /\
  (forall i j, 0 <= i < H -> 0 <= j < W ->
     Mat_at (ay rw) i j = aadd aone (amul stepsize (Mat_at (py rw) i j))) /\
  Lty rw = Thomas (ay rw) (by_ rw) Ldprev (Lty st) /\
  Ltx cl = Lty (AOS_Rows (Mat_t Ldprev) (Mat_t c) stepsize stT) /\
  Lty cl = Lty rw /\
  Mat_is H W Ld /\
  (forall i j, 0 <= i < H -> 0 <= j < W ->
     Mat_at Ld i j = amul ahalf (aadd (Mat_at (Lty cl) i j) (Mat_at (Ltx cl) j i))) /\
  (Mat_is H W Ldprev ->
   elimination H W (Mat_at (ay rw)) (Mat_at (by_ rw)) (Mat_at Ldprev) (Mat_at (Lty rw))) /\
  (forall i j, 0 <= i < H -> 0 <= j < W - 1 ->
     Mat_at (qc cl) i j = aadd (Mat_at c i j) (Mat_at c i (j + 1)) /\
     Mat_at (bx cl) j i = amul (aneg stepsize) (Mat_at (qc cl) i j)) /\
  (forall i, 0 <= i < H ->
     Mat_at (px cl) i 0 = Mat_at (qc cl) i 0 /\
     Mat_at (px cl) i (W - 1) = Mat_at (qc cl) i (W - 2)) /\
  (forall i j, 0 <= i < H -> 1 <= j < W - 1 ->
     Mat_at (px cl) i j = aadd (Mat_at (qc cl) i (j - 1)) (Mat_at (qc cl) i j)) /\
  (forall i j, 0 <= i < H -> 0 <= j < W ->
     Mat_at (ax cl) j i = aadd aone (amul stepsize (Mat_at (px cl) i j))) /\
  (Mat_is H W Ldprev ->
   elimination W H (Mat_at (ax cl)) (Mat_at (bx cl)) (fun j i => Mat_at Ldprev i j)
               (Mat_at (Ltx cl))).
Proof.
  intros HH HW Hc Hst HstT Hshared rw cl Ld.
  assert (Hqr : Mat_is (H - 1) W (qr rw))
    by (apply (AOS_Rows_qr H W Ldprev c stepsize st Hst 0 0); lia).
  assert (Hpy : Mat_is H W (py rw))
    by (apply (AOS_Rows_py H W Ldprev c stepsize st HH HW Hst 0 0); lia).
  assert (Hqc : Mat_is H (W - 1) (qc cl))
    by (apply (AOS_Columns_qc H W Ldprev c stepsize st Hst 0 0); lia).
  assert (Hpx : Mat_is H W (px cl))
    by (apply (AOS_Columns_px H W Ldprev c stepsize st HH HW Hst 0 0); lia).
  assert (HqcT : Mat_is (W - 1) H (Mat_t (qc cl))) by (apply Mat_t_is; [lia..|exact Hqc]).
  assert (HpxT : Mat_is W H (Mat_t (px cl))) by (apply Mat_t_is; [lia..|exact Hpx]).
  destruct (AOS_Rows_frame H W Ldprev c stepsize st Hst) as (_ & _ & _ & HLty).
  destruct (AOS_Columns_frame H W Ldprev c stepsize st Hst) as (_ & _ & _ & HLtx).
  fold rw in HLty. fold rw cl in HLtx.
  repeat match goal with |- _ /\ _ => split end.
  - intros i j Hi Hj. split.
    + apply (AOS_Rows_qr H W Ldprev c stepsize st Hst i j); lia.
    + change (by_ rw) with (Mat_map (fun v => amul (aneg stepsize) v) (qr rw)).
      by rewrite (Mat_at_map _ _ (H - 1) W).
  - intros j Hj. split.
    + destruct (AOS_Rows_py H W Ldprev c stepsize st HH HW Hst 0 j) as [_ Hat]; try lia.
      fold rw in Hat. rewrite Hat. by rewrite !decide_False by lia.
    + destruct (AOS_Rows_py H W Ldprev c stepsize st HH HW Hst (H - 1) j) as [_ Hat];
        try lia.
      fold rw in Hat. rewrite Hat. rewrite decide_False by lia.
      by rewrite decide_True by lia.
  - intros i j Hi Hj.
    destruct (AOS_Rows_py H W Ldprev c stepsize st HH HW Hst i j) as [_ Hat]; try lia.
    fold rw in Hat. rewrite Hat. by rewrite decide_True by lia.
  - intros i j Hi Hj.
    change (ay rw) with (Mat_map (fun v => aadd aone (amul stepsize v)) (py rw)).
    by rewrite (Mat_at_map _ _ H W).
  - reflexivity.
  - destruct (AOS_Columns_transposed H W Ldprev c stepsize st stT HH HW Hc Hst HstT)
      as [Hq Hp].
    fold rw cl in Hq, Hp.
    change (Ltx cl) with
      (Thomas (Mat_map (fun v => aadd aone (amul stepsize v)) (Mat_t (px cl)))
              (Mat_map (fun v => amul (aneg stepsize) v) (Mat_t (qc cl)))
              (Mat_t Ldprev) (Ltx st)).
    rewrite Hq, Hp, <- Hshared. reflexivity.
  - reflexivity.
  - apply Mat_map_is, Mat_add_is; [exact HLty|]. apply Mat_t_is; [lia..|exact HLtx].
  - intros i j Hi Hj.
    change Ld with (Mat_map (amul ahalf) (Mat_add (Lty cl) (Mat_t (Ltx cl)))).
    assert (HLtxT : Mat_is H W (Mat_t (Ltx cl))) by (apply Mat_t_is; [lia..|exact HLtx]).
    rewrite (Mat_at_map _ _ H W); [|by apply Mat_add_is|lia..].
    rewrite (Mat_at_add _ _ H W); [|exact HLty|exact HLtxT|lia..].
    by rewrite (Mat_at_t _ W H).
  - intros HL.
    destruct Hst as (_ & HLty0 & _).
    destruct (Thomas_recurrences H W (ay rw) (by_ rw) Ldprev (Lty st))
      as (m & y & R0 & Rk & _ & Rlast & Rback);
      [lia|lia|by apply Mat_map_is|by apply Mat_map_is|exact HL|exact HLty0|].
    exists m, y. split; [exact R0|]. split; [exact Rk|]. split; [exact Rlast|exact Rback].
  - intros i j Hi Hj.
    destruct (AOS_Columns_qc H W Ldprev c stepsize st Hst i j) as [_ Hat]; try lia.
    fold rw cl in Hat. split; [exact Hat|].
    change (bx cl) with (Mat_map (fun v => amul (aneg stepsize) v) (Mat_t (qc cl))).
    rewrite (Mat_at_map _ _ (W - 1) H) by (assumption || lia).
    by rewrite (Mat_at_t _ H (W - 1)) by (assumption || lia).
  - intros i Hi. split.
    + destruct (AOS_Columns_px H W Ldprev c stepsize st HH HW Hst i 0) as [_ Hat]; try lia.
      fold rw cl in Hat. rewrite Hat. by rewrite !decide_False by lia.
    + destruct (AOS_Columns_px H W Ldprev c stepsize st HH HW Hst i (W - 1)) as [_ Hat];
        try lia.
      fold rw cl in Hat. rewrite Hat. rewrite decide_False by lia.
      by rewrite decide_True by lia.
  - intros i j Hi Hj.
    destruct (AOS_Columns_px H W Ldprev c stepsize st HH HW Hst i j) as [_ Hat]; try lia.
    fold rw cl in Hat. rewrite Hat. by rewrite decide_True by lia.
  - intros i j Hi Hj.
    change (ax cl) with (Mat_map (fun v => aadd aone (amul stepsize v)) (Mat_t (px cl))).
    rewrite (Mat_at_map _ _ W H) by (assumption || lia).
    by rewrite (Mat_at_t _ H W) by (assumption || lia).
  - intros HL.
    destruct Hst as (HLtx0 & _).
    assert (HLT : Mat_is W H (Mat_t Ldprev)) by (apply Mat_t_is; [lia..|exact HL]).
    destruct (Thomas_recurrences W H (ax cl) (bx cl) (Mat_t Ldprev) (Ltx st))
      as (m & y & R0 & Rk & _ & Rlast & Rback);
      [lia|lia|by apply Mat_map_is|by apply Mat_map_is|exact HLT|exact HLtx0|].
    exists m, y. split; [|split; [|split; [exact Rlast|exact Rback]]].
    + intros j Hj. destruct (R0 j Hj) as [Rm Ry]. split; [exact Rm|].
      rewrite Ry. by rewrite (Mat_at_t _ H W) by (assumption || lia).
    + intros k j Hk Hj. destruct (Rk k j Hk Hj) as [Rm Ry]. split; [exact Rm|].
      rewrite Ry. by rewrite (Mat_at_t _ H W) by (assumption || lia).
Qed.

End AOS_claims.

Section AOS_examples.
Import IEEE AOS Examples.
#[local] Existing Instance float_arith.

(** C7, witness: one step on the 3x3 example, on [float]. *)
Lemma AOS_step_on_example :
  Scratch_is 3 3 aos_scratch /\ Mat_is 3 3 aos_conductivity /\ Mat_is 3 3 aos_image /\
  Mat_at (py aos_rows) 1 2 = fadd (Mat_at (qr aos_rows) 0 2) (Mat_at (qr aos_rows) 1 2) /\
  Mat_at (fst (AOS_Step_Scalar aos_image aos_conductivity aos_stepsize aos_scratch)) 1 2
  = fmul (fconst 1 (-1)) (fadd (Mat_at (Lty aos_columns) 1 2) (Mat_at (Ltx aos_columns) 2 1)) /\
  (exists m y : Mat float,
     forall j, 0 <= j < 3 ->
       Mat_at (Lty aos_rows) 2 j = fdiv (Mat_at y 2 j) (Mat_at m 2 j)) /\
  (exists m y : Mat float,
     forall j, 0 <= j < 3 ->
       Mat_at (Ltx aos_columns) 2 j = fdiv (Mat_at y 2 j) (Mat_at m 2 j)).
Proof.
  assert (Hst : Scratch_is 3 3 aos_scratch) by (repeat split).
  assert (Hc : Mat_is 3 3 aos_conductivity) by (repeat split).
  assert (Himg : Mat_is 3 3 aos_image) by (repeat split).
  pose proof (AOS_step_construction 3 3 aos_image aos_conductivity
                aos_stepsize aos_scratch aos_scratch ltac:(lia) ltac:(lia) Hc Hst Hst eq_refl)
    as (_ & _ & Hpy & _ & _ & _ & _ & _ & HLd & Hrows & _ & _ & _ & _ & Hcols).
  split; [exact Hst|]. split; [exact Hc|]. split; [exact Himg|]. split; [|split; [|split]].
  - apply (Hpy 1 2); lia.
  - apply (HLd 1 2); lia.
  - destruct (Hrows Himg) as (m & y & _ & _ & Hlast & _). exists m, y. exact Hlast.
  - destruct (Hcols Himg) as (m & y & _ & _ & Hlast & _). exists m, y. exact Hlast.
Defined.

(** The step on the example, evaluated: the middle row of the result. *)
Example AOS_step_evaluated :
  map (fun j => is_nan (Mat_at (fst (AOS_Step_Scalar aos_image aos_conductivity
                                       aos_stepsize aos_scratch)) 1 j)) [0; 1; 2]
  = [false; false; false].
Proof. vm_compute. reflexivity. Qed.

End AOS_examples.
Section ScaleSpace_facts.
Import AOS ScaleSpace.
Context {F : Type} {sc : Scalar F}.

(** The levels in storage order: level [k] is sublevel [k mod nsublevels]
    of octave [k / nsublevels]. *)
Lemma Allocate_Memory_Evolution_levels (options : KAZEOptions F) :
  0 <= omax options -> 1 <= nsublevels options ->
  fst (Allocate_Memory_Evolution options [])
  = map (fun k => new_level options (k / nsublevels options) (k mod nsublevels options))
        (seqZ 0 (omax options * nsublevels options)).
Proof.
  intros Ho Hn. unfold Allocate_Memory_Evolution. cbn [fst].
  set (n := nsublevels options) in *.
  set (g := fun k => new_level options (k / n) (k mod n)).
  replace (omax options - 1 + 1) with (omax options) by lia.
  replace (n - 1 + 1) with n by lia.
  apply (for_range_ind (fun i ev => ev = map g (seqZ 0 (i * n)))); [lia|reflexivity|].
  intros i ev Hi ->.
  replace ((i + 1) * n) with (i * n + n) by lia.
  apply (for_range_ind (fun j ev => ev = map g (seqZ 0 (i * n + j)))); [lia|by rewrite Z.add_0_r|].
  intros j ev Hj ->.
  rewrite Z.add_assoc, (seqZ_app 0 (i * n + j) 1) by nia.
  rewrite map_app. f_equal.
  change (seqZ (0 + (i * n + j)) 1) with [0 + (i * n + j)].
  cbn [map]. unfold g. rewrite Z.add_0_l.
  replace ((i * n + j) / n) with i by (apply Z.div_unique with j; lia).
  replace ((i * n + j) mod n) with j by (apply Z.mod_unique with i; lia).
  reflexivity.
Qed.

End ScaleSpace_facts.

Section ScaleSpace_claims.
Import AOS ScaleSpace.

(** Over the reals, level [k] has [esigma = soffset * 2^(k / nsublevels)]. *)
Lemma real_level_esigma (options : KAZEOptions R) (k : Z) :
  1 <= nsublevels options ->
  esigma (new_level (sc := real_scalar) options
            (k / nsublevels options) (k mod nsublevels options))
  = (soffset options * Rpower 2 (IZR k / IZR (nsublevels options)))%R.
Proof.
  intros Hn. unfold new_level. cbn. f_equal. f_equal.
  set (n := nsublevels options) in *.
  assert (Hn0 : IZR n <> 0%R) by (apply not_0_IZR; lia).
  rewrite (Z.div_mod k n) at 3 by lia.
  rewrite plus_IZR, mult_IZR. field. exact Hn0.
Qed.

Lemma real_level_etime (options : KAZEOptions R) (i j : Z) :
  etime (new_level (sc := real_scalar) options i j)
  = (0.5 * (esigma (new_level (sc := real_scalar) options i j)
            * esigma (new_level (sc := real_scalar) options i j)))%R.
Proof. reflexivity. Qed.

(** C6.  In exact arithmetic, with [soffset > 0] and [nsublevels >= 1],
    each level that [Allocate_Memory_Evolution] stores has a strictly
    larger [esigma] and a strictly larger [etime] than the level stored
    before it, within an octave and from one octave to the next. *)
Theorem scale_space_strictly_increasing (options : KAZEOptions R) (k : nat)
    (a b : tevolution R) :
  (0 < soffset options)%R -> 1 <= nsublevels options ->
  fst (Allocate_Memory_Evolution (sc := real_scalar) options []) !! k = Some a ->
  fst (Allocate_Memory_Evolution (sc := real_scalar) options []) !! S k = Some b ->
  (esigma a < esigma b)%R /\ (etime a < etime b)%R.
Proof.
  intros Hs Hn Ha Hb.
  destruct (Z_lt_le_dec (omax options) 0) as [Hneg|Hpos].
  { unfold Allocate_Memory_Evolution in Ha. cbn [fst] in Ha.
    rewrite for_range_empty in Ha by lia. discriminate. }
  rewrite Allocate_Memory_Evolution_levels in Ha, Hb by assumption.
  rewrite list_lookup_fmap in Ha, Hb.
  destruct (seqZ 0 _ !! k) as [ka|] eqn:Hka; [|discriminate].
  destruct (seqZ 0 _ !! S k) as [kb|] eqn:Hkb; [|discriminate].
  apply lookup_seqZ in Hka as [-> _]. apply lookup_seqZ in Hkb as [-> _].
  cbn [fmap list_fmap option_fmap option_map] in Ha, Hb.
  injection Ha as <-. injection Hb as <-.
  rewrite !real_level_etime, !real_level_esigma by assumption.
  set (n := nsublevels options) in *.
  assert (Hn0 : (0 < IZR n)%R) by (apply IZR_lt; lia).
  assert (Hexp : (IZR (0 + Z.of_nat k) / IZR n < IZR (0 + Z.of_nat (S k)) / IZR n)%R).
  { apply Rmult_lt_compat_r; [by apply Rinv_0_lt_compat|]. apply IZR_lt. lia. }
  assert (Hpow := Rpower_lt 2 _ _ ltac:(lra) Hexp).
  assert (Hposa : (0 < Rpower 2 (IZR (0 + Z.of_nat k) / IZR n))%R)
    by (unfold Rpower; apply exp_pos).
  set (pa := Rpower 2 (IZR (0 + Z.of_nat k) / IZR n)) in *.
  set (pb := Rpower 2 (IZR (0 + Z.of_nat (S k)) / IZR n)) in *.
  assert (Hx : (0 < soffset options * pa)%R) by (apply Rmult_lt_0_compat; assumption).
  assert (Hxy : (soffset options * pa < soffset options * pb)%R)
    by (apply Rmult_lt_compat_l; assumption).
  split; [exact Hxy|].
  set (x := (soffset options * pa)%R) in *. set (y := (soffset options * pb)%R) in *.
  assert (x * x < y * y)%R by nra. lra.
Qed.

End ScaleSpace_claims.

Section ScaleSpace_examples.
Import IEEE AOS ScaleSpace Examples.

(** C6, witness: the two levels of two octaves with [soffset = 1]. *)
Lemma scale_space_two_octaves :
  (0 < soffset real_options)%R /\ 1 <= nsublevels real_options /\
  (esigma (new_level (sc := real_scalar) real_options 0 0)
   < esigma (new_level (sc := real_scalar) real_options 1 0))%R /\
  (etime (new_level (sc := real_scalar) real_options 0 0)
   < etime (new_level (sc := real_scalar) real_options 1 0))%R.
Proof.
  assert (Hs : (0 < soffset real_options)%R) by (simpl; lra).
  assert (Hn : 1 <= nsublevels real_options) by (simpl; lia).
  split; [exact Hs|]. split; [exact Hn|].
  exact (scale_space_strictly_increasing real_options 0 _ _ Hs Hn eq_refl eq_refl).
Defined.

(** On [float], four octaves from [soffset = 1.5]. *)
Example float_scale_space :
  map esigma float_evolution = [fconst 3 (-1); fconst 3 0; fconst 6 0; fconst 12 0]
  /\ map etime float_evolution = [fconst 9 (-3); fconst 9 (-1); fconst 18 0; fconst 72 0]
  /\ map sigma_size float_evolution = [2; 3; 6; 12].
Proof. vm_compute. repeat split; reflexivity. Qed.

(** C6 as stated, on [float]: with [soffset = 1 > 0] and [nsublevels = 1],
    the squares of [esigma = 2^66] and of [esigma = 2^67] both exceed the
    range of binary32, so that the levels 66 and 67 both carry
    [etime = +infinity]. *)
Lemma etime_saturates_in_binary32 :
  flt fzero (soffset deep_options) = true /\ 1 <= nsublevels deep_options /\
  exists a b,
    deep_evolution !! 66%nat = Some a /\ deep_evolution !! 67%nat = Some b /\
    esigma a = fconst 1 66 /\ esigma b = fconst 1 67 /\
    f32 (etime a) = S754_infinity false /\ f32 (etime b) = S754_infinity false /\
    fgt (etime b) (etime a) = false.
Proof.
  split; [reflexivity|]. split; [simpl; lia|].
  exists (new_level (sc := float_scalar (ext := Reference.externals)) deep_options 66 0),
         (new_level (sc := float_scalar (ext := Reference.externals)) deep_options 67 0).
  vm_compute. repeat split; reflexivity.
Qed.

End ScaleSpace_examples.
Section Angle_claims.
Import IEEE Model Angle.
Context {ext : Externals}.

Lemma flt_not_fge (a b : float) : flt a b = true -> fge a b = false.
Proof.
  intros H. destruct (fge a b) eqn:Hge; [|reflexivity].
  unfold fge, fle in Hge. apply SFleb_not_ltb in Hge. unfold flt in H. congruence.
Qed.

(** C8.  [Get_Angle] returns [atan(Y/X)] for [X >= 0, Y >= 0],
    [CV_PI - atan(-Y/X)] for [X < 0, Y >= 0], [CV_PI + atan(Y/X)] for
    [X < 0, Y < 0] and [2*CV_PI - atan(-Y/X)] for [X >= 0, Y < 0].  At
    [X = Y = 0] the first case applies, the quotient [0/0] is NaN, and with
    an [atan] that returns NaN on NaN the result is NaN, outside every
    interval. *)
Theorem Get_Angle_quadrants_and_origin :
  f64 (atan fnan) = S754_nan ->
  (forall X Y, fge X fzero = true -> fge Y fzero = true ->
     Get_Angle X Y = to_float (atan (fdiv Y X))) /\
  (forall X Y, flt X fzero = true -> fge Y fzero = true ->
     Get_Angle X Y = to_float (dsub CV_PI (atan (fdiv (fneg Y) X)))) /\
  (forall X Y, flt X fzero = true -> flt Y fzero = true ->
     Get_Angle X Y = to_float (dadd CV_PI (atan (fdiv Y X)))) /\
  (forall X Y, fge X fzero = true -> flt Y fzero = true ->
     Get_Angle X Y = to_float (dsub (dadd CV_PI CV_PI) (atan (fdiv (fneg Y) X)))) /\
  is_nan (Get_Angle fzero fzero) = true /\
  flt (Get_Angle fzero fzero) (to_float (dadd CV_PI CV_PI)) = false /\
  fge (Get_Angle fzero fzero) fzero = false.
Proof.
  intros Hnan.
  assert (H00 : Get_Angle fzero fzero = fnan).
  { unfold Get_Angle. change (fge fzero fzero) with true. cbn [andb].
    change (fdiv fzero fzero) with fnan.
    unfold to_float. rewrite Hnan. reflexivity. }
  repeat match goal with |- _ /\ _ => split end.
  - intros X Y HX HY. unfold Get_Angle. by rewrite HX, HY.
  - intros X Y HX HY. unfold Get_Angle.
    by rewrite (flt_not_fge _ _ HX), HX, HY.
  - intros X Y HX HY. unfold Get_Angle.
    by rewrite (flt_not_fge _ _ HX), (flt_not_fge _ _ HY), HX, HY.
  - intros X Y HX HY. unfold Get_Angle.
    rewrite (flt_not_fge _ _ HY), HX, HY.
    destruct (flt X fzero) eqn:HX'; [|reflexivity].
    apply flt_not_fge in HX'. congruence.
  - by rewrite H00.
  - by rewrite H00.
  - by rewrite H00.
Qed.

End Angle_claims.

Section Angle_examples.
Import IEEE Model Angle.

(** C8, witness: with the reference [atan]. *)
Lemma Get_Angle_origin_reference :
  is_nan (Get_Angle (ext := Reference.externals) fzero fzero) = true.
Proof.
  apply (Get_Angle_quadrants_and_origin (ext := Reference.externals) eq_refl).
Defined.

(** The angle of [(-0, 0)]: the first case again, and [0 / -0] is NaN. *)
Example Get_Angle_negative_zero :
  is_nan (Get_Angle (ext := Reference.externals) (fneg fzero) fzero) = true.
Proof. vm_compute. reflexivity. Qed.

End Angle_examples.
Section Suppression_facts.
Import IEEE Model Suppression.
Variable mdist : float.

Lemma SFltb_SFleb (a b : spec_float) : SFltb a b = true -> SFleb a b = true.
Proof.
  unfold SFltb, SFleb. destruct (SFcompare a b) as [[| |]|]; try discriminate. reflexivity.
Qed.

Local Abbreviation close := (closer mdist).

(** The inner loop only adds indices. *)
Lemma suppress_from_mono ki i rest j td x :
  x ∈ td -> x ∈ suppress_from mdist ki i rest j td.
Proof.
  revert j td. induction rest as [|kj rest IH]; intros j td Hx; simpl; [assumption|].
  destruct (closer mdist ki kj); [destruct (prevails ki kj)|].
  - apply IH, elem_of_app. by left.
  - apply elem_of_app. by left.
  - by apply IH.
Qed.

(** What it adds: [i] after a closer keypoint that [ki] does not prevail
    over, or the index of a closer keypoint that [ki] prevails over. *)
Lemma suppress_from_sound ki i rest j td x :
  x ∈ suppress_from mdist ki i rest j td ->
  x ∈ td \/
  exists n kj, rest !! n = Some kj /\ close ki kj = true /\
    ((x = i /\ prevails ki kj = false) \/ (x = (j + n)%nat /\ prevails ki kj = true)).
Proof.
  revert j td. induction rest as [|kj rest IH]; intros j td Hx; simpl in Hx; [by left|].
  destruct (closer mdist ki kj) eqn:Hc; [destruct (prevails ki kj) eqn:Hp|].
  - apply IH in Hx as [Hx|(n & kn & Hn & Hcn & Hcase)].
    + apply elem_of_app in Hx as [Hx|Hx]; [by left|].
      apply list_elem_of_singleton in Hx as ->.
      right. exists 0%nat, kj. repeat split; [assumption|]. right. split; [lia|assumption].
    + right. exists (S n), kn. repeat split; [assumption..|].
      destruct Hcase as [[-> Hq]|[-> Hq]]; [by left|right; split; [lia|assumption]].
  - apply elem_of_app in Hx as [Hx|Hx]; [by left|].
    apply list_elem_of_singleton in Hx as ->.
    right. exists 0%nat, kj. repeat split; [assumption|]. by left.
  - apply IH in Hx as [Hx|(n & kn & Hn & Hcn & Hcase)]; [by left|].
    right. exists (S n), kn. repeat split; [assumption..|].
    destruct Hcase as [[-> Hq]|[-> Hq]]; [by left|right; split; [lia|assumption]].
Qed.

(** Of two closer keypoints one is marked. *)
Lemma suppress_from_complete ki i rest j td n kj :
  rest !! n = Some kj -> close ki kj = true ->
  i ∈ suppress_from mdist ki i rest j td \/ (j + n)%nat ∈ suppress_from mdist ki i rest j td.
Proof.
  revert j td n. induction rest as [|k rest IH]; intros j td n Hn Hc; [done|].
  simpl. destruct n as [|n]; simpl in Hn.
  - injection Hn as ->. rewrite Hc. destruct (prevails ki kj).
    + right. apply suppress_from_mono. rewrite Nat.add_0_r.
      apply elem_of_app. right. by apply list_elem_of_singleton.
    + left. apply elem_of_app. right. by apply list_elem_of_singleton.
  - destruct (closer mdist ki k); [destruct (prevails ki k)|].
    + replace (j + S n)%nat with (S j + n)%nat by lia. by apply IH.
    + left. apply elem_of_app. right. by apply list_elem_of_singleton.
    + replace (j + S n)%nat with (S j + n)%nat by lia. by apply IH.
Qed.

Lemma mark_mono kpts i td x : x ∈ td -> x ∈ mark mdist kpts i td.
Proof.
  revert i td. induction kpts as [|k rest IH]; intros i td Hx; simpl; [assumption|].
  apply IH. by apply suppress_from_mono.
Qed.

(** An index is marked only for a pair of closer keypoints: the later one
    when the earlier prevails, the earlier one when it does not. *)
Lemma mark_sound kpts i td x :
  x ∈ mark mdist kpts i td ->
  x ∈ td \/
  exists p q kp kq, (p < q)%nat /\ kpts !! p = Some kp /\ kpts !! q = Some kq /\
    close kp kq = true /\
    ((x = (i + p)%nat /\ prevails kp kq = false) \/ (x = (i + q)%nat /\ prevails kp kq = true)).
Proof.
  revert i td. induction kpts as [|k rest IH]; intros i td Hx; simpl in Hx; [by left|].
  apply IH in Hx as [Hx|(p & q & kp & kq & Hpq & Hp & Hq & Hc & Hcase)].
  - apply suppress_from_sound in Hx as [Hx|(n & kn & Hn & Hc & Hcase)]; [by left|].
    right. exists 0%nat, (S n), k, kn. repeat split; [lia|assumption..|].
    destruct Hcase as [[-> Hv]|[-> Hv]]; [left|right]; (split; [lia|assumption]).
  - right. exists (S p), (S q), kp, kq. repeat split; [lia|assumption..|].
    destruct Hcase as [[-> Hv]|[-> Hv]]; [left|right]; (split; [lia|assumption]).
Qed.

(** Of every pair of closer keypoints one is marked. *)
Lemma mark_complete kpts i td p q kp kq :
  (p < q)%nat -> kpts !! p = Some kp -> kpts !! q = Some kq -> close kp kq = true ->
  (i + p)%nat ∈ mark mdist kpts i td \/ (i + q)%nat ∈ mark mdist kpts i td.
Proof.
  revert i td p q. induction kpts as [|k rest IH]; intros i td p q Hpq Hp Hq Hc; [done|].
  simpl. destruct q as [|q]; [lia|]. simpl in Hq.
  destruct p as [|p]; simpl in Hp.
  - injection Hp as ->.
    destruct (suppress_from_complete kp i rest (S i) td q kq Hq Hc) as [H|H].
    + left. rewrite Nat.add_0_r. by apply mark_mono.
    + right. replace (i + S q)%nat with (S i + q)%nat by lia. by apply mark_mono.
  - replace (i + S p)%nat with (S i + p)%nat by lia.
    replace (i + S q)%nat with (S i + q)%nat by lia.
    apply IH; [lia|assumption..].
Qed.

Lemma found_spec i td : found i td = true <-> i ∈ td.
Proof.
  unfold found. rewrite existsb_exists. split.
  - intros (x & Hx & Heq). apply Nat.eqb_eq in Heq as ->. by apply list_elem_of_In.
  - intros Hi. exists i. split; [by apply list_elem_of_In|apply Nat.eqb_refl].
Qed.

(** The second loop keeps the keypoints whose index is not marked. *)
Lemma collect_elem kpts i td k :
  k ∈ collect kpts i td <-> exists p, kpts !! p = Some k /\ (i + p)%nat ∉ td.
Proof.
  revert i. induction kpts as [|k0 rest IH]; intros i; simpl.
  - split; [by intros ?%elem_of_nil|by intros (p & ? & _)].
  - destruct (found i td) eqn:Hf.
    + rewrite IH. split.
      * intros (p & Hp & Hn). exists (S p). split; [assumption|].
        by replace (i + S p)%nat with (S i + p)%nat by lia.
      * intros ([|p] & Hp & Hn).
        -- apply found_spec in Hf. rewrite Nat.add_0_r in Hn. contradiction.
        -- exists p. split; [assumption|]. by replace (S i + p)%nat with (i + S p)%nat by lia.
    + rewrite elem_of_cons, IH. split.
      * intros [->|(p & Hp & Hn)].
        -- exists 0%nat. split; [reflexivity|]. rewrite Nat.add_0_r.
           intros Hi%found_spec. congruence.
        -- exists (S p). split; [assumption|].
           by replace (i + S p)%nat with (S i + p)%nat by lia.
      * intros ([|p] & Hp & Hn).
        -- left. simpl in Hp. congruence.
        -- right. exists p. split; [assumption|].
           by replace (S i + p)%nat with (i + S p)%nat by lia.
Qed.

Lemma collect_sublist kpts i td : sublist (collect kpts i td) kpts.
Proof.
  revert i. induction kpts as [|k rest IH]; intros i; simpl; [constructor|].
  destruct (found i td); [apply sublist_cons|apply sublist_skip]; apply IH.
Qed.

Lemma collect_nothing kpts i : collect kpts i [] = kpts.
Proof. revert i. induction kpts as [|k rest IH]; intros i; simpl; [reflexivity|]. by rewrite IH. Qed.

(** Two keypoints that both stay, in their order, are not closer. *)
Lemma collect_separated kpts i td :
  (forall p q kp kq, (p < q)%nat -> kpts !! p = Some kp -> kpts !! q = Some kq ->
     close kp kq = true -> (i + p)%nat ∈ td \/ (i + q)%nat ∈ td) ->
  forall n m a b, (n < m)%nat ->
    collect kpts i td !! n = Some a -> collect kpts i td !! m = Some b ->
    close a b = false.
Proof.
  revert i. induction kpts as [|k rest IH]; intros i Hpairs n m a b Hnm Ha Hb; [done|].
  assert (Hrest : forall p q kp kq, (p < q)%nat -> rest !! p = Some kp -> rest !! q = Some kq ->
     close kp kq = true -> (S i + p)%nat ∈ td \/ (S i + q)%nat ∈ td).
  { intros p q kp kq Hpq Hp Hq Hc.
    replace (S i + p)%nat with (i + S p)%nat by lia.
    replace (S i + q)%nat with (i + S q)%nat by lia.
    apply (Hpairs (S p) (S q) kp kq); [lia|assumption..]. }
  simpl in Ha, Hb. destruct (found i td) eqn:Hf.
  - by apply (IH (S i) Hrest n m).
  - destruct m as [|m]; [lia|]. simpl in Hb. destruct n as [|n]; simpl in Ha.
    + injection Ha as ->.
      destruct (close a b) eqn:Hc; [|reflexivity].
      apply list_elem_of_lookup_2, collect_elem in Hb as (q & Hq & Hn).
      destruct (Hpairs 0%nat (S q) a b) as [H|H]; [lia|reflexivity|assumption..| |].
      * rewrite Nat.add_0_r in H. apply found_spec in H. congruence.
      * replace (i + S q)%nat with (S i + q)%nat in H by lia. contradiction.
    + apply (IH (S i) Hrest n m); [lia|assumption..].
Qed.

(** Without a pair of closer keypoints nothing is marked. *)
Lemma collect_unmarked kpts :
  (forall p q kp kq, (p < q)%nat -> kpts !! p = Some kp -> kpts !! q = Some kq ->
     close kp kq = false) ->
  collect kpts 0 (mark mdist kpts 0 []) = kpts.
Proof.
  intros Hsep.
  destruct (mark mdist kpts 0 []) as [|x td] eqn:Hmark; [apply collect_nothing|].
  assert (Hx : x ∈ mark mdist kpts 0 []) by (rewrite Hmark; left).
  apply mark_sound in Hx as [Hx|(p & q & kp & kq & Hpq & Hp & Hq & Hc & _)];
    [by apply elem_of_nil in Hx|].
  rewrite (Hsep p q kp kq Hpq Hp Hq) in Hc. discriminate.
Qed.

End Suppression_facts.

Section Suppression_properties.
Import IEEE Model Suppression.
Variable mdist : float.

(** Any two keypoints that [Feature_Suppression_Distance] returns are not
    closer than [mdist]: for the earlier one [a] and the later one [b] of
    the result, the test [dist < mdist] of the code fails. *)
Theorem suppression_separates (kpts : list KeyPoint) (n m : nat) (a b : KeyPoint) :
  (n < m)%nat ->
  Feature_Suppression_Distance mdist kpts !! n = Some a ->
  Feature_Suppression_Distance mdist kpts !! m = Some b ->
  flt (distance a b) mdist = false.
Proof.
  intros Hnm Ha Hb.
  apply (collect_separated mdist kpts 0 (mark mdist kpts 0 []) (mark_complete mdist kpts 0 [])
           n m a b Hnm Ha Hb).
Qed.

(** [Feature_Suppression_Distance] only removes keypoints: the result is
    the input with some entries left out, the others in their order. *)
Theorem suppression_sublist (kpts : list KeyPoint) :
  sublist (Feature_Suppression_Distance mdist kpts) kpts.
Proof. apply collect_sublist. Qed.

(** A keypoint whose [|response|] is strictly larger than that of every
    other keypoint within [mdist] of it stays. *)
Theorem suppression_keeps_dominant (kpts : list KeyPoint) (i : nat) (k : KeyPoint) :
  kpts !! i = Some k ->
  (forall j kj, j <> i -> kpts !! j = Some kj ->
     flt (distance k kj) mdist = true \/ flt (distance kj k) mdist = true ->
     flt (fabs (response kj)) (fabs (response k)) = true) ->
  k ∈ Feature_Suppression_Distance mdist kpts.
Proof.
  intros Hk Hdom. apply collect_elem. exists i. split; [assumption|].
  intros Hi. apply mark_sound in Hi as [Hi|(p & q & kp & kq & Hpq & Hp & Hq & Hc & Hcase)];
    [by apply elem_of_nil in Hi|].
  destruct Hcase as [[Heq Hv]|[Heq Hv]]; simpl in Heq; subst.
  - assert (kp = k) by congruence. subst kp.
    specialize (Hdom q kq ltac:(lia) Hq (or_introl Hc)).
    unfold prevails, fge, fle in Hv. unfold flt in Hdom.
    apply SFltb_SFleb in Hdom. congruence.
  - assert (kq = k) by congruence. subst kq.
    specialize (Hdom p kp ltac:(lia) Hp (or_intror Hc)).
    apply flt_not_fge in Hdom. unfold prevails in Hv. congruence.
Qed.

(** Where no keypoint is within [mdist] of a later one, nothing is
    removed; in particular the empty vector stays empty. *)
Theorem suppression_unchanged_when_separated (kpts : list KeyPoint) :
  (forall p q kp kq, (p < q)%nat -> kpts !! p = Some kp -> kpts !! q = Some kq ->
     flt (distance kp kq) mdist = false) ->
  Feature_Suppression_Distance mdist kpts = kpts.
Proof.
  intros Hsep. by apply collect_unmarked.
Qed.

End Suppression_properties.

Section Suppression_edge.
Import IEEE Model Suppression.

(** A square root is not negative, and neither is its rounding. *)
Lemma SFsqrt_sign prec emax x :
  SFsqrt prec emax x = SFabs (SFsqrt prec emax x) \/ SFsqrt prec emax x = S754_zero true.
Proof.
  destruct x as [[|]|[|]| |[|] m e]; simpl; auto.
  destruct (SFsqrt_core_binary prec emax (Z.pos m) e) as [[mz ez] lz].
  left. symmetry. apply binary_round_aux_abs.
Qed.

Lemma round_to_sign prec emax x :
  x = SFabs x \/ x = S754_zero true ->
  round_to prec emax x = SFabs (round_to prec emax x) \/ round_to prec emax x = S754_zero true.
Proof.
  intros [H| ->]; [left|by right].
  rewrite <- round_to_abs. by rewrite <- H.
Qed.

Lemma not_below_nonpositive x m :
  x = SFabs x \/ x = S754_zero true ->
  SFleb m (S754_zero false) = true \/ m = S754_nan -> SFltb x m = false.
Proof.
  intros [-> | ->] [Hm | ->].
  - destruct x as [sx|sx| |sx mx ex], m as [sm|[|]| |[|] mm em];
      try discriminate Hm; reflexivity.
  - by destruct x as [sx|sx| |sx mx ex].
  - by destruct m as [sm|[|]| |[|] mm em].
  - reflexivity.
Qed.

(** With [mdist] zero, negative or NaN the test [dist < mdist] never
    holds, and [Feature_Suppression_Distance] returns its input. *)
Theorem suppression_nonpositive_distance (mdist : float) (kpts : list KeyPoint) :
  fle mdist fzero = true \/ is_nan mdist = true ->
  Feature_Suppression_Distance mdist kpts = kpts.
Proof.
  intros Hm. apply collect_unmarked.
  intros p q kp kq _ _ _. unfold closer, flt, distance, to_float, dsqrt. cbn [f32 f64].
  apply not_below_nonpositive.
  - apply round_to_sign, SFsqrt_sign.
  - destruct Hm as [Hm|Hm]; [by left|right].
    unfold is_nan in Hm. by destruct (f32 mdist).
Qed.

End Suppression_edge.

Section Suppression_examples.
Import IEEE Model Suppression Cases.

(** On the three keypoints of the examples and [mdist = 2] the weak one,
    one pixel from the strong one, goes. *)
Example suppression_on_line :
  Feature_Suppression_Distance (fconst 2 0) line_keypoints = [strong_keypoint; far_keypoint].
Proof. vm_compute. reflexivity. Qed.

Lemma suppression_separates_on_line :
  flt (distance strong_keypoint far_keypoint) (fconst 2 0) = false.
Proof.
  apply (suppression_separates (fconst 2 0) line_keypoints 0 1); [lia| |];
    vm_compute; reflexivity.
Defined.

Lemma suppression_keeps_strong :
  strong_keypoint ∈ Feature_Suppression_Distance (fconst 2 0) line_keypoints.
Proof.
  apply (suppression_keeps_dominant (fconst 2 0) line_keypoints 1); [reflexivity|].
  intros [|[|[|j]]] kj Hj Hkj Hc; simpl in Hkj; try (exfalso; congruence);
    try (exfalso; by apply Hj); try (by rewrite lookup_nil in Hkj);
    injection Hkj as <-; vm_compute; reflexivity.
Defined.

Lemma suppression_unchanged_on_pair :
  Feature_Suppression_Distance (fconst 2 0) [strong_keypoint; far_keypoint]
  = [strong_keypoint; far_keypoint].
Proof.
  apply suppression_unchanged_when_separated.
  intros [|[|p]] [|[|[|q]]] kp kq Hpq Hp Hq; simpl in Hp, Hq; try congruence; try lia.
  injection Hp as <-. injection Hq as <-. vm_compute. reflexivity.
Defined.

Lemma suppression_with_zero_distance :
  Feature_Suppression_Distance fzero line_keypoints = line_keypoints.
Proof. apply suppression_nonpositive_distance. left. reflexivity. Defined.

End Suppression_examples.
(* ================================================================== *)
(** * The system that [Thomas] solves *)
(* ================================================================== *)
Section Thomas_solves_section.
Import AOS.
#[local] Existing Instance real_arith.
Local Open Scope R_scope.

(** For [|b| < |m|] the correction [b/m * b] of the next pivot is at most
    [|b|]. *)
Lemma pivot_step (a b m : R) :
  Rabs b < Rabs m -> Rabs a - Rabs b <= Rabs (a - b / m * b).
Proof.
  intros Hbm.
  assert (Hm : m <> 0) by (intros ->; rewrite Rabs_R0 in Hbm; pose proof (Rabs_pos b); lra).
  assert (Hmpos : 0 < Rabs m) by (by apply Rabs_pos_lt).
  assert (Hcorr : Rabs (b / m * b) <= Rabs b).
  { unfold Rdiv. rewrite !Rabs_mult, Rabs_inv.
    pose proof (Rabs_pos b) as Hb.
    assert (Hq : Rabs b * / Rabs m <= 1).
    { apply (Rmult_le_reg_r (Rabs m)); [assumption|].
      rewrite Rmult_assoc, Rinv_l by lra. lra. }
    nra. }
  pose proof (Rabs_triang_inv a (b / m * b)). lra.
Qed.

(** The pivots of a strictly diagonally dominant system dominate the
    off-diagonal entry of their row, and are not zero. *)
Lemma pivots_dominate (n : Z) (a b m : Z -> R) :
  (forall k, (0 <= k < n)%Z ->
     (if decide (1 <= k)%Z then Rabs (b (k - 1)%Z) else 0)
     + (if decide (k < n - 1)%Z then Rabs (b k) else 0) < Rabs (a k)) ->
  m 0%Z = a 0%Z ->
  (forall k, (1 <= k < n)%Z -> m k = a k - b (k - 1)%Z / m (k - 1)%Z * b (k - 1)%Z) ->
  forall k, (0 <= k < n)%Z ->
    (if decide (k < n - 1)%Z then Rabs (b k) else 0) < Rabs (m k).
Proof.
  intros Hdom Hm0 Hrec k Hk.
  rewrite <- (Z2Nat.id k) in * by lia.
  induction (Z.to_nat k) as [|p IH].
  - specialize (Hdom 0%Z ltac:(lia)). rewrite decide_False in Hdom by lia.
    change (Z.of_nat 0) with 0%Z. rewrite Hm0. lra.
  - assert (Hp : (0 <= Z.of_nat p < n)%Z) by lia. specialize (IH Hp).
    rewrite decide_True in IH by lia.
    specialize (Hdom (Z.of_nat (S p)) ltac:(lia)). rewrite decide_True in Hdom by lia.
    rewrite (Hrec (Z.of_nat (S p))) by lia.
    replace (Z.of_nat (S p) - 1)%Z with (Z.of_nat p) in * by lia.
    pose proof (pivot_step (a (Z.of_nat (S p))) (b (Z.of_nat p)) (m (Z.of_nat p)) IH).
    lra.
Qed.

(** The system [Thomas] solves, row by row. *)
Lemma Thomas_solves_system_aux (n W : Z) (a b Ld x : Mat R) :
  (1 <= n)%Z -> (0 <= W)%Z ->
  Mat_is n W a -> Mat_is (n - 1) W b -> Mat_is n W Ld -> Mat_is n W x ->
  (forall k j, (0 <= k < n)%Z -> (0 <= j < W)%Z ->
     (if decide (1 <= k)%Z then Rabs (Mat_at b (k - 1) j) else 0)
     + (if decide (k < n - 1)%Z then Rabs (Mat_at b k j) else 0) < Rabs (Mat_at a k j)) ->
  forall k j, (0 <= k < n)%Z -> (0 <= j < W)%Z ->
    (if decide (1 <= k)%Z then Mat_at b (k - 1) j * Mat_at (Thomas a b Ld x) (k - 1) j else 0)
    + Mat_at a k j * Mat_at (Thomas a b Ld x) k j
    + (if decide (k < n - 1)%Z then Mat_at b k j * Mat_at (Thomas a b Ld x) (k + 1) j else 0)
    = Mat_at Ld k j.
Proof.
  intros Hn HW Ha Hb HLd Hx Hdom k j Hk Hj.
  destruct (Thomas_recurrences n W a b Ld x Hn HW Ha Hb HLd Hx)
    as (m & y & Hrow0 & Hrec & _ & Hlast & Hback).
  set (X := Thomas a b Ld x) in *.
  cbn [asub amul adiv real_arith] in Hrec, Hlast, Hback.
  assert (Hpiv : forall k, (0 <= k < n)%Z ->
            (if decide (k < n - 1)%Z then Rabs (Mat_at b k j) else 0) < Rabs (Mat_at m k j)).
  { apply (pivots_dominate n (fun k => Mat_at a k j) (fun k => Mat_at b k j)
             (fun k => Mat_at m k j)).
    - intros k' Hk'. by apply Hdom.
    - by apply Hrow0.
    - intros k' Hk'. by apply Hrec. }
  assert (Hne : forall k, (0 <= k < n)%Z -> Mat_at m k j <> 0).
  { intros k' Hk' H0. specialize (Hpiv k' Hk'). rewrite H0, Rabs_R0 in Hpiv.
    destruct (decide (k' < n - 1)%Z); [pose proof (Rabs_pos (Mat_at b k' j))|]; lra. }
  assert (HU : forall i, (0 <= i < n)%Z ->
            Mat_at m i j * Mat_at X i j
            + (if decide (i < n - 1)%Z then Mat_at b i j * Mat_at X (i + 1) j else 0)
            = Mat_at y i j).
  { intros i Hi. pose proof (Hne i Hi) as Hmi.
    destruct (decide (i < n - 1)%Z) as [Hlt|Hge].
    - rewrite (Hback i j) by lia. field. exact Hmi.
    - replace i with (n - 1)%Z in * by lia. rewrite (Hlast j) by lia. field. exact Hmi. }
  pose proof (HU k Hk) as HUk.
  destruct (decide (1 <= k)%Z) as [Hk1|Hk0].
  - pose proof (HU (k - 1)%Z ltac:(lia)) as HUp. rewrite decide_True in HUp by lia.
    replace (k - 1 + 1)%Z with k in HUp by lia.
    destruct (Hrec k j ltac:(lia) Hj) as [Em Ey].
    pose proof (Hne (k - 1)%Z ltac:(lia)) as Hmp.
    set (L := Mat_at b (k - 1) j / Mat_at m (k - 1) j) in *.
    assert (HL : L * Mat_at m (k - 1) j = Mat_at b (k - 1) j) by (unfold L; field; exact Hmp).
    assert (HLy : L * Mat_at y (k - 1) j
                  = Mat_at b (k - 1) j * Mat_at X (k - 1) j
                    + L * Mat_at b (k - 1) j * Mat_at X k j).
    { rewrite <- HUp. rewrite <- HL at 2. ring. }
    assert (Ea : Mat_at a k j = Mat_at m k j + L * Mat_at b (k - 1) j) by lra.
    assert (ELd : Mat_at Ld k j = Mat_at y k j + L * Mat_at y (k - 1) j) by lra.
    rewrite Ea, ELd, HLy, <- HUk. ring.
  - replace k with 0%Z in * by lia.
    destruct (Hrow0 j Hj) as [Em Ey]. rewrite <- Em, <- Ey, <- HUk. ring.
Qed.

(** [Thomas] solves the symmetric tridiagonal systems it is given, column
    by column: where the diagonal [a] strictly dominates the off-diagonal
    [b] (the condition of the note above the function), the result [x]
    satisfies [b[k-1]*x[k-1] + a[k]*x[k] + b[k]*x[k+1] = Ld[k]] in every
    row [k], over the reals. *)
Theorem Thomas_solves_dominant_system (n W : Z) (a b Ld x : Mat R) :
  (1 <= n)%Z -> (0 <= W)%Z ->
  Mat_is n W a -> Mat_is (n - 1) W b -> Mat_is n W Ld -> Mat_is n W x ->
  (forall k j, (0 <= k < n)%Z -> (0 <= j < W)%Z ->
     (if decide (1 <= k)%Z then Rabs (Mat_at b (k - 1) j) else 0)
     + (if decide (k < n - 1)%Z then Rabs (Mat_at b k j) else 0) < Rabs (Mat_at a k j)) ->
  forall k j, (0 <= k < n)%Z -> (0 <= j < W)%Z ->
    (if decide (1 <= k)%Z then Mat_at b (k - 1) j * Mat_at (Thomas a b Ld x) (k - 1) j else 0)
    + Mat_at a k j * Mat_at (Thomas a b Ld x) k j
    + (if decide (k < n - 1)%Z then Mat_at b k j * Mat_at (Thomas a b Ld x) (k + 1) j else 0)
    = Mat_at Ld k j.
Proof. apply Thomas_solves_system_aux. Qed.

End Thomas_solves_section.
(* ================================================================== *)
(** * The AOS step over the reals *)
(* ================================================================== *)
Section AOS_real_facts.
Import AOS.
#[local] Existing Instance real_arith.
Local Open Scope R_scope.

Variables (H W : Z) (Ldprev c : Mat R) (stepsize : R) (st : Scratch R).
Hypothesis H_ge_2 : (2 <= H)%Z.
Hypothesis W_ge_2 : (2 <= W)%Z.
Hypothesis Ldprev_is : Mat_is H W Ldprev.
Hypothesis st_is : Scratch_is H W st.
Hypothesis weights : forall i j, (0 <= i < H)%Z -> (0 <= j < W)%Z -> 0 <= stepsize * Mat_at c i j.

Local Abbreviation rw := (AOS_Rows Ldprev c stepsize st).

(** The entries of the system of the row pass. *)
Lemma AOS_Rows_entries (k j : Z) :
  (0 <= k < H)%Z -> (0 <= j < W)%Z ->
  Mat_at (ay rw) k j
  = 1 + stepsize * (if decide (1 <= k < H - 1)%Z
                    then (Mat_at c (k - 1) j + Mat_at c k j) + (Mat_at c k j + Mat_at c (k + 1) j)
                    else if decide (k = H - 1)%Z
                    then Mat_at c (H - 2) j + Mat_at c (H - 1) j
                    else Mat_at c 0 j + Mat_at c 1 j) /\
  ((k < H - 1)%Z ->
   Mat_at (by_ rw) k j = - stepsize * (Mat_at c k j + Mat_at c (k + 1) j)).
Proof.
  intros Hk Hj.
  assert (Hq : forall i, (0 <= i < H - 1)%Z ->
            Mat_at (qr rw) i j = Mat_at c i j + Mat_at c (i + 1) j).
  { intros i Hi.
    destruct (AOS_Rows_qr H W Ldprev c stepsize st st_is i j) as [_ Hqi]; [lia..|].
    exact Hqi. }
  destruct (AOS_Rows_py H W Ldprev c stepsize st H_ge_2 W_ge_2 st_is k j Hk Hj) as [Hpy Hat].
  destruct (AOS_Rows_qr H W Ldprev c stepsize st st_is 0 j) as [Hqr _]; [lia..|].
  split.
  - change (ay rw) with (Mat_map (fun v => aadd aone (amul stepsize v)) (py rw)).
    rewrite (Mat_at_map _ _ H W) by assumption. cbn [aadd aone amul real_arith].
    rewrite Hat. do 2 f_equal.
    repeat case_decide; rewrite !Hq by lia; repeat f_equal; lia.
  - intros Hlt.
    change (by_ rw) with (Mat_map (fun v => amul (aneg stepsize) v) (qr rw)).
    rewrite (Mat_at_map _ _ (H - 1) W) by (assumption || lia).
    cbn [aneg amul real_arith]. by rewrite Hq by lia.
Qed.

Lemma AOS_Rows_shapes :
  Mat_is H W (ay rw) /\ Mat_is (H - 1) W (by_ rw) /\ Mat_is H W (Lty st).
Proof.
  destruct (AOS_Rows_py H W Ldprev c stepsize st H_ge_2 W_ge_2 st_is 0 0) as [Hpy _]; [lia..|].
  destruct (AOS_Rows_qr H W Ldprev c stepsize st st_is 0 0) as [Hqr _]; [lia..|].
  split; [by apply Mat_map_is|]. split; [by apply Mat_map_is|]. apply st_is.
Qed.

(** The system of the row pass is strictly diagonally dominant. *)
Lemma AOS_Rows_dominant (k j : Z) :
  (0 <= k < H)%Z -> (0 <= j < W)%Z ->
  (if decide (1 <= k)%Z then Rabs (Mat_at (by_ rw) (k - 1) j) else 0)
  + (if decide (k < H - 1)%Z then Rabs (Mat_at (by_ rw) k j) else 0)
  < Rabs (Mat_at (ay rw) k j).
Proof.
  intros Hk Hj.
  assert (Hb : forall i, (0 <= i < H - 1)%Z ->
            Rabs (Mat_at (by_ rw) i j)
            = stepsize * Mat_at c i j + stepsize * Mat_at c (i + 1) j).
  { intros i Hi. destruct (AOS_Rows_entries i j ltac:(lia) Hj) as [_ ->]; [|lia].
    pose proof (weights i j ltac:(lia) Hj). pose proof (weights (i + 1) j ltac:(lia) Hj).
    replace (- stepsize * (Mat_at c i j + Mat_at c (i + 1) j))
      with (- (stepsize * Mat_at c i j + stepsize * Mat_at c (i + 1) j)) by ring.
    rewrite Rabs_Ropp. apply Rabs_pos_eq. lra. }
  destruct (AOS_Rows_entries k j Hk Hj) as [-> _].
  pose proof (weights k j Hk Hj) as Hwk.
  destruct (decide (1 <= k)%Z) as [H1|H1]; destruct (decide (k < H - 1)%Z) as [H2|H2].
  - rewrite decide_True by lia. rewrite !Hb by lia.
    replace (k - 1 + 1)%Z with k by lia.
    pose proof (weights (k - 1) j ltac:(lia) Hj). pose proof (weights (k + 1) j ltac:(lia) Hj).
    rewrite Rabs_pos_eq; lra.
  - rewrite decide_False by lia. rewrite decide_True by lia. rewrite Hb by lia.
    replace (k - 1 + 1)%Z with k by lia. replace (H - 2)%Z with (k - 1)%Z by lia.
    replace (H - 1)%Z with k by lia.
    pose proof (weights (k - 1) j ltac:(lia) Hj).
    rewrite Rabs_pos_eq; lra.
  - rewrite decide_False by lia. rewrite decide_False by lia. rewrite Hb by lia.
    replace k with 0%Z in * by lia. change (0 + 1)%Z with 1%Z.
    pose proof (weights 1 j ltac:(lia) Hj).
    rewrite Rabs_pos_eq; lra.
  - lia.
Qed.

(** The row pass, as a implicit diffusion step along each column: the
    change of a pixel is [stepsize] times the difference of the flows
    through its lower and its upper edge, each flow the difference of the
    new values weighted by the sum of the two conductivities. *)
Lemma AOS_Rows_equation (k j : Z) :
  (0 <= k < H)%Z -> (0 <= j < W)%Z ->
  Mat_at (Lty rw) k j - Mat_at Ldprev k j
  = stepsize *
    ((if decide (k < H - 1)%Z
      then (Mat_at c k j + Mat_at c (k + 1) j) * (Mat_at (Lty rw) (k + 1) j - Mat_at (Lty rw) k j)
      else 0)
     - (if decide (1 <= k)%Z
        then (Mat_at c (k - 1) j + Mat_at c k j)
             * (Mat_at (Lty rw) k j - Mat_at (Lty rw) (k - 1) j)
        else 0)).
Proof.
  intros Hk Hj.
  destruct AOS_Rows_shapes as (Hay & Hby & HLty).
  pose proof (Thomas_solves_system_aux H W (ay rw) (by_ rw) Ldprev (Lty st)
                ltac:(lia) ltac:(lia) Hay Hby Ldprev_is HLty AOS_Rows_dominant k j Hk Hj) as Heq.
  change (Thomas (ay rw) (by_ rw) Ldprev (Lty st)) with (Lty rw) in Heq.
  destruct (AOS_Rows_entries k j Hk Hj) as [Ea Eb]. rewrite Ea in Heq.
  rewrite <- Heq.
  destruct (decide (1 <= k)%Z) as [H1|H1]; destruct (decide (k < H - 1)%Z) as [H2|H2].
  - rewrite decide_True by lia. rewrite Eb by lia.
    destruct (AOS_Rows_entries (k - 1) j ltac:(lia) Hj) as [_ ->]; [|lia].
    replace (k - 1 + 1)%Z with k by lia. ring.
  - rewrite decide_False by lia. rewrite decide_True by lia.
    destruct (AOS_Rows_entries (k - 1) j ltac:(lia) Hj) as [_ ->]; [|lia].
    replace (k - 1 + 1)%Z with k by lia. replace (H - 2)%Z with (k - 1)%Z by lia.
    replace (H - 1)%Z with k by lia. ring.
  - rewrite decide_False by lia. rewrite decide_False by lia. rewrite Eb by lia.
    replace k with 0%Z in * by lia. change (0 + 1)%Z with 1%Z. ring.
  - lia.
Qed.

End AOS_real_facts.

Section Sum_facts.
Import Totals.
Local Open Scope R_scope.

Lemma sum_list_ext (f g : Z -> R) (l : list Z) :
  (forall i, i ∈ l -> f i = g i) ->
  fold_right Rplus 0 (map f l) = fold_right Rplus 0 (map g l).
Proof.
  induction l as [|x l IH]; intros Hfg; simpl; [reflexivity|].
  rewrite (Hfg x) by left. rewrite IH; [reflexivity|]. intros i Hi. apply Hfg. by right.
Qed.

Lemma sum_list_plus (f g : Z -> R) (l : list Z) :
  fold_right Rplus 0 (map (fun i => f i + g i) l)
  = fold_right Rplus 0 (map f l) + fold_right Rplus 0 (map g l).
Proof. induction l as [|x l IH]; simpl; [lra|]. rewrite IH. lra. Qed.

Lemma sum_list_scal (a : R) (f : Z -> R) (l : list Z) :
  fold_right Rplus 0 (map (fun i => a * f i) l) = a * fold_right Rplus 0 (map f l).
Proof. induction l as [|x l IH]; simpl; [lra|]. rewrite IH. lra. Qed.

Lemma sum_list_swap (f : Z -> Z -> R) (l1 l2 : list Z) :
  fold_right Rplus 0 (map (fun i => fold_right Rplus 0 (map (fun j => f i j) l2)) l1)
  = fold_right Rplus 0 (map (fun j => fold_right Rplus 0 (map (fun i => f i j) l1)) l2).
Proof.
  induction l1 as [|x l1 IH]; simpl.
  - induction l2 as [|y l2 IH2]; simpl; [reflexivity|]. rewrite <- IH2. lra.
  - rewrite IH. by rewrite <- sum_list_plus.
Qed.

Lemma sum_over_ext (lo hi : Z) (f g : Z -> R) :
  (forall i, (lo <= i < hi)%Z -> f i = g i) -> sum_over lo hi f = sum_over lo hi g.
Proof.
  intros Hfg. apply sum_list_ext. intros i Hi. apply Hfg. apply elem_of_seqZ in Hi. lia.
Qed.

Lemma sum_over_plus (lo hi : Z) (f g : Z -> R) :
  sum_over lo hi (fun i => f i + g i) = sum_over lo hi f + sum_over lo hi g.
Proof. apply sum_list_plus. Qed.

Lemma sum_over_scal (lo hi : Z) (a : R) (f : Z -> R) :
  sum_over lo hi (fun i => a * f i) = a * sum_over lo hi f.
Proof. apply sum_list_scal. Qed.

Lemma sum_over_swap (H W : Z) (f : Z -> Z -> R) :
  sum_over 0 H (fun i => sum_over 0 W (fun j => f i j))
  = sum_over 0 W (fun j => sum_over 0 H (fun i => f i j)).
Proof. apply sum_list_swap. Qed.

Lemma fold_right_Rplus_acc (l : list R) (a : R) :
  fold_right Rplus a l = fold_right Rplus 0 l + a.
Proof. induction l as [|x l IH]; simpl; [lra|]. rewrite IH. lra. Qed.

(** A sum of differences of neighbours telescopes. *)
Lemma sum_over_telescope (hi : Z) (g : Z -> R) :
  (0 <= hi)%Z -> sum_over 0 hi (fun i => g (i + 1)%Z - g i) = g hi - g 0%Z.
Proof.
  intros Hhi. unfold sum_over. rewrite Z.sub_0_r.
  assert (Hn : forall n : nat,
            fold_right Rplus 0 (map (fun i => g (i + 1)%Z - g i) (seqZ 0 (Z.of_nat n)))
            = g (Z.of_nat n) - g 0%Z).
  { induction n as [|n IH].
    - change (Z.of_nat 0) with 0%Z. rewrite seqZ_nil by lia. simpl. lra.
    - rewrite seqZ_S, map_app, fold_right_app. cbn [map fold_right].
      rewrite fold_right_Rplus_acc, IH.
      replace (0 + Z.of_nat n + 1)%Z with (Z.of_nat (S n)) by lia.
      rewrite Z.add_0_l. lra. }
  rewrite <- (Z2Nat.id hi) by lia. apply Hn.
Qed.

End Sum_facts.

Section AOS_step_facts.
Import AOS.
Context {F : Type} {ar : Arith F}.

(** The column pass computes [Ltx] as the row pass computes [Lty] on the
    transposed image and conductivity. *)
Lemma AOS_Columns_as_rows (H W : Z) (Ldprev c : Mat F) (stepsize : F) (st stT : Scratch F) :
  2 <= H -> 2 <= W -> Mat_is H W c -> Scratch_is H W st -> Scratch_is W H stT ->
  Lty stT = Ltx st ->
  Ltx (AOS_Columns Ldprev c stepsize (AOS_Rows Ldprev c stepsize st))
  = Lty (AOS_Rows (Mat_t Ldprev) (Mat_t c) stepsize stT).
Proof.
  intros HH HW Hc Hst HstT Hshared.
  destruct (AOS_Columns_transposed H W Ldprev c stepsize st stT HH HW Hc Hst HstT) as [Hq Hp].
  cbn [AOS_Columns AOS_Rows Ltx Lty qc px] in *. rewrite Hq, Hp, <- Hshared. reflexivity.
Qed.

(** The result of the step, pixel by pixel. *)
Lemma AOS_Step_Scalar_at (H W : Z) (Ldprev c : Mat F) (stepsize : F) (st : Scratch F)
    (i j : Z) :
  2 <= H -> 2 <= W -> Scratch_is H W st -> 0 <= i < H -> 0 <= j < W ->
  Mat_at (fst (AOS_Step_Scalar Ldprev c stepsize st)) i j
  = amul ahalf
      (aadd (Mat_at (Lty (AOS_Rows Ldprev c stepsize st)) i j)
            (Mat_at (Ltx (AOS_Columns Ldprev c stepsize (AOS_Rows Ldprev c stepsize st))) j i)).
Proof.
  intros HH HW Hst Hi Hj.
  destruct (AOS_Rows_frame H W Ldprev c stepsize st Hst) as (_ & _ & _ & HLty).
  destruct (AOS_Columns_frame H W Ldprev c stepsize st Hst) as (_ & _ & _ & HLtx).
  set (rw := AOS_Rows Ldprev c stepsize st) in *.
  set (cl := AOS_Columns Ldprev c stepsize rw) in *.
  change (fst (AOS_Step_Scalar Ldprev c stepsize st))
    with (Mat_map (amul ahalf) (Mat_add (Lty cl) (Mat_t (Ltx cl)))).
  assert (HLtxT : Mat_is H W (Mat_t (Ltx cl))) by (apply Mat_t_is; [lia..|exact HLtx]).
  rewrite (Mat_at_map _ _ H W); [|by apply Mat_add_is|lia..].
  rewrite (Mat_at_add _ _ H W); [|exact HLty|exact HLtxT|lia..].
  by rewrite (Mat_at_t _ W H).
Qed.

End AOS_step_facts.

Section AOS_conservation.
Import AOS Totals.
#[local] Existing Instance real_arith.
Local Open Scope R_scope.

Variables (H W : Z) (Ldprev c : Mat R) (stepsize : R) (st : Scratch R).
Hypothesis H_ge_2 : (2 <= H)%Z.
Hypothesis W_ge_2 : (2 <= W)%Z.
Hypothesis Ldprev_is : Mat_is H W Ldprev.
Hypothesis c_is : Mat_is H W c.
Hypothesis st_is : Scratch_is H W st.
Hypothesis weights : forall i j, (0 <= i < H)%Z -> (0 <= j < W)%Z -> 0 <= stepsize * Mat_at c i j.

(** The row pass keeps the sum of every column. *)
Lemma AOS_Rows_column_sum (j : Z) :
  (0 <= j < W)%Z ->
  sum_over 0 H (fun i => Mat_at (Lty (AOS_Rows Ldprev c stepsize st)) i j)
  = sum_over 0 H (fun i => Mat_at Ldprev i j).
Proof.
  intros Hj. set (T := Lty (AOS_Rows Ldprev c stepsize st)).
  pose (g := fun i : Z =>
    if decide (1 <= i <= H - 1)%Z
    then (Mat_at c (i - 1) j + Mat_at c i j) * (Mat_at T i j - Mat_at T (i - 1) j)
    else 0).
  assert (Hdiff : sum_over 0 H (fun i => Mat_at T i j - Mat_at Ldprev i j) = 0).
  { rewrite (sum_over_ext 0 H _ (fun i => stepsize * (g (i + 1)%Z - g i))).
    - rewrite sum_over_scal, sum_over_telescope by lia. unfold g.
      rewrite !decide_False by lia. lra.
    - intros i Hi. unfold T.
      rewrite (AOS_Rows_equation H W Ldprev c stepsize st H_ge_2 W_ge_2 Ldprev_is st_is
                 weights i j Hi Hj).
      f_equal. unfold g. fold T.
      replace (i + 1 - 1)%Z with i by lia.
      repeat case_decide; try lia; reflexivity. }
  rewrite (sum_over_ext 0 H (fun i => Mat_at T i j)
             (fun i => Mat_at Ldprev i j + (Mat_at T i j - Mat_at Ldprev i j)))
    by (intros; lra).
  rewrite sum_over_plus, Hdiff. lra.
Qed.

End AOS_conservation.

Section AOS_transposition.
Import AOS.
Context {F : Type} {ar : Arith F}.

(** Scratch matrices for the transposed image that share [Ltx]. *)
Lemma AOS_Columns_as_rows_ex (H W : Z) (Ldprev c : Mat F) (stepsize : F) (st : Scratch F) :
  2 <= H -> 2 <= W -> Mat_is H W c -> Scratch_is H W st ->
  exists stT, Scratch_is W H stT /\
    Ltx (AOS_Columns Ldprev c stepsize (AOS_Rows Ldprev c stepsize st))
    = Lty (AOS_Rows (Mat_t Ldprev) (Mat_t c) stepsize stT).
Proof.
  intros HH HW Hc Hst.
  exists {| Ltx := Mat_zeros H W; Lty := Ltx st;
            px := Mat_zeros W H; py := Mat_zeros W H;
            ax := Mat_zeros W H; ay := Mat_zeros W H;
            bx := Mat_zeros (W - 1) H; by_ := Mat_zeros (W - 1) H;
            qr := Mat_zeros (W - 1) H; qc := Mat_zeros W (H - 1) |}.
  assert (HstT : Scratch_is W H
            {| Ltx := Mat_zeros H W; Lty := Ltx st;
               px := Mat_zeros W H; py := Mat_zeros W H;
               ax := Mat_zeros W H; ay := Mat_zeros W H;
               bx := Mat_zeros (W - 1) H; by_ := Mat_zeros (W - 1) H;
               qr := Mat_zeros (W - 1) H; qc := Mat_zeros W (H - 1) |}).
  { unfold Scratch_is. cbn [Ltx Lty px py qr qc].
    repeat split; try apply Mat_zeros_is; apply Hst. }
  split; [exact HstT|].
  by apply (AOS_Columns_as_rows H W).
Qed.

End AOS_transposition.

Section AOS_real_properties.
Import AOS Totals.
#[local] Existing Instance real_arith.
Local Open Scope R_scope.

Variables (H W : Z) (Ldprev c : Mat R) (stepsize : R) (st : Scratch R).
Hypothesis H_ge_2 : (2 <= H)%Z.
Hypothesis W_ge_2 : (2 <= W)%Z.
Hypothesis Ldprev_is : Mat_is H W Ldprev.
Hypothesis c_is : Mat_is H W c.
Hypothesis st_is : Scratch_is H W st.

(** The column pass keeps the sum of every row, and the step is the
    identity along every row and column for the step size zero. *)
Lemma AOS_Columns_row_facts :
  (forall i j, (0 <= i < H)%Z -> (0 <= j < W)%Z -> 0 <= stepsize * Mat_at c i j) ->
  let X := Ltx (AOS_Columns Ldprev c stepsize (AOS_Rows Ldprev c stepsize st)) in
  (forall i, (0 <= i < H)%Z ->
     sum_over 0 W (fun j => Mat_at X j i) = sum_over 0 W (fun j => Mat_at Ldprev i j)) /\
  (stepsize = 0 -> forall i j, (0 <= i < H)%Z -> (0 <= j < W)%Z ->
     Mat_at X j i = Mat_at Ldprev i j).
Proof.
  intros weights X.
  destruct (AOS_Columns_as_rows_ex H W Ldprev c stepsize st H_ge_2 W_ge_2 c_is st_is)
    as (stT & HstT & HX).
  fold X in HX.
  assert (HLdT : Mat_is W H (Mat_t Ldprev)) by (apply Mat_t_is; [lia..|assumption]).
  assert (HwT : forall j i, (0 <= j < W)%Z -> (0 <= i < H)%Z ->
            0 <= stepsize * Mat_at (Mat_t c) j i).
  { intros j i Hj Hi. rewrite (Mat_at_t c H W) by assumption. by apply weights. }
  split.
  - intros i Hi. rewrite HX.
    rewrite (AOS_Rows_column_sum W H (Mat_t Ldprev) (Mat_t c) stepsize stT
               W_ge_2 H_ge_2 HLdT HstT HwT i Hi).
    apply sum_over_ext. intros j Hj. by rewrite (Mat_at_t Ldprev H W).
  - intros Hzero i j Hi Hj. rewrite HX.
    pose proof (AOS_Rows_equation W H (Mat_t Ldprev) (Mat_t c) stepsize stT
                  W_ge_2 H_ge_2 HLdT HstT HwT j i Hj Hi) as Heq.
    assert (Hz : forall e, stepsize * e = 0) by (intros e; rewrite Hzero; ring).
    rewrite Hz in Heq. rewrite (Mat_at_t Ldprev H W) in Heq by assumption. lra.
Qed.

End AOS_real_properties.

Section AOS_real_theorems.
Import AOS Totals.
#[local] Existing Instance real_arith.
Local Open Scope R_scope.

(** Over the reals, with a step size and conductivities that are not
    negative, the row pass of the AOS step is the implicit diffusion
    scheme along each column: the new value [Lty[k,j]] differs from
    [Ldprev[k,j]] by [stepsize] times the flow through the lower edge
    minus the flow through the upper edge, where the flow through the edge
    between two rows is [(c + c') * (difference of the new values)] and
    there is no flow through the border of the image. *)
Theorem AOS_Rows_implicit_scheme (H W : Z) (Ldprev c : Mat R) (stepsize : R)
    (st : Scratch R) (k j : Z) :
  (2 <= H)%Z -> (2 <= W)%Z -> Mat_is H W Ldprev -> Scratch_is H W st ->
  0 <= stepsize ->
  (forall i j, (0 <= i < H)%Z -> (0 <= j < W)%Z -> 0 <= Mat_at c i j) ->
  (0 <= k < H)%Z -> (0 <= j < W)%Z ->
  let Lty' := Lty (AOS_Rows Ldprev c stepsize st) in
  Mat_at Lty' k j - Mat_at Ldprev k j
  = stepsize *
    ((if decide (k < H - 1)%Z
      then (Mat_at c k j + Mat_at c (k + 1) j) * (Mat_at Lty' (k + 1) j - Mat_at Lty' k j)
      else 0)
     - (if decide (1 <= k)%Z
        then (Mat_at c (k - 1) j + Mat_at c k j) * (Mat_at Lty' k j - Mat_at Lty' (k - 1) j)
        else 0)).
Proof.
  intros HH HW HLd Hst Hs Hc Hk Hj. cbv zeta.
  apply (AOS_Rows_equation H W Ldprev c stepsize st HH HW HLd Hst); [|assumption..].
  intros i j' Hi Hj'. apply Rmult_le_pos; [assumption|by apply Hc].
Qed.

(** Over the reals, with a step size and conductivities that are not
    negative, [AOS_Step_Scalar] keeps the sum of the pixels: the result
    [Ld] has the total (and so the average) of [Ldprev]. *)
Theorem AOS_step_preserves_total (H W : Z) (Ldprev c : Mat R) (stepsize : R)
    (st : Scratch R) :
  (2 <= H)%Z -> (2 <= W)%Z -> Mat_is H W Ldprev -> Mat_is H W c -> Scratch_is H W st ->
  0 <= stepsize ->
  (forall i j, (0 <= i < H)%Z -> (0 <= j < W)%Z -> 0 <= Mat_at c i j) ->
  Mat_total H W (fst (AOS_Step_Scalar Ldprev c stepsize st)) = Mat_total H W Ldprev.
Proof.
  intros HH HW HLd Hc Hst Hs Hpos.
  assert (weights : forall i j, (0 <= i < H)%Z -> (0 <= j < W)%Z ->
            0 <= stepsize * Mat_at c i j)
    by (intros i j Hi Hj; apply Rmult_le_pos; [assumption|by apply Hpos]).
  destruct (AOS_Columns_row_facts H W Ldprev c stepsize st HH HW HLd Hc Hst weights)
    as [Hrows _].
  set (T := Lty (AOS_Rows Ldprev c stepsize st)).
  set (X := Ltx (AOS_Columns Ldprev c stepsize (AOS_Rows Ldprev c stepsize st))) in *.
  unfold Mat_total.
  rewrite (sum_over_ext 0 H _
             (fun i => 1 / 2 * (sum_over 0 W (fun j => Mat_at T i j)
                                + sum_over 0 W (fun j => Mat_at X j i)))).
  2:{ intros i Hi. rewrite <- sum_over_plus, <- sum_over_scal.
      apply sum_over_ext. intros j Hj.
      by rewrite (AOS_Step_Scalar_at H W) by assumption. }
  rewrite sum_over_scal, sum_over_plus.
  rewrite (sum_over_ext 0 H (fun i => sum_over 0 W (fun j => Mat_at X j i))
             (fun i => sum_over 0 W (fun j => Mat_at Ldprev i j))) by assumption.
  rewrite (sum_over_swap H W (fun i j => Mat_at T i j)).
  rewrite (sum_over_ext 0 W (fun j => sum_over 0 H (fun i => Mat_at T i j))
             (fun j => sum_over 0 H (fun i => Mat_at Ldprev i j))).
  2:{ intros j Hj. apply (AOS_Rows_column_sum H W Ldprev c stepsize st); assumption. }
  rewrite <- (sum_over_swap H W (fun i j => Mat_at Ldprev i j)). lra.
Qed.

(** Over the reals, [AOS_Step_Scalar] with the step size zero returns the
    image it was given, whatever the conductivity. *)
Theorem AOS_step_zero_stepsize (H W : Z) (Ldprev c : Mat R) (st : Scratch R) (i j : Z) :
  (2 <= H)%Z -> (2 <= W)%Z -> Mat_is H W Ldprev -> Mat_is H W c -> Scratch_is H W st ->
  (0 <= i < H)%Z -> (0 <= j < W)%Z ->
  Mat_at (fst (AOS_Step_Scalar Ldprev c 0 st)) i j = Mat_at Ldprev i j.
Proof.
  intros HH HW HLd Hc Hst Hi Hj.
  assert (weights : forall i j, (0 <= i < H)%Z -> (0 <= j < W)%Z -> 0 <= 0 * Mat_at c i j)
    by (intros; lra).
  destruct (AOS_Columns_row_facts H W Ldprev c 0 st HH HW HLd Hc Hst weights) as [_ Hcols].
  pose proof (AOS_Rows_equation H W Ldprev c 0 st HH HW HLd Hst weights i j Hi Hj) as Hrow.
  rewrite Rmult_0_l in Hrow.
  rewrite (AOS_Step_Scalar_at H W) by assumption.
  rewrite (Hcols eq_refl i j Hi Hj). cbn [amul ahalf aadd real_arith]. lra.
Qed.

End AOS_real_theorems.

Section AOS_real_examples.
Import AOS Totals Cases.
#[local] Existing Instance real_arith.
Local Open Scope R_scope.

Lemma real_conductivity_positive (i j : Z) :
  (0 <= i < 2)%Z -> (0 <= j < 2)%Z -> 0 <= Mat_at real_conductivity i j.
Proof.
  intros Hi Hj.
  assert (Hi' : i = 0%Z \/ i = 1%Z) by lia. assert (Hj' : j = 0%Z \/ j = 1%Z) by lia.
  destruct Hi' as [-> | ->], Hj' as [-> | ->]; unfold Mat_at; simpl; lra.
Qed.

Lemma system_dominant (k j : Z) :
  (0 <= k < 2)%Z -> (0 <= j < 1)%Z ->
  (if decide (1 <= k)%Z then Rabs (Mat_at system_off_diagonal (k - 1) j) else 0)
  + (if decide (k < 2 - 1)%Z then Rabs (Mat_at system_off_diagonal k j) else 0)
  < Rabs (Mat_at system_diagonal k j).
Proof.
  intros Hk Hj.
  assert (Hk' : k = 0%Z \/ k = 1%Z) by lia. assert (Hj' : j = 0%Z) by lia.
  destruct Hk' as [-> | ->]; subst j; repeat case_decide; try lia;
    unfold Mat_at; simpl; rewrite ?Rabs_pos_eq by lra; lra.
Qed.

(** The first row of the 2x2 system of the examples. *)
Lemma Thomas_solves_example :
  Mat_at system_diagonal 0 0
  * Mat_at (Thomas system_diagonal system_off_diagonal system_rhs system_unknown) 0 0
  + Mat_at system_off_diagonal 0 0
    * Mat_at (Thomas system_diagonal system_off_diagonal system_rhs system_unknown) 1 0
  = Mat_at system_rhs 0 0.
Proof.
  pose proof (Thomas_solves_dominant_system 2 1 system_diagonal system_off_diagonal
                system_rhs system_unknown ltac:(lia) ltac:(lia)
                ltac:(repeat split) ltac:(repeat split) ltac:(repeat split)
                ltac:(repeat split) system_dominant 0%Z 0%Z ltac:(lia) ltac:(lia)) as Heq.
  rewrite decide_False in Heq by lia. rewrite decide_True in Heq by lia.
  change (0 + 1)%Z with 1%Z in Heq. lra.
Defined.

Lemma AOS_Rows_scheme_example :
  Mat_at (Lty (AOS_Rows real_image real_conductivity 1 real_scratch)) 0 0
  - Mat_at real_image 0 0
  = 1 * ((Mat_at real_conductivity 0 0 + Mat_at real_conductivity 1 0)
         * (Mat_at (Lty (AOS_Rows real_image real_conductivity 1 real_scratch)) 1 0
            - Mat_at (Lty (AOS_Rows real_image real_conductivity 1 real_scratch)) 0 0)
         - 0).
Proof.
  pose proof (AOS_Rows_implicit_scheme 2 2 real_image real_conductivity 1 real_scratch
                0%Z 0%Z ltac:(lia) ltac:(lia) ltac:(repeat split) ltac:(repeat split)
                ltac:(lra) real_conductivity_positive ltac:(lia) ltac:(lia)) as Heq.
  cbv zeta in Heq. rewrite decide_True in Heq by lia. rewrite decide_False in Heq by lia.
  exact Heq.
Defined.

Lemma AOS_step_total_example :
  Mat_total 2 2 (fst (AOS_Step_Scalar real_image real_conductivity 1 real_scratch))
  = Mat_total 2 2 real_image.
Proof.
  apply AOS_step_preserves_total;
    [lia|lia|repeat split|repeat split|repeat split|lra|apply real_conductivity_positive].
Defined.

Lemma AOS_step_zero_example :
  Mat_at (fst (AOS_Step_Scalar real_image real_conductivity 0 real_scratch)) 1 0
  = Mat_at real_image 1 0.
Proof.
  apply (AOS_step_zero_stepsize 2 2); [lia|lia|repeat split..|lia|lia].
Defined.

End AOS_real_examples.
(* ================================================================== *)
(** * Sampling positions *)
(* ================================================================== *)
Section Limits_facts.
Import IEEE Model Descriptor.

Lemma limits_values (x y width height : Z) :
  Check_Descriptor_Limits x y width height
  = (Z.min (Z.max x 0) (width - 1), Z.min (Z.max y 0) (height - 1)).
Proof.
  unfold Check_Descriptor_Limits.
  destruct (x <? 0) eqn:Hx, (y <? 0) eqn:Hy;
    [apply Z.ltb_lt in Hx|apply Z.ltb_lt in Hx|apply Z.ltb_ge in Hx|apply Z.ltb_ge in Hx];
    [apply Z.ltb_lt in Hy|apply Z.ltb_ge in Hy|apply Z.ltb_lt in Hy|apply Z.ltb_ge in Hy];
    cbv zeta;
    repeat match goal with
           | |- context [?a >? ?b] =>
               let H := fresh in destruct (Z.gtb_spec a b) as [H|H]
           end; f_equal; lia.
Qed.

(** [Check_Descriptor_Limits] clamps: for an image with at least one
    column and one row, the coordinates it returns are those of a pixel,
    the nearest ones to [x] and [y]; coordinates of a pixel are returned
    as they are. *)
Theorem Check_Descriptor_Limits_clamps (x y width height : Z) :
  1 <= width -> 1 <= height ->
  let r := Check_Descriptor_Limits x y width height in
  0 <= fst r < width /\ 0 <= snd r < height /\
  fst r = Z.min (Z.max x 0) (width - 1) /\ snd r = Z.min (Z.max y 0) (height - 1) /\
  (0 <= x < width -> fst r = x) /\ (0 <= y < height -> snd r = y).
Proof.
  intros Hw Hh. cbv zeta. rewrite limits_values. cbn [fst snd]. lia.
Qed.

(** Whatever the sample position (also one that is not a number), the
    four pixels the bilinear interpolation reads lie inside the image, for
    both ways the extractors turn the position into a cell. *)
Theorem corners_within_image (options : KAZEOptions) (p : float * float) (c : corners) :
  1 <= img_width options -> 1 <= img_height options ->
  c = corners_trunc options p \/ c = corners_round options p ->
  0 <= x1 c < img_width options /\ 0 <= x2 c < img_width options /\
  0 <= y1 c < img_height options /\ 0 <= y2 c < img_height options.
Proof.
  intros Hw Hh Hc.
  assert (H : forall a b, let c := corners_from options a b p in
            0 <= x1 c < img_width options /\ 0 <= x2 c < img_width options /\
            0 <= y1 c < img_height options /\ 0 <= y2 c < img_height options).
  { intros a b. unfold corners_from. destruct p as [sx sy].
    rewrite !limits_values. cbn [x1 x2 y1 y2]. lia. }
  destruct Hc as [-> | ->]; apply H.
Qed.

End Limits_facts.

Section Limits_examples.
Import IEEE Model Descriptor Examples.

Lemma limits_on_small_image :
  Check_Descriptor_Limits (-3) 7 5 5 = (0, 4).
Proof.
  pose proof (Check_Descriptor_Limits_clamps (-3) 7 5 5 ltac:(lia) ltac:(lia))
    as (_ & _ & Hx & Hy & _).
  cbv zeta in Hx, Hy. rewrite (surjective_pairing (Check_Descriptor_Limits (-3) 7 5 5)).
  rewrite Hx, Hy. reflexivity.
Defined.

Lemma corners_of_undefined_position :
  0 <= x1 (corners_trunc flat_options (fnan, fnan)) < img_width flat_options /\
  0 <= y2 (corners_trunc flat_options (fnan, fnan)) < img_height flat_options.
Proof.
  destruct (corners_within_image flat_options (fnan, fnan)
              (corners_trunc flat_options (fnan, fnan))
              ltac:(simpl; lia) ltac:(simpl; lia) (or_introl eq_refl))
    as (Hx1 & _ & _ & Hy2).
  split; assumption.
Defined.

End Limits_examples.
(* ================================================================== *)
(** * Invariants of the detector *)
(* ================================================================== *)
Section Detector_invariants.
Import IEEE Model Detector.
Context {ext : Externals}.
Variable options : KAZEOptions.
Variable evolution : KAZEEvolution.

Lemma all_candidates_level (level : Z) (c : KeyPoint) :
  (level, c) ∈ all_candidates options evolution ->
  1 <= level < Z.of_nat (length evolution) - 1 /\
  c ∈ level_candidates options evolution level.
Proof.
  unfold all_candidates, interior_levels. rewrite list_elem_of_In, in_flat_map.
  intros (l & Hl & H). apply in_map_iff in H as (c' & Heq & H).
  inversion Heq; subst. apply list_elem_of_In, elem_of_seqZ in Hl.
  split; [lia|]. by apply list_elem_of_In.
Qed.

(** The dedup step changes the number of keypoints by at most one, and
    never makes it smaller. *)
Lemma dedup_spec_length (level : Z) (cand : KeyPoint) (kpts : list KeyPoint) :
  (length kpts <= length (dedup_spec evolution level cand kpts) <= S (length kpts))%nat /\
  (1 <= length (dedup_spec evolution level cand kpts))%nat.
Proof.
  unfold dedup_spec. destruct (list_find _ kpts) as [[j inc]|] eqn:Hfind.
  - apply list_find_Some in Hfind as (Hj & _).
    apply lookup_lt_Some in Hj.
    destruct (fgt _ _); rewrite ?length_insert; lia.
  - rewrite length_app. simpl. lia.
Qed.

Lemma fold_dedup_length (cs : list (Z * KeyPoint)) (kpts : list KeyPoint) :
  let out := fold_left (fun acc lc => dedup_spec evolution (fst lc) (snd lc) acc) cs kpts in
  (length kpts <= length out <= length kpts + length cs)%nat /\
  (cs <> [] -> 1 <= length out)%nat.
Proof.
  revert kpts. induction cs as [|[l c] cs IH]; intros kpts; cbv zeta; simpl.
  - split; [lia|]. intros H. by destruct H.
  - destruct (IH (dedup_spec evolution l c kpts)) as [Hlen _]. cbv zeta in Hlen.
    destruct (dedup_spec_length l c kpts) as [Hstep Hone].
    split; [lia|]. intros _. lia.
Qed.

(** Where the keypoints of the dedup come from. *)
Lemma detected_keypoints_are_extrema_aux :
  Forall (fun k =>
            exists level ix jx,
              1 <= level < Z.of_nat (length evolution) - 1 /\
              1 <= ix < img_height options - 1 /\
              1 <= jx < img_width options - 1 /\
              extremum_test options evolution level ix jx = true /\
              k = extremum_point evolution level ix jx)
         (Determinant_Hessian_Parallel options evolution []).
Proof.
  rewrite Determinant_Hessian_Parallel_fold.
  apply fold_dedup_Forall; [|constructor].
  apply Forall_forall. intros [level c] Hc. cbn [snd].
  apply all_candidates_level in Hc as [Hlevel Hc].
  apply level_candidates_elem in Hc as (ix & jx & Hix & Hjx & Ht & ->).
  exists level, ix, jx. auto.
Qed.

(** Every keypoint that [Determinant_Hessian_Parallel] returns, started on
    an empty vector, is a detected extremum: the keypoint built at a pixel
    off the border of the image, on a level that is neither the first nor
    the last, where the test of [Find_Extremum_Threading] succeeded. *)
Theorem detected_keypoints_are_extrema :
  (1 <= length evolution)%nat ->
  Forall (fun k =>
            exists level ix jx,
              1 <= level < Z.of_nat (length evolution) - 1 /\
              1 <= ix < img_height options - 1 /\
              1 <= jx < img_width options - 1 /\
              extremum_test options evolution level ix jx = true /\
              k = extremum_point evolution level ix jx)
         (Determinant_Hessian_Parallel options evolution []).
Proof. intros _. apply detected_keypoints_are_extrema_aux. Qed.

(** What [Feature_Detection] leaves of the level of a keypoint. *)
Lemma detection_keeps_level_data_aux :
  Forall (fun k =>
            1 <= class_id k < Z.of_nat (length evolution) - 1 /\
            kp_octave k = octave (evolution_at evolution (class_id k)) /\
            angle k = fzero /\
            exists ix jx,
              1 <= ix < img_height options - 1 /\ 1 <= jx < img_width options - 1 /\
              response k = fabs (Ldet_at evolution (class_id k) ix jx))
         (Feature_Detection options evolution []).
Proof.
  unfold Feature_Detection. rewrite Do_Subpixel_Refinement_omap.
  pose proof detected_keypoints_are_extrema_aux as Hdet.
  induction Hdet as [|k kpts (level & ix & jx & Hl & Hix & Hjx & _ & ->) _ IH];
    simpl; [constructor|].
  unfold refine_one at 1. destruct (refine_accept _); [|assumption].
  constructor; [|assumption].
  unfold refine_update, extremum_point. cbn [class_id kp_octave angle response].
  split; [assumption|]. split; [reflexivity|]. split; [reflexivity|].
  exists ix, jx. auto.
Qed.

(** For an allocated scale space, every keypoint that [Feature_Detection]
    returns belongs to a level that is neither the first nor the last,
    carries the octave of that level and the angle 0, and the response of
    the extremum it comes from. *)
Theorem detection_keeps_level_data :
  (1 <= length evolution)%nat ->
  Forall (fun k =>
            1 <= class_id k < Z.of_nat (length evolution) - 1 /\
            kp_octave k = octave (evolution_at evolution (class_id k)) /\
            angle k = fzero /\
            exists ix jx,
              1 <= ix < img_height options - 1 /\ 1 <= jx < img_width options - 1 /\
              response k = fabs (Ldet_at evolution (class_id k) ix jx))
         (Feature_Detection options evolution []).
Proof. intros _. apply detection_keeps_level_data_aux. Qed.

(** A scale space of one or two levels has no level between the first and
    the last: [Feature_Detection] returns no keypoint. *)
Theorem detection_needs_three_levels :
  (1 <= length evolution <= 2)%nat -> Feature_Detection options evolution [] = [].
Proof.
  intros Hn. pose proof detection_keeps_level_data_aux as Hall.
  destruct (Feature_Detection options evolution []) as [|k l]; [reflexivity|].
  inversion Hall as [|? ? (Hlevel & _) _]; subst. lia.
Qed.

(** The keypoints are never more than the candidates: the dedup adds at
    most one keypoint per candidate and the refinement only removes; and
    where there is a candidate, [Determinant_Hessian_Parallel] returns a
    keypoint. *)
Theorem detection_counts :
  (1 <= length evolution)%nat ->
  (length (Feature_Detection options evolution [])
   <= length (Determinant_Hessian_Parallel options evolution [])
   <= length (all_candidates options evolution))%nat /\
  (all_candidates options evolution <> [] ->
   Determinant_Hessian_Parallel options evolution [] <> []).
Proof.
  intros _.
  unfold Feature_Detection. rewrite Do_Subpixel_Refinement_omap.
  rewrite Determinant_Hessian_Parallel_fold.
  destruct (fold_dedup_length (all_candidates options evolution) []) as [Hlen Hne].
  cbv zeta in Hlen, Hne. simpl in Hlen.
  split; [split; [|lia]|].
  - generalize (fold_left (fun acc lc => dedup_spec evolution (fst lc) (snd lc) acc)
                          (all_candidates options evolution) []).
    intros l. induction l as [|k l IH]; [simpl; lia|].
    cbn [omap list_omap]. destruct (refine_one options evolution k); simpl; lia.
  - intros Hc Hout. specialize (Hne Hc). rewrite Hout in Hne. simpl in Hne. lia.
Qed.

End Detector_invariants.

Section Detector_invariant_examples.
Import IEEE Model Detector Examples Cases.

Lemma plateau_keypoints_are_extrema :
  Forall (fun k =>
            exists level ix jx,
              1 <= level < Z.of_nat (length plateau_evolution) - 1 /\
              1 <= ix < img_height plateau_options - 1 /\
              1 <= jx < img_width plateau_options - 1 /\
              extremum_test (ext := Reference.externals) plateau_options plateau_evolution
                level ix jx = true /\
              k = extremum_point plateau_evolution level ix jx)
         (Determinant_Hessian_Parallel (ext := Reference.externals)
            plateau_options plateau_evolution []).
Proof.
  apply (detected_keypoints_are_extrema (ext := Reference.externals)). simpl. lia.
Defined.

Lemma plateau_keypoints_level_data :
  Forall (fun k =>
            1 <= class_id k < Z.of_nat (length plateau_evolution) - 1 /\
            kp_octave k = octave (evolution_at plateau_evolution (class_id k)) /\
            angle k = fzero /\
            exists ix jx,
              1 <= ix < img_height plateau_options - 1 /\
              1 <= jx < img_width plateau_options - 1 /\
              response k = fabs (Ldet_at plateau_evolution (class_id k) ix jx))
         (Feature_Detection (ext := Reference.externals) plateau_options plateau_evolution []).
Proof.
  apply (detection_keeps_level_data (ext := Reference.externals)). simpl. lia.
Defined.

Lemma two_levels_no_keypoints :
  Feature_Detection (ext := Reference.externals) plateau_options two_levels [] = [].
Proof.
  apply (detection_needs_three_levels (ext := Reference.externals)). simpl. lia.
Defined.

Lemma plateau_counts :
  (length (Feature_Detection (ext := Reference.externals) plateau_options plateau_evolution [])
   <= length (Determinant_Hessian_Parallel (ext := Reference.externals)
                plateau_options plateau_evolution [])
   <= length (all_candidates (ext := Reference.externals) plateau_options plateau_evolution))%nat.
Proof.
  apply (detection_counts (ext := Reference.externals)). simpl. lia.
Defined.

End Detector_invariant_examples.
(* ================================================================== *)
(** * The angle of an undefined vector *)
(* ================================================================== *)
Section Angle_facts.
Import IEEE Model Angle.
Context {ext : Externals}.

Lemma compare_with_zero (a : float) :
  (is_nan a = true /\ fge a fzero = false /\ flt a fzero = false) \/
  (is_nan a = false /\ (fge a fzero = true \/ flt a fzero = true)).
Proof.
  destruct a as [[[|]|[|]| |[|] m e]]; cbv; auto.
Qed.

(** The four tests of [Get_Angle] all fail exactly when [X] or [Y] is
    NaN: then, and only then, the function falls through to its last line
    and returns 0; for every other pair one of the four cases applies. *)
Theorem Get_Angle_falls_through (X Y : float) :
  (is_nan X || is_nan Y = true -> Get_Angle X Y = fzero) /\
  (is_nan X || is_nan Y = false ->
   (fge X fzero && fge Y fzero) || (flt X fzero && fge Y fzero)
   || (flt X fzero && flt Y fzero) || (fge X fzero && flt Y fzero) = true).
Proof.
  split; intros Hn.
  - unfold Get_Angle.
    destruct (compare_with_zero X) as [(HnX & HgX & HlX)|(HnX & HX)];
      destruct (compare_with_zero Y) as [(HnY & HgY & HlY)|(HnY & HY)].
    + by rewrite HgX, HlX.
    + by rewrite HgX, HlX.
    + by rewrite HgY, HlY, !andb_false_r.
    + rewrite HnX, HnY in Hn. discriminate.
  - apply orb_false_iff in Hn as [HnX HnY].
    destruct (compare_with_zero X) as [(HnX' & _)|(_ & HX)]; [congruence|].
    destruct (compare_with_zero Y) as [(HnY' & _)|(_ & HY)]; [congruence|].
    destruct (fge X fzero), (flt X fzero), (fge Y fzero), (flt Y fzero);
      try reflexivity; destruct HX, HY; discriminate.
Qed.

End Angle_facts.
(* ================================================================== *)
(** * The layout of the scale space *)
(* ================================================================== *)
Section ScaleSpace_layout.
Import AOS ScaleSpace.
Context {F : Type} {sc : Scalar F}.

(** [Allocate_Memory_Evolution], called on an empty vector, stores
    [omax * nsublevels] levels, octave by octave: the level of index [k]
    is the sublevel [k mod nsublevels] of the octave [k / nsublevels]. *)
Theorem evolution_storage_order (options : KAZEOptions F) :
  0 <= omax options -> 1 <= nsublevels options ->
  let evolution := fst (Allocate_Memory_Evolution options []) in
  Z.of_nat (length evolution) = omax options * nsublevels options /\
  forall k, 0 <= k < omax options * nsublevels options ->
    exists level,
      evolution !! Z.to_nat k = Some level /\
      level = new_level options (k / nsublevels options) (k mod nsublevels options) /\
      octave level = k / nsublevels options /\
      sublevel level = k mod nsublevels options.
Proof.
  intros Ho Hn. cbv zeta. rewrite Allocate_Memory_Evolution_levels by assumption.
  split.
  - rewrite length_map, length_seqZ. nia.
  - intros k Hk. eexists. split; [|split; [reflexivity|split; reflexivity]].
    rewrite list_lookup_fmap.
    rewrite (proj2 (lookup_seqZ 0 (omax options * nsublevels options) (Z.to_nat k) k)) by lia.
    reflexivity.
Qed.

(** Without an octave or without a sublevel nothing is stored. *)
Theorem evolution_without_levels (options : KAZEOptions F) :
  omax options <= 0 \/ nsublevels options <= 0 ->
  fst (Allocate_Memory_Evolution options []) = [].
Proof.
  intros H. unfold Allocate_Memory_Evolution. cbn [fst].
  destruct (Z_le_gt_dec (omax options) 0) as [Ho|Ho].
  - by rewrite for_range_empty by lia.
  - assert (Hn : nsublevels options <= 0) by lia.
    apply for_range_inv; [reflexivity|]. intros i acc _ ->.
    by rewrite for_range_empty by lia.
Qed.

End ScaleSpace_layout.

Section ScaleSpace_octaves.
Import AOS ScaleSpace.
Local Open Scope R_scope.

(** In exact arithmetic one octave up doubles [esigma] and quadruples
    [etime], at every sublevel. *)
Theorem octave_doubles_scale (options : KAZEOptions R) (i j : Z) :
  esigma (new_level (sc := real_scalar) options (i + 1) j)
  = 2 * esigma (new_level (sc := real_scalar) options i j) /\
  etime (new_level (sc := real_scalar) options (i + 1) j)
  = 4 * etime (new_level (sc := real_scalar) options i j).
Proof.
  assert (He : esigma (new_level (sc := real_scalar) options (i + 1) j)
               = 2 * esigma (new_level (sc := real_scalar) options i j)).
  { unfold new_level. cbn. rewrite plus_IZR.
    rewrite <- Rplus_assoc, Rpower_plus, Rpower_1 by lra. ring. }
  split; [exact He|]. rewrite !real_level_etime, He. ring.
Qed.

End ScaleSpace_octaves.

Section ScaleSpace_layout_examples.
Import IEEE AOS ScaleSpace Examples.

Lemma float_evolution_order :
  Z.of_nat (length float_evolution) = 4 /\
  exists level, float_evolution !! 2%nat = Some level /\ octave level = 2 /\ sublevel level = 0.
Proof.
  destruct (evolution_storage_order (sc := float_scalar (ext := Reference.externals))
              float_options ltac:(simpl; lia) ltac:(simpl; lia)) as [Hlen Hat].
  split; [exact Hlen|].
  destruct (Hat 2 ltac:(simpl; lia)) as (level & Hl & _ & Ho & Hs).
  exists level. split; [exact Hl|]. split; [exact Ho|exact Hs].
Defined.

Lemma no_octaves_no_levels :
  fst (Allocate_Memory_Evolution (sc := float_scalar (ext := Reference.externals))
         (mkOptions 2 2 0 4 (fconst 1 0)) []) = [].
Proof. apply evolution_without_levels. left. simpl. lia. Defined.

End ScaleSpace_layout_examples.
(* ================================================================== *)
(** * The rows the extractors write *)
(* ================================================================== *)
Section Row_facts.
Import IEEE Model Descriptor.

Local Abbreviation same_prefix n st st' :=
  (dcount st = dcount st' /\ len st = len st' /\
   length (desc st) = n /\ length (desc st') = n /\
   take (dcount st) (desc st) = take (dcount st') (desc st')).

Lemma write_rel (n : nat) (v : float) (st st' : out_state) :
  same_prefix n st st' ->
  same_prefix n (mkOut (<[dcount st := v]> (desc st)) (S (dcount st)) (len st))
                (mkOut (<[dcount st' := v]> (desc st')) (S (dcount st')) (len st')).
Proof.
  intros (Hd & Hl & Hn & Hn' & Ht). cbn [dcount len desc]. rewrite <- Hd in *.
  rewrite !length_insert. repeat split; try assumption; try congruence.
  destruct (decide (dcount st < n)%nat) as [Hlt|Hge].
  - rewrite (take_S_r _ _ v) by (apply list_lookup_insert_eq; lia).
    rewrite (take_S_r _ _ v) by (apply list_lookup_insert_eq; lia).
    rewrite !take_insert_ge by lia. by rewrite Ht.
  - rewrite !list_insert_ge by lia. rewrite !take_ge in * by lia. assumption.
Qed.

Lemma store_rel (n : nat) (vals : list float) (sq : float) (st st' : out_state) :
  same_prefix n st st' -> same_prefix n (store vals sq st) (store vals sq st').
Proof.
  intros H. unfold store.
  assert (Hfold : same_prefix n
            (fold_left (fun st v => mkOut (<[dcount st := v]> (desc st)) (S (dcount st)) (len st))
                       vals st)
            (fold_left (fun st v => mkOut (<[dcount st := v]> (desc st)) (S (dcount st)) (len st))
                       vals st')).
  { revert st st' H. induction vals as [|v vals IH]; intros st st' H; [exact H|].
    cbn [fold_left]. apply IH. by apply write_rel. }
  destruct Hfold as (Hd & Hl & Hn & Hn' & Ht). cbn [dcount len desc].
  repeat split; try assumption. by rewrite Hl.
Qed.

Lemma store_dcount (vals : list float) (sq : float) (st : out_state) :
  dcount (store vals sq st) = (dcount st + length vals)%nat.
Proof.
  unfold store. cbn [dcount]. revert st. induction vals as [|v vals IH]; intros st.
  - simpl. lia.
  - cbn [fold_left]. rewrite IH. simpl. lia.
Qed.

Lemma same_prefix_full (n : nat) (st st' : out_state) :
  same_prefix n st st' -> (n <= dcount st)%nat -> st = st'.
Proof.
  intros (Hd & Hl & Hn & Hn' & Ht) Hfull.
  destruct st as [d c l], st' as [d' c' l']. cbn [dcount len desc] in *. subst.
  rewrite !take_ge in Ht by lia. by subst.
Qed.

Lemma init_rel (n : nat) (desc0 desc0' : list float) :
  length desc0 = n -> length desc0' = n ->
  same_prefix n (mkOut desc0 0%nat fzero) (mkOut desc0' 0%nat fzero).
Proof. intros H H'. cbn [dcount len desc]. by rewrite !take_0. Qed.

(** A [while] loop whose body is a total function [step] and whose test
    holds on the first [k] states reached and fails on the next one. *)
Lemma while_loop_counted {St} (cond : St -> bool) (body : St -> option St)
      (step : St -> St) (k fuel : nat) (s : St) :
  (forall t, body t = Some (step t)) ->
  (forall i, (i < k)%nat -> cond (Nat.iter i step s) = true) ->
  cond (Nat.iter k step s) = false ->
  (k <= fuel)%nat ->
  while_loop fuel cond body s = Some (Nat.iter k step s).
Proof.
  intros Hbody. revert fuel s. induction k as [|k IH]; intros fuel s Htrue Hfalse Hfuel.
  - simpl in Hfalse. destruct fuel; simpl; by rewrite Hfalse.
  - destruct fuel as [|fuel]; [lia|]. simpl while_loop.
    pose proof (Htrue 0%nat ltac:(lia)) as H0. simpl in H0. rewrite H0, Hbody.
    rewrite Nat.iter_succ_r. apply IH; [| |lia].
    + intros i Hi. rewrite <- Nat.iter_succ_r. apply Htrue. lia.
    + by rewrite <- Nat.iter_succ_r.
Qed.

Lemma iter_rel {St} (R : St -> St -> Prop) (step : St -> St) (k : nat) (s s' : St) :
  (forall t t', R t t' -> R (step t) (step t')) ->
  R s s' -> R (Nat.iter k step s) (Nat.iter k step s').
Proof. intros Hstep Hs. induction k as [|k IH]; simpl; auto. Qed.

Lemma iter_dcount {St} (out : St -> out_state) (f : St -> St) (c : nat) :
  (forall t, dcount (out (f t)) = (dcount (out t) + c)%nat) ->
  forall k t, dcount (out (Nat.iter k f t)) = (dcount (out t) + k * c)%nat.
Proof.
  intros Hf k t. induction k as [|k IH]; [simpl; lia|].
  rewrite Nat.iter_succ, Hf, IH. lia.
Qed.

(** The four iterations of a loop of the SURF grid. *)
Lemma for_step_grid {St} (body : Z -> St -> St) (s : St) :
  for_step (-10) 10 5 body s = body 5 (body 0 (body (-5) (body (-10) s))).
Proof. reflexivity. Qed.

Section Grids.
Context {A : Type} `{ext : Externals}.
Variables (cell_of : Z -> Z -> A) (emit : A -> list float) (sq : A -> float) (m : nat).
Hypothesis emit_length : forall s, length (emit s) = m.

(** The SURF grid writes [16 * m] entries, whatever the row held before. *)
Lemma grid_overwrites (desc0 desc0' : list float) :
  length desc0 = (16 * m)%nat -> length desc0' = (16 * m)%nat ->
  grid cell_of emit sq desc0 = grid cell_of emit sq desc0' /\
  length (desc (grid cell_of emit sq desc0)) = (16 * m)%nat.
Proof.
  intros H0 H0'.
  assert (Hrel : same_prefix (16 * m)%nat (grid cell_of emit sq desc0)
                                           (grid cell_of emit sq desc0')).
  { unfold grid. rewrite !for_step_grid. cbv beta zeta. rewrite ?for_step_grid. cbv beta zeta.
    repeat apply store_rel. by apply init_rel. }
  split; [|apply Hrel].
  apply (same_prefix_full (16 * m)%nat); [exact Hrel|].
  unfold grid. rewrite !for_step_grid. cbv beta zeta. rewrite ?for_step_grid. cbv beta zeta.
  rewrite !store_dcount, !emit_length. cbn [dcount]. lia.
Qed.

(** *** The M-SURF grid *)
Variable cy_step : float -> float.

Local Abbreviation stepI i cx :=
  (fun t : msurf_inner =>
     let cy := cy_step (w_cy' t) in
     let j := w_j t - 4 in
     let c := cell_of i j in
     let gauss_s2 := gaussian (fsub cx (fconst 1 1)) (fsub cy (fconst 1 1)) (fconst 3 (-1)) in
     mkInner (j + 9) cy
       (store (weighted (emit c) gauss_s2) (weighted_sq (sq c) gauss_s2) (w_out' t))).

Local Abbreviation stepO :=
  (fun s : msurf_outer =>
     let i := w_i s - 4 in
     let cx := to_float (dadd (to_double (w_cx s)) d1_0) in
     let cy := fconst (-1) (-1) in
     let t := Nat.iter 4 (stepI i cx) (mkInner (-8) cy (w_out s)) in
     mkOuter (i + 9) cx (w_cy' t) (w_out' t)).

Local Abbreviation startO desc0 :=
  (mkOuter (-8) (fconst (-1) (-1)) (fconst 1 (-1)) (mkOut desc0 0%nat fzero)).

Local Abbreviation relI n t t' :=
  (w_j t = w_j t' /\ w_cy' t = w_cy' t' /\ same_prefix n (w_out' t) (w_out' t')).
Local Abbreviation relO n s s' :=
  (w_i s = w_i s' /\ w_cx s = w_cx s' /\ w_cy s = w_cy s' /\
   same_prefix n (w_out s) (w_out s')).

(** Both [while] loops run four times. *)
Lemma msurf_inner_run (i : Z) (cx cy : float) (out : out_state) :
  while_loop 20 (fun t => w_j t <? 12) (fun t => Some (stepI i cx t)) (mkInner (-8) cy out)
  = Some (Nat.iter 4 (stepI i cx) (mkInner (-8) cy out)).
Proof.
  apply while_loop_counted; [reflexivity| |reflexivity|lia].
  intros [|[|[|[|k]]]] Hk; try lia; reflexivity.
Qed.

Lemma msurf_grid_run (desc0 : list float) :
  msurf_grid cy_step cell_of emit sq desc0
  = Some (w_out (Nat.iter 4 stepO (startO desc0))).
Proof.
  unfold msurf_grid. cbv zeta.
  rewrite (while_loop_counted _ _ stepO 4 20); [reflexivity| | |reflexivity|lia].
  - intros s. cbv beta zeta. by rewrite msurf_inner_run.
  - intros [|[|[|[|k]]]] Hk; try lia; reflexivity.
Qed.

Lemma stepI_rel (n : nat) (i : Z) (cx : float) (t t' : msurf_inner) :
  relI n t t' -> relI n (stepI i cx t) (stepI i cx t').
Proof.
  intros (Hj & Hcy & Hout). cbv beta zeta. cbn [w_j w_cy' w_out'].
  rewrite Hj, Hcy. split; [reflexivity|]. split; [reflexivity|]. by apply store_rel.
Qed.

Lemma stepI_dcount (i : Z) (cx : float) (k : nat) (t : msurf_inner) :
  dcount (w_out' (Nat.iter k (stepI i cx) t)) = (dcount (w_out' t) + k * m)%nat.
Proof.
  revert k t. apply (iter_dcount w_out'). intros t. cbv beta zeta. cbn [w_out'].
  rewrite store_dcount. unfold weighted. by rewrite length_map, emit_length.
Qed.

Lemma stepO_rel (n : nat) (s s' : msurf_outer) :
  relO n s s' -> relO n (stepO s) (stepO s').
Proof.
  intros (Hi & Hcx & Hcy & Hout). cbv beta zeta. cbn [w_i w_cx w_cy w_out].
  rewrite Hi, Hcx.
  match goal with |- context [Nat.iter 4 ?f (mkInner (-8) ?c (w_out s))] =>
    pose proof (iter_rel (fun t t' => relI n t t') f 4
                  (mkInner (-8) c (w_out s)) (mkInner (-8) c (w_out s'))
                  (stepI_rel n _ _)) as Hinner
  end.
  assert (Hstart : relI n (mkInner (-8) (fconst (-1) (-1)) (w_out s))
                          (mkInner (-8) (fconst (-1) (-1)) (w_out s'))).
  { cbn [w_j w_cy' w_out']. split; [reflexivity|]. split; [reflexivity|]. exact Hout. }
  destruct (Hinner Hstart) as (Hj' & Hcy' & Hout').
  split; [reflexivity|]. split; [reflexivity|]. split; assumption.
Qed.

Lemma stepO_dcount (k : nat) (s : msurf_outer) :
  dcount (w_out (Nat.iter k stepO s)) = (dcount (w_out s) + k * (4 * m))%nat.
Proof.
  revert k s. apply (iter_dcount w_out). intros s. cbv beta zeta. cbn [w_out].
  rewrite stepI_dcount. cbn [w_out']. lia.
Qed.

(** The M-SURF grid ends, and writes [16 * m] entries, whatever the row
    held before. *)
Lemma msurf_grid_overwrites (desc0 desc0' : list float) :
  length desc0 = (16 * m)%nat -> length desc0' = (16 * m)%nat ->
  exists st,
    msurf_grid cy_step cell_of emit sq desc0 = Some st /\
    msurf_grid cy_step cell_of emit sq desc0' = Some st /\
    length (desc st) = (16 * m)%nat.
Proof.
  intros H0 H0'. rewrite !msurf_grid_run.
  pose proof (iter_rel (fun s s' => relO (16 * m)%nat s s') stepO 4
                (startO desc0) (startO desc0') (stepO_rel _)) as Hrel.
  assert (Hstart : relO (16 * m)%nat (startO desc0) (startO desc0')).
  { cbn [w_i w_cx w_cy w_out]. split; [reflexivity|]. split; [reflexivity|].
    split; [reflexivity|]. by apply init_rel. }
  destruct (Hrel Hstart) as (_ & _ & _ & Hout).
  eexists. split; [reflexivity|]. split.
  - f_equal. symmetry. apply (same_prefix_full (16 * m)%nat); [exact Hout|].
    rewrite stepO_dcount. cbn [w_out dcount]. lia.
  - apply Hout.
Qed.

End Grids.
End Row_facts.

Section Row_theorems.
Import IEEE Model Descriptor.
Context {ext : Externals}.

Lemma Clipping_Descriptor_length (d : list float) (dsize niter : Z) (ratio : float) :
  length (Clipping_Descriptor d dsize niter ratio) = length d.
Proof.
  unfold Clipping_Descriptor.
  apply (for_range_inv (fun d' => length d' = length d)); [reflexivity|].
  intros _ d1 _ Hl1.
  match goal with |- context [for_range 0 dsize ?bdy (d1, fzero)] =>
    pose proof (for_range_inv
      (fun p : list float * float => length (fst p) = length d)
      0 dsize bdy (d1, fzero) Hl1) as Hinner
  end.
  destruct (for_range 0 dsize _ (d1, fzero)) as [d2 len2].
  assert (Hl2 : length d2 = length d).
  { apply Hinner. intros j [d' len'] _ Hd'. simpl in *. by rewrite length_insert. }
  apply (for_range_inv (fun d' => length d' = length d)); [assumption|].
  intros j d3 _ Hl3. by rewrite length_insert.
Qed.

Lemma normalize_length (dsize : Z) (st : out_state) :
  length (normalize dsize st) = length (desc st).
Proof.
  unfold normalize.
  assert (H : length (for_range 0 dsize (fun i d =>
                <[Z.to_nat i := fdiv (nth (Z.to_nat i) d fzero) (fsqrt (len st))]> d) (desc st))
              = length (desc st)).
  { apply (for_range_inv (fun d' => length d' = length (desc st))); [reflexivity|].
    intros j d3 _ Hl3. by rewrite length_insert. }
  destruct USE_CLIPPING_NORMALIZATION; [|exact H].
  by rewrite Clipping_Descriptor_length.
Qed.

Lemma normalize_grid_overwrites {A} (dsize : Z) (m : nat)
      (cell_of : Z -> Z -> A) (emit : A -> list float) (sq : A -> float)
      (desc0 desc0' : list float) :
  (forall s, length (emit s) = m) ->
  length desc0 = (16 * m)%nat -> length desc0' = (16 * m)%nat ->
  normalize dsize (grid cell_of emit sq desc0) = normalize dsize (grid cell_of emit sq desc0') /\
  length (normalize dsize (grid cell_of emit sq desc0)) = (16 * m)%nat.
Proof.
  intros Hm H0 H0'.
  destruct (grid_overwrites cell_of emit sq m Hm desc0 desc0' H0 H0') as [Heq Hlen].
  split; [by rewrite Heq|]. by rewrite normalize_length.
Qed.

Lemma normalize_msurf_grid_overwrites {A} (dsize : Z) (m : nat) (cy_step : float -> float)
      (cell_of : Z -> Z -> A) (emit : A -> list float) (sq : A -> float)
      (desc0 desc0' : list float) :
  (forall s, length (emit s) = m) ->
  length desc0 = (16 * m)%nat -> length desc0' = (16 * m)%nat ->
  exists row,
    option_map (normalize dsize) (msurf_grid cy_step cell_of emit sq desc0) = Some row /\
    option_map (normalize dsize) (msurf_grid cy_step cell_of emit sq desc0') = Some row /\
    length row = (16 * m)%nat.
Proof.
  intros Hm H0 H0'.
  destruct (msurf_grid_overwrites cell_of emit sq m Hm cy_step desc0 desc0' H0 H0')
    as (st & -> & -> & Hlen).
  eexists. split; [reflexivity|]. split; [reflexivity|]. by rewrite normalize_length.
Qed.

Variable options : KAZEOptions.
Variable evolution : KAZEEvolution.
Variable kpt : KeyPoint.

(** The statement of the theorem below, for the proofs that build on it. *)
Lemma extractors_overwrite_rows_aux (d64 d64' d128 d128' : list float) :
  length d64 = 64%nat -> length d64' = 64%nat ->
  length d128 = 128%nat -> length d128' = 128%nat ->
  (Get_SURF_Upright_Descriptor_64 options evolution kpt d64
   = Get_SURF_Upright_Descriptor_64 options evolution kpt d64' /\
   length (Get_SURF_Upright_Descriptor_64 options evolution kpt d64) = 64%nat) /\
  (Get_SURF_Descriptor_64 options evolution kpt d64
   = Get_SURF_Descriptor_64 options evolution kpt d64' /\
   length (Get_SURF_Descriptor_64 options evolution kpt d64) = 64%nat) /\
  (Get_SURF_Upright_Descriptor_128 options evolution kpt d128
   = Get_SURF_Upright_Descriptor_128 options evolution kpt d128' /\
   length (Get_SURF_Upright_Descriptor_128 options evolution kpt d128) = 128%nat) /\
  (Get_SURF_Descriptor_128 options evolution kpt d128
   = Get_SURF_Descriptor_128 options evolution kpt d128' /\
   length (Get_SURF_Descriptor_128 options evolution kpt d128) = 128%nat) /\
  (Get_GSURF_Descriptor_64 options evolution kpt d64
   = Get_GSURF_Descriptor_64 options evolution kpt d64' /\
   length (Get_GSURF_Descriptor_64 options evolution kpt d64) = 64%nat) /\
  (Get_GSURF_Upright_Descriptor_64 options evolution kpt d64
   = Get_GSURF_Upright_Descriptor_64 options evolution kpt d64' /\
   length (Get_GSURF_Upright_Descriptor_64 options evolution kpt d64) = 64%nat) /\
  (Get_GSURF_Descriptor_128 options evolution kpt d128
   = Get_GSURF_Descriptor_128 options evolution kpt d128' /\
   length (Get_GSURF_Descriptor_128 options evolution kpt d128) = 128%nat) /\
  (exists row, Get_MSURF_Upright_Descriptor_64 options evolution kpt d64 = Some row /\
               Get_MSURF_Upright_Descriptor_64 options evolution kpt d64' = Some row /\
               length row = 64%nat) /\
  (exists row, Get_MSURF_Descriptor_64 options evolution kpt d64 = Some row /\
               Get_MSURF_Descriptor_64 options evolution kpt d64' = Some row /\
               length row = 64%nat) /\
  (exists row, Get_MSURF_Upright_Descriptor_128 options evolution kpt d128 = Some row /\
               Get_MSURF_Upright_Descriptor_128 options evolution kpt d128' = Some row /\
               length row = 128%nat) /\
  (exists row, Get_MSURF_Descriptor_128 options evolution kpt d128 = Some row /\
               Get_MSURF_Descriptor_128 options evolution kpt d128' = Some row /\
               length row = 128%nat).
Proof.
  intros H64 H64' H128 H128'.
  assert (E64 : forall s, length (emit64 s) = 4%nat) by reflexivity.
  assert (E128 : forall s, length (emit128 s) = 8%nat) by reflexivity.
  split; [unfold Get_SURF_Upright_Descriptor_64;
          exact (normalize_grid_overwrites 64 4 _ _ _ _ _ E64 H64 H64')|].
  split; [unfold Get_SURF_Descriptor_64;
          exact (normalize_grid_overwrites 64 4 _ _ _ _ _ E64 H64 H64')|].
  split; [unfold Get_SURF_Upright_Descriptor_128;
          exact (normalize_grid_overwrites 128 8 _ _ _ _ _ E128 H128 H128')|].
  split; [unfold Get_SURF_Descriptor_128;
          exact (normalize_grid_overwrites 128 8 _ _ _ _ _ E128 H128 H128')|].
  split; [unfold Get_GSURF_Descriptor_64;
          exact (normalize_grid_overwrites 64 4 _ _ _ _ _ E64 H64 H64')|].
  split; [unfold Get_GSURF_Upright_Descriptor_64;
          exact (normalize_grid_overwrites 64 4 _ _ _ _ _ E64 H64 H64')|].
  split; [unfold Get_GSURF_Descriptor_128;
          exact (normalize_grid_overwrites 128 8 _ _ _ _ _ E128 H128 H128')|].
  split; [unfold Get_MSURF_Upright_Descriptor_64;
          exact (normalize_msurf_grid_overwrites 64 4 _ _ _ _ _ _ E64 H64 H64')|].
  split; [unfold Get_MSURF_Descriptor_64;
          exact (normalize_msurf_grid_overwrites 64 4 _ _ _ _ _ _ E64 H64 H64')|].
  split; [unfold Get_MSURF_Upright_Descriptor_128;
          exact (normalize_msurf_grid_overwrites 128 8 _ _ _ _ _ _ E128 H128 H128')|].
  unfold Get_MSURF_Descriptor_128.
  exact (normalize_msurf_grid_overwrites 128 8 _ _ _ _ _ _ E128 H128 H128').
Qed.

(** Every extractor writes all the entries of its row: given a row of 64
    (128) entries it returns a row of 64 (128) entries that does not
    depend on what the row held before, and the loops of the four M-SURF
    extractors end. *)
Theorem extractors_overwrite_rows (d64 d64' d128 d128' : list float) :
  length d64 = 64%nat -> length d64' = 64%nat ->
  length d128 = 128%nat -> length d128' = 128%nat ->
  (Get_SURF_Upright_Descriptor_64 options evolution kpt d64
   = Get_SURF_Upright_Descriptor_64 options evolution kpt d64' /\
   length (Get_SURF_Upright_Descriptor_64 options evolution kpt d64) = 64%nat) /\
  (Get_SURF_Descriptor_64 options evolution kpt d64
   = Get_SURF_Descriptor_64 options evolution kpt d64' /\
   length (Get_SURF_Descriptor_64 options evolution kpt d64) = 64%nat) /\
  (Get_SURF_Upright_Descriptor_128 options evolution kpt d128
   = Get_SURF_Upright_Descriptor_128 options evolution kpt d128' /\
   length (Get_SURF_Upright_Descriptor_128 options evolution kpt d128) = 128%nat) /\
  (Get_SURF_Descriptor_128 options evolution kpt d128
   = Get_SURF_Descriptor_128 options evolution kpt d128' /\
   length (Get_SURF_Descriptor_128 options evolution kpt d128) = 128%nat) /\
  (Get_GSURF_Descriptor_64 options evolution kpt d64
   = Get_GSURF_Descriptor_64 options evolution kpt d64' /\
   length (Get_GSURF_Descriptor_64 options evolution kpt d64) = 64%nat) /\
  (Get_GSURF_Upright_Descriptor_64 options evolution kpt d64
   = Get_GSURF_Upright_Descriptor_64 options evolution kpt d64' /\
   length (Get_GSURF_Upright_Descriptor_64 options evolution kpt d64) = 64%nat) /\
  (Get_GSURF_Descriptor_128 options evolution kpt d128
   = Get_GSURF_Descriptor_128 options evolution kpt d128' /\
   length (Get_GSURF_Descriptor_128 options evolution kpt d128) = 128%nat) /\
  (exists row, Get_MSURF_Upright_Descriptor_64 options evolution kpt d64 = Some row /\
               Get_MSURF_Upright_Descriptor_64 options evolution kpt d64' = Some row /\
               length row = 64%nat) /\
  (exists row, Get_MSURF_Descriptor_64 options evolution kpt d64 = Some row /\
               Get_MSURF_Descriptor_64 options evolution kpt d64' = Some row /\
               length row = 64%nat) /\
  (exists row, Get_MSURF_Upright_Descriptor_128 options evolution kpt d128 = Some row /\
               Get_MSURF_Upright_Descriptor_128 options evolution kpt d128' = Some row /\
               length row = 128%nat) /\
  (exists row, Get_MSURF_Descriptor_128 options evolution kpt d128 = Some row /\
               Get_MSURF_Descriptor_128 options evolution kpt d128' = Some row /\
               length row = 128%nat).
Proof. apply extractors_overwrite_rows_aux. Qed.

End Row_theorems.

Section Row_examples.
Import IEEE Model Descriptor Reference Examples.

Lemma bumpy_row_overwritten :
  Get_GSURF_Descriptor_64 (ext := externals) flat_options bumpy_evolution flat_keypoint
    (replicate 64 fzero)
  = Get_GSURF_Descriptor_64 (ext := externals) flat_options bumpy_evolution flat_keypoint
      (replicate 64 (fconst 1 0)).
Proof.
  destruct (extractors_overwrite_rows (ext := externals) flat_options bumpy_evolution
              flat_keypoint (replicate 64 fzero) (replicate 64 (fconst 1 0))
              (replicate 128 fzero) (replicate 128 fzero)
              eq_refl eq_refl eq_refl eq_refl)
    as (_ & _ & _ & _ & [Heq _] & _).
  exact Heq.
Defined.

End Row_examples.
(* ================================================================== *)
(** * The main orientation *)
(* ================================================================== *)
(** Case analysis on the comparisons of exponents and mantissas. *)
Ltac sf_compare_cases :=
  repeat match goal with
  | |- context [Z.compare ?a ?b] => destruct (Z.compare_spec a b); subst
  | H : context [Z.compare ?a ?b] |- _ => destruct (Z.compare_spec a b); subst
  | |- context [Pos.compare_cont Eq ?a ?b] =>
      change (Pos.compare_cont Eq a b) with (Pos.compare a b);
      destruct (Pos.compare_spec a b); subst
  | H : context [Pos.compare_cont Eq ?a ?b] |- _ =>
      change (Pos.compare_cont Eq a b) with (Pos.compare a b) in H;
      destruct (Pos.compare_spec a b); subst
  end.

Section Orientation_facts.
Import IEEE Model Orientation.
Context {ext : Externals}.
Variable evolution : KAZEEvolution.
Variables (width height : Z).
Variable kpt : KeyPoint.

Local Abbreviation positions :=
  (flat_map (fun i => map (fun j => (i, j)) (seqZ (-6) (6 + 1 - -6))) (seqZ (-6) (6 + 1 - -6))).

(** The two loops over [i] and [j] as one loop over the positions. *)
Lemma sample_all_fold :
  sample_all evolution width height kpt
  = fold_left (fun st p => sample_step evolution width height kpt (fst p) (snd p) st)
              positions
              (mkSamples (replicate 109 fzero) (replicate 109 fzero) (replicate 109 fzero) 0%nat).
Proof.
  unfold sample_all, for_range. rewrite fold_left_flat_map.
  apply fold_left_ext_in. intros i _ acc. by rewrite fold_left_map.
Qed.

(** One position within the radius writes one entry of each vector, at
    [idx], and counts it; a position outside changes nothing. *)
Lemma sample_step_facts (P : float -> Prop) (i j : Z) (st : samples) :
  P fzero ->
  (forall g iy ix, P (fmul g (Mat_at (Lx (evolution_at evolution (class_id kpt))) iy ix))) ->
  (forall g iy ix, P (fmul g (Mat_at (Ly (evolution_at evolution (class_id kpt))) iy ix))) ->
  Forall P (resX st) -> Forall P (resY st) ->
  let st' := sample_step evolution width height kpt i j st in
  idx st' = (idx st + if (i * i + j * j <? 36)%Z then 1 else 0)%nat /\
  length (resX st') = length (resX st) /\ length (resY st') = length (resY st) /\
  length (Ang st') = length (Ang st) /\
  Forall P (resX st') /\ Forall P (resY st').
Proof.
  intros P0 PX PY HX HY. cbv zeta.
  assert (Hins : forall (l : list float) n v, Forall P l -> P v -> Forall P (<[n := v]> l)).
  { intros l n v Hl Hv. destruct (decide (n < length l)%nat).
    - by apply Forall_insert.
    - by rewrite list_insert_ge by lia. }
  unfold sample_step. destruct (i * i + j * j <? 36).
  - match goal with |- context [if ?c then _ else (fzero, fzero)] => destruct c end;
      cbv zeta; cbn [idx resX resY Ang]; rewrite !length_insert;
      repeat split; try lia; apply Hins; auto.
  - repeat split; try assumption. lia.
Qed.

Lemma sample_fold_count (P : float -> Prop) (ps : list (Z * Z)) (st : samples) :
  P fzero ->
  (forall g iy ix, P (fmul g (Mat_at (Lx (evolution_at evolution (class_id kpt))) iy ix))) ->
  (forall g iy ix, P (fmul g (Mat_at (Ly (evolution_at evolution (class_id kpt))) iy ix))) ->
  Forall P (resX st) -> Forall P (resY st) ->
  let st' := fold_left (fun st p => sample_step evolution width height kpt (fst p) (snd p) st)
                       ps st in
  idx st' = (idx st + length (List.filter (fun p => (fst p * fst p + snd p * snd p <? 36)%Z) ps))%nat /\
  length (resX st') = length (resX st) /\ length (resY st') = length (resY st) /\
  length (Ang st') = length (Ang st) /\
  Forall P (resX st') /\ Forall P (resY st').
Proof.
  intros P0 PX PY. revert st. induction ps as [|[i j] ps IH]; intros st HX HY; cbv zeta.
  - simpl. repeat split; try assumption. lia.
  - cbn [fold_left List.filter fst snd].
    destruct (sample_step_facts P i j st P0 PX PY HX HY) as (S1 & S2 & S3 & S4 & S5 & S6).
    cbv zeta in S1, S2, S3, S4, S5, S6.
    destruct (IH _ S5 S6) as (H1 & H2 & H3 & H4 & H5 & H6).
    cbv zeta in H1, H2, H3, H4, H5, H6.
    rewrite H1, H2, H3, H4, S1, S2, S3, S4.
    repeat split; try assumption.
    destruct (i * i + j * j <? 36); simpl; lia.
Qed.

(** There are 109 positions within the radius: the loops fill the three
    vectors exactly. *)
Lemma sample_all_facts (P : float -> Prop) :
  P fzero ->
  (forall g iy ix, P (fmul g (Mat_at (Lx (evolution_at evolution (class_id kpt))) iy ix))) ->
  (forall g iy ix, P (fmul g (Mat_at (Ly (evolution_at evolution (class_id kpt))) iy ix))) ->
  let st := sample_all evolution width height kpt in
  idx st = 109%nat /\ length (resX st) = 109%nat /\ length (resY st) = 109%nat /\
  length (Ang st) = 109%nat /\ Forall P (resX st) /\ Forall P (resY st).
Proof.
  intros P0 PX PY. cbv zeta. rewrite sample_all_fold.
  destruct (sample_fold_count P positions
              (mkSamples (replicate 109 fzero) (replicate 109 fzero) (replicate 109 fzero) 0%nat)
              P0 PX PY) as (H1 & H2 & H3 & H4 & H5 & H6).
  - cbn [resX]. by apply Forall_replicate.
  - cbn [resY]. by apply Forall_replicate.
  - cbv zeta in H1, H2, H3, H4, H5, H6. cbn [idx resX resY Ang] in H1, H2, H3, H4.
    rewrite length_replicate in H2, H3, H4.
    split; [|by repeat split]. rewrite H1. vm_compute. reflexivity.
Qed.

(** *** The loop over the windows *)

Lemma window_step_ang1 (st : samples) (w : window) :
  w_ang1 (window_step st w) = fadd (w_ang1 w) ang_step.
Proof.
  unfold window_step. cbv zeta. destruct (window_sums st _ _) as [sumX sumY].
  reflexivity.
Qed.

Lemma window_iter_ang1 (st : samples) (w : window) (i : nat) :
  w_ang1 (Nat.iter i (window_step st) w) = Nat.iter i (fun a => fadd a ang_step) (w_ang1 w).
Proof.
  induction i as [|i IH]; [reflexivity|].
  rewrite !Nat.iter_succ, window_step_ang1. by rewrite IH.
Qed.

(** The loop over [ang1] runs 42 times: the 42 sums [0.15f + ... + 0.15f]
    from [ang1 = 0] stay below [2*CV_PI], the next one does not. *)
Lemma window_loop_run (st : samples) (a0 : float) :
  while_loop 64 (fun w => dlt (to_double (w_ang1 w)) two_pi)
             (fun w => Some (window_step st w)) (mkWindow fzero fzero a0)
  = Some (Nat.iter 42 (window_step st) (mkWindow fzero fzero a0)).
Proof.
  apply while_loop_counted; [reflexivity| | |lia].
  - intros i Hi. rewrite window_iter_ang1. cbn [w_ang1].
    assert (Hall : forallb (fun i => dlt (to_double (Nat.iter i (fun a => fadd a ang_step) fzero))
                                         two_pi) (seq 0 42) = true)
      by (vm_compute; reflexivity).
    rewrite forallb_forall in Hall. apply Hall. apply in_seq. lia.
  - rewrite window_iter_ang1. vm_compute. reflexivity.
Qed.

(** The squared norm of two zeros is zero. *)
Lemma zero_norm (sx sy : float) :
  is_zero sx = true -> is_zero sy = true -> fadd (fmul sx sx) (fmul sy sy) = fzero.
Proof.
  destruct sx as [[sx|sx| |sx mx ex]], sy as [[sy|sy| |sy my ey]]; try discriminate.
  intros _ _. destruct sx, sy; reflexivity.
Qed.

(** *** The sums of a window

    The loop over [k] adds, in the order of [k], the samples whose angle
    passes one of the two tests. *)
Lemma conditional_sums (p : nat -> bool) (fx fy : nat -> float) (l : list nat) (sx sy : float) :
  fold_left (fun (acc : float * float) (k : Z) =>
               let '(sumX, sumY) := acc in
               if p (Z.to_nat k) then (fadd sumX (fx (Z.to_nat k)), fadd sumY (fy (Z.to_nat k)))
               else (sumX, sumY))
            ((fun i : nat => Z.of_nat i + 0) <$> l) (sx, sy)
  = (fold_left fadd (map fx (List.filter p l)) sx, fold_left fadd (map fy (List.filter p l)) sy).
Proof.
  revert sx sy. induction l as [|k l IH]; intros sx sy; [reflexivity|].
  cbn [fmap list_fmap fold_left List.filter]. rewrite Z.add_0_r, Nat2Z.id.
  destruct (p k); cbn [map fold_left]; apply IH.
Qed.

Lemma window_sums_spec (st : samples) (ang1 ang2 : float) :
  length (Ang st) = 109%nat ->
  window_sums st ang1 ang2
  = (let inside ang :=
       (flt ang1 ang2 && flt ang1 ang && flt ang ang2)
       || (flt ang2 ang1
           && ((fgt ang fzero && flt ang ang2)
               || (fgt ang ang1 && dlt (to_double ang) two_pi))) in
     let ks := List.filter (fun k => inside (nth k (Ang st) fzero)) (seq 0 109) in
     (fold_left fadd (map (fun k => nth k (resX st) fzero) ks) fzero,
      fold_left fadd (map (fun k => nth k (resY st) fzero) ks) fzero)).
Proof.
  intros Hlen. unfold window_sums, for_range. rewrite Hlen. cbv zeta.
  change (seqZ 0 (Z.of_nat 109 - 0)) with ((fun i : nat => Z.of_nat i + 0) <$> seq 0 109).
  rewrite <- (conditional_sums
                (fun k => (flt ang1 ang2 && flt ang1 (nth k (Ang st) fzero)
                           && flt (nth k (Ang st) fzero) ang2)
                          || (flt ang2 ang1
                              && ((fgt (nth k (Ang st) fzero) fzero
                                   && flt (nth k (Ang st) fzero) ang2)
                                  || (fgt (nth k (Ang st) fzero) ang1
                                      && dlt (to_double (nth k (Ang st) fzero)) two_pi))))
                (fun k => nth k (resX st) fzero) (fun k => nth k (resY st) fzero)).
  apply fold_left_ext_in. intros k _ [sumX sumY]. unfold in_window.
  destruct (flt ang1 ang2 && flt ang1 _ && flt _ ang2); [reflexivity|].
  cbn [orb]. destruct (flt ang2 ang1 && _); reflexivity.
Qed.

(** *** The order of the comparisons *)

Lemma SFcompare_trans (a b c : spec_float) :
  SFcompare a b = Some Lt -> SFcompare b c = Some Lt -> SFcompare a c = Some Lt.
Proof.
  destruct a as [sa|sa| |sa ma ea], b as [sb|sb| |sb mb eb], c as [sc|sc| |sc mc ec];
    try destruct sa; try destruct sb; try destruct sc; simpl;
    intros H1 H2; try discriminate; try reflexivity;
    sf_compare_cases; simpl in *; try discriminate; try reflexivity; try lia.
Qed.

Lemma SFcompare_eq_lt (a b c : spec_float) :
  SFcompare a b = Some Eq -> SFcompare b c = Some Lt -> SFcompare a c = Some Lt.
Proof.
  destruct a as [sa|sa| |sa ma ea], b as [sb|sb| |sb mb eb], c as [sc|sc| |sc mc ec];
    try destruct sa; try destruct sb; try destruct sc; simpl;
    intros H1 H2; try discriminate; try reflexivity;
    sf_compare_cases; simpl in *; try discriminate; try reflexivity; try lia.
Qed.

Lemma SFcompare_antisym (a b : spec_float) :
  SFcompare a b = Some Gt -> SFcompare b a = Some Lt.
Proof.
  destruct a as [sa|sa| |sa ma ea], b as [sb|sb| |sb mb eb];
    try destruct sa; try destruct sb; simpl;
    intros H1; try discriminate; try reflexivity;
    sf_compare_cases; simpl in *; try discriminate; try reflexivity; try lia.
Qed.

Lemma SFcompare_eq_sym (a b : spec_float) :
  SFcompare a b = Some Eq -> SFcompare b a = Some Eq.
Proof.
  destruct a as [sa|sa| |sa ma ea], b as [sb|sb| |sb mb eb];
    try destruct sa; try destruct sb; simpl;
    intros H1; try discriminate; try reflexivity;
    sf_compare_cases; simpl in *; try discriminate; try reflexivity; try lia.
Qed.

Lemma SFcompare_None (a b : spec_float) :
  SFcompare a b = None -> a = S754_nan \/ b = S754_nan.
Proof.
  destruct a as [sa|sa| |sa ma ea], b as [sb|sb| |sb mb eb]; simpl; intros H;
    try discriminate; auto.
Qed.

Lemma SFltb_Lt (a b : spec_float) : SFltb a b = true <-> SFcompare a b = Some Lt.
Proof.
  unfold SFltb. destruct (SFcompare a b) as [[ | | ]|]; split; intros H;
    try discriminate; reflexivity.
Qed.

(** [z < m] and [m < q] give [z < q]. *)
Lemma fgt_trans (q m z : float) : fgt q m = true -> fgt m z = true -> fgt q z = true.
Proof.
  unfold fgt, flt. rewrite !SFltb_Lt. intros H1 H2. by apply (SFcompare_trans _ (f32 m)).
Qed.

Lemma fgt_irrefl (q : float) : fgt q q = false.
Proof.
  unfold fgt, flt. destruct (SFltb (f32 q) (f32 q)) eqn:H; [|reflexivity].
  pose proof (SFltb_asym _ _ H). congruence.
Qed.

(** [m < q] and not [m < x] give not [q < x]. *)
Lemma not_above_larger (q m x : float) :
  fgt q m = true -> fgt x m = false -> fgt x q = false.
Proof.
  intros H1 H2. destruct (fgt x q) eqn:H3; [|reflexivity].
  rewrite (fgt_trans x q m H3 H1) in H2. discriminate.
Qed.

(** [m < q] and not [m < x] give [x < q], unless [x] is NaN. *)
Lemma above_not_above (q m x : float) :
  fgt q m = true -> fgt x m = false -> fgt q x = true \/ is_nan x = true.
Proof.
  unfold fgt, flt, is_nan. intros H1 H2. apply SFltb_Lt in H1.
  destruct (SFcompare (f32 m) (f32 x)) as [[ | | ]|] eqn:Hc.
  - left. apply SFltb_Lt. apply SFcompare_eq_sym in Hc.
    by apply (SFcompare_eq_lt _ (f32 m)).
  - apply SFltb_Lt in Hc. congruence.
  - left. apply SFltb_Lt. apply SFcompare_antisym in Hc.
    by apply (SFcompare_trans _ (f32 m)).
  - apply SFcompare_None in Hc as [Hm|Hx].
    + rewrite Hm in H1. discriminate.
    + right. by rewrite Hx.
Qed.

(** *** The window that wins

    [ang1] of the window of index [n], its sums and their squared norm
    [sumX*sumX + sumY*sumY]. *)
Local Abbreviation start n := (Nat.iter n (fun a => fadd a ang_step) fzero).
Local Abbreviation sums st n := (window_sums st (start n) (window_end (start n))).
Local Abbreviation norm st n :=
  (fadd (fmul (fst (sums st n)) (fst (sums st n))) (fmul (snd (sums st n)) (snd (sums st n)))).

(** After [i] windows: either no window had a squared norm above 0 and the
    angle is the keypoint's, or [max] and the angle are those of the first
    window with the largest squared norm. *)
Local Abbreviation best st a0 i w :=
  ((w_angle w = a0 /\ w_max w = fzero /\
    forall j, (j < i)%nat -> fgt (norm st j) fzero = false) \/
   exists n, (n < i)%nat /\
     w_max w = norm st n /\
     w_angle w = Angle.Get_Angle (fst (sums st n)) (snd (sums st n)) /\
     fgt (norm st n) fzero = true /\
     (forall j, (j < i)%nat -> fgt (norm st j) (norm st n) = false) /\
     (forall j, (j < n)%nat -> fgt (norm st n) (norm st j) = true \/ is_nan (norm st j) = true)).

Lemma window_step_best (st : samples) (a0 : float) (i : nat) (w : window) :
  w_ang1 w = start i -> best st a0 i w -> best st a0 (S i) (window_step st w).
Proof.
  intros Hang Hbest. unfold window_step. cbv zeta. rewrite Hang.
  destruct (window_sums st (start i) (window_end (start i))) as [sumX sumY] eqn:Hs.
  assert (Hnorm : norm st i = fadd (fmul sumX sumX) (fmul sumY sumY)) by (by rewrite Hs).
  assert (Hlast : forall (P : nat -> Prop), P i -> (forall j, (j < i)%nat -> P j) ->
                  forall j, (j < S i)%nat -> P j).
  { intros P Pi Pj j Hj. destruct (decide (j = i)) as [->|Hne]; [exact Pi|]. apply Pj. lia. }
  destruct (fgt (fadd (fmul sumX sumX) (fmul sumY sumY)) (w_max w)) eqn:Hgt;
    cbn [w_max w_angle]; rewrite <- Hnorm in Hgt.
  - right. exists i. split; [lia|]. split; [by rewrite Hs|]. split; [by rewrite Hs|].
    destruct Hbest as [(Ha & Hm & Hall)|(n & Hn & Hm & Ha & Hpos & Hall & Hfirst)].
    + rewrite Hm in Hgt. split; [exact Hgt|]. split.
      * apply Hlast; [apply fgt_irrefl|].
        intros j Hj. exact (not_above_larger _ _ _ Hgt (Hall j Hj)).
      * intros j Hj. exact (above_not_above _ _ _ Hgt (Hall j Hj)).
    + rewrite Hm in Hgt. split; [exact (fgt_trans _ _ _ Hgt Hpos)|]. split.
      * apply Hlast; [apply fgt_irrefl|].
        intros j Hj. exact (not_above_larger _ _ _ Hgt (Hall j Hj)).
      * intros j Hj. exact (above_not_above _ _ _ Hgt (Hall j Hj)).
  - destruct Hbest as [(Ha & Hm & Hall)|(n & Hn & Hm & Ha & Hpos & Hall & Hfirst)].
    + left. split; [exact Ha|]. split; [exact Hm|].
      rewrite Hm in Hgt. apply Hlast; [exact Hgt|exact Hall].
    + right. exists n. split; [lia|]. split; [exact Hm|]. split; [exact Ha|].
      split; [exact Hpos|]. split; [|exact Hfirst].
      rewrite Hm in Hgt. apply Hlast; [exact Hgt|exact Hall].
Qed.

Lemma window_iter_best (st : samples) (a0 : float) (k : nat) :
  best st a0 k (Nat.iter k (window_step st) (mkWindow fzero fzero a0)).
Proof.
  induction k as [|k IH].
  - left. cbn [Nat.iter w_angle w_max]. split; [reflexivity|]. split; [reflexivity|].
    intros j Hj. lia.
  - rewrite Nat.iter_succ. apply window_step_best; [|exact IH].
    by rewrite window_iter_ang1.
Qed.

Lemma nth_Forall (P : float -> Prop) (l : list float) (k : nat) (d : float) :
  Forall P l -> P d -> P (nth k l d).
Proof.
  intros Hl Hd. revert k. induction Hl as [|x l Hx _ IH]; intros [|k]; simpl; auto.
Qed.

(** With samples that are all zero (or NaN) no window has a sum above
    [max = 0]. *)
Lemma window_step_flat (st : samples) (w : window) :
  Forall (fun v => z0n v = true) (resX st) -> Forall (fun v => z0n v = true) (resY st) ->
  w_max w = fzero ->
  w_max (window_step st w) = fzero /\ w_angle (window_step st w) = w_angle w.
Proof.
  intros HX HY Hmax. unfold window_step. cbv zeta.
  assert (Hsums : z0n (fst (window_sums st (w_ang1 w) (window_end (w_ang1 w)))) = true /\
                  z0n (snd (window_sums st (w_ang1 w) (window_end (w_ang1 w)))) = true).
  { unfold window_sums.
    apply (for_range_inv (fun p : float * float => z0n (fst p) = true /\ z0n (snd p) = true));
      [by split|].
    intros k [sumX sumY] _ [H1 H2]. cbn [fst snd] in *.
    destruct (in_window _ _ _); [|by split]. cbn [fst snd].
    split; apply z0n_fadd; try assumption; by apply nth_Forall. }
  destruct (window_sums st _ _) as [sumX sumY]. cbn [fst snd] in Hsums.
  destruct Hsums as [H1 H2].
  assert (Hq : z0n (fadd (fmul sumX sumX) (fmul sumY sumY)) = true)
    by (apply z0n_fadd; by apply z0n_fmul_l).
  assert (Hgt : fgt (fadd (fmul sumX sumX) (fmul sumY sumY)) (w_max w) = false).
  { rewrite Hmax. destruct (z0n_cases _ Hq) as [[sq ->]| ->]; reflexivity. }
  rewrite Hgt. cbn [w_max w_angle]. by split.
Qed.

End Orientation_facts.

Section Orientation_theorems.
Import IEEE Model Orientation.
Context {ext : Externals}.
Variable evolution : KAZEEvolution.
Variables (width height : Z).
Variable kpt : KeyPoint.

Lemma iter_inv {St} (P : St -> Prop) (f : St -> St) (k : nat) (s : St) :
  (forall t, P t -> P (f t)) -> P s -> P (Nat.iter k f s).
Proof. intros Hf Hs. induction k as [|k IH]; simpl; auto. Qed.

(** [ang1] of the window of index [n] (the sum of [n] steps of [0.15f]
    from 0), the sums [(sumX, sumY)] of that window and their squared norm
    [sumX*sumX + sumY*sumY]. *)
Local Abbreviation start n := (Nat.iter n (fun a => fadd a ang_step) fzero).
Local Abbreviation finish ang1 :=
  (to_float (if dgt (dadd (to_double ang1) pi_third) two_pi
             then dsub (to_double ang1) five_pi_third
             else dadd (to_double ang1) pi_third)).
Local Abbreviation sums st n := (window_sums st (start n) (finish (start n))).
Local Abbreviation norm st n :=
  (fadd (fmul (fst (sums st n)) (fst (sums st n))) (fmul (snd (sums st n)) (snd (sums st n)))).

(** The statement of the theorem below, for the proofs that build on it. *)
Lemma main_orientation_result_aux :
  let st := sample_all evolution width height kpt in
  idx st = 109%nat /\ length (resX st) = 109%nat /\ length (resY st) = 109%nat /\
  length (Ang st) = 109%nat /\
  exists a,
    Compute_Main_Orientation_SURF evolution width height kpt
    = Some {| pt_x := pt_x kpt; pt_y := pt_y kpt; size := size kpt; angle := a;
              response := response kpt; kp_octave := kp_octave kpt;
              class_id := class_id kpt |} /\
    ((a = angle kpt /\ forall j, (j < 42)%nat -> fgt (norm st j) fzero = false) \/
     exists n, (n < 42)%nat /\
       a = Angle.Get_Angle (fst (sums st n)) (snd (sums st n)) /\
       is_zero (fst (sums st n)) && is_zero (snd (sums st n)) = false /\
       fgt (norm st n) fzero = true /\
       (forall j, (j < 42)%nat -> fgt (norm st j) (norm st n) = false) /\
       (forall j, (j < n)%nat ->
          fgt (norm st n) (norm st j) = true \/ is_nan (norm st j) = true)) /\
    (forall ang1 ang2,
       window_sums st ang1 ang2
       = (let inside ang :=
            (flt ang1 ang2 && flt ang1 ang && flt ang ang2)
            || (flt ang2 ang1
                && ((fgt ang fzero && flt ang ang2)
                    || (fgt ang ang1 && dlt (to_double ang) two_pi))) in
          let ks := List.filter (fun k => inside (nth k (Ang st) fzero)) (seq 0 109) in
          (fold_left fadd (map (fun k => nth k (resX st) fzero) ks) fzero,
           fold_left fadd (map (fun k => nth k (resY st) fzero) ks) fzero))).
Proof.
  cbv zeta.
  destruct (sample_all_facts evolution width height kpt (fun _ => True) I
              (fun _ _ _ => I) (fun _ _ _ => I)) as (H1 & H2 & H3 & H4 & _).
  cbv zeta in H1, H2, H3, H4.
  split; [assumption|]. split; [assumption|]. split; [assumption|]. split; [assumption|].
  unfold Compute_Main_Orientation_SURF. cbv zeta. rewrite window_loop_run.
  eexists. split; [reflexivity|].
  split; [|intros ang1 ang2; by apply window_sums_spec].
  destruct (window_iter_best (sample_all evolution width height kpt) (angle kpt) 42)
    as [(Ha & _ & Hall)|(n & Hn & _ & Ha & Hpos & Hall & Hfirst)];
    unfold window_end in *.
  - left. split; [exact Ha|exact Hall].
  - right. exists n. split; [exact Hn|]. split; [exact Ha|].
    split; [|split; [exact Hpos|split; [exact Hall|exact Hfirst]]].
    destruct (is_zero (fst _)) eqn:Hzx; [|reflexivity].
    destruct (is_zero (snd _)) eqn:Hzy; [|reflexivity].
    rewrite (zero_norm _ _ Hzx Hzy) in Hpos. rewrite fgt_irrefl in Hpos. discriminate.
Qed.

(** [Compute_Main_Orientation_SURF] ends for every keypoint and every
    scale space.  The loops over [i] and [j] visit 109 positions and fill
    the three vectors of 109 entries exactly; the loop over [ang1] runs its
    42 windows, the window of index [n] starting at [ang1], the sum of [n]
    steps of [0.15f], and ending at [ang1 + CV_PI/3.0f], or at
    [ang1 - 5.0f*CV_PI/3.0f] when that is above [2*CV_PI]; the keypoint comes back with at most its angle changed.  If no
    window has a squared norm [sumX*sumX + sumY*sumY] above 0 the angle is
    the one the keypoint had.  Otherwise the angle is
    [Get_Angle(sumX, sumY)] of the sums of one of the 42 windows: the first
    window with the largest squared norm, which is above 0 (so the two
    sums are not both zero); no window has a larger one, and every earlier
    window has a smaller one or one that is not a number.  The sums of a
    window from [ang1] to [ang2] add, in the order of [k], the samples
    whose angle [ang] has [ang1 < ang2 && ang1 < ang && ang < ang2] or
    [ang2 < ang1 && ((ang > 0 && ang < ang2) || (ang > ang1 && ang < 2*CV_PI))]. *)
Theorem main_orientation_result :
  let st := sample_all evolution width height kpt in
  idx st = 109%nat /\ length (resX st) = 109%nat /\ length (resY st) = 109%nat /\
  length (Ang st) = 109%nat /\
  exists a,
    Compute_Main_Orientation_SURF evolution width height kpt
    = Some {| pt_x := pt_x kpt; pt_y := pt_y kpt; size := size kpt; angle := a;
              response := response kpt; kp_octave := kp_octave kpt;
              class_id := class_id kpt |} /\
    ((a = angle kpt /\ forall j, (j < 42)%nat -> fgt (norm st j) fzero = false) \/
     exists n, (n < 42)%nat /\
       a = Angle.Get_Angle (fst (sums st n)) (snd (sums st n)) /\
       is_zero (fst (sums st n)) && is_zero (snd (sums st n)) = false /\
       fgt (norm st n) fzero = true /\
       (forall j, (j < 42)%nat -> fgt (norm st j) (norm st n) = false) /\
       (forall j, (j < n)%nat ->
          fgt (norm st n) (norm st j) = true \/ is_nan (norm st j) = true)) /\
    (forall ang1 ang2,
       window_sums st ang1 ang2
       = (let inside ang :=
            (flt ang1 ang2 && flt ang1 ang && flt ang ang2)
            || (flt ang2 ang1
                && ((fgt ang fzero && flt ang ang2)
                    || (fgt ang ang1 && dlt (to_double ang) two_pi))) in
          let ks := List.filter (fun k => inside (nth k (Ang st) fzero)) (seq 0 109) in
          (fold_left fadd (map (fun k => nth k (resX st) fzero) ks) fzero,
           fold_left fadd (map (fun k => nth k (resY st) fzero) ks) fzero))).
Proof. apply main_orientation_result_aux. Qed.

(** On a level whose first derivatives are zero everywhere no window has
    a sum above [max = 0]: the keypoint comes back as it was. *)
Theorem main_orientation_flat :
  (forall iy ix, is_zero (Mat_at (Lx (evolution_at evolution (class_id kpt))) iy ix) = true) ->
  (forall iy ix, is_zero (Mat_at (Ly (evolution_at evolution (class_id kpt))) iy ix) = true) ->
  Compute_Main_Orientation_SURF evolution width height kpt = Some kpt.
Proof.
  intros HLx HLy.
  destruct (sample_all_facts evolution width height kpt (fun v => z0n v = true))
    as (_ & _ & _ & _ & HX & HY).
  { reflexivity. }
  { intros g iy ix. apply z0n_fmul_r, is_zero_z0n, HLx. }
  { intros g iy ix. apply z0n_fmul_r, is_zero_z0n, HLy. }
  cbv zeta in HX, HY.
  unfold Compute_Main_Orientation_SURF. cbv zeta. rewrite window_loop_run.
  assert (Hinv : w_max (Nat.iter 42 (window_step (sample_all evolution width height kpt))
                          (mkWindow fzero fzero (angle kpt))) = fzero /\
                 w_angle (Nat.iter 42 (window_step (sample_all evolution width height kpt))
                            (mkWindow fzero fzero (angle kpt))) = angle kpt).
  { apply (iter_inv (fun w => w_max w = fzero /\ w_angle w = angle kpt)); [|by split].
    intros w [Hmax Hang].
    destruct (window_step_flat (sample_all evolution width height kpt) w HX HY Hmax)
      as [Hmax' Hang'].
    split; [assumption|congruence]. }
  destruct Hinv as [_ ->]. by destruct kpt.
Qed.

End Orientation_theorems.

Section Orientation_examples.
Import IEEE Model Orientation Reference Examples.

Lemma zeros_everywhere (r c iy ix : Z) : is_zero (Mat_at (Mat_zeros r c) iy ix) = true.
Proof.
  unfold Mat_at, Mat_zeros. cbn [data cols].
  generalize (Z.to_nat (iy * c + ix)) as k. generalize (Z.to_nat (r * c)) as n.
  induction n as [|n IH]; intros [|k]; simpl; auto.
Qed.

Lemma flat_keypoint_keeps_angle :
  Compute_Main_Orientation_SURF (ext := externals) flat_evolution 16 16 flat_keypoint
  = Some flat_keypoint.
Proof.
  apply (main_orientation_flat (ext := externals)); intros iy ix; apply zeros_everywhere.
Defined.

End Orientation_examples.
(* ================================================================== *)
(** * The description of the keypoints *)
(* ================================================================== *)
Section Description_facts.
Import IEEE Model Description.
Context {ext : Externals}.
Variable options : KAZEOptions.
Variable evolution : KAZEEvolution.
Variables (descriptor : Z) (upright extended : bool).

Local Abbreviation row_length := (if extended then 128 else 64)%nat.
Local Abbreviation same_point k k' :=
  (pt_x k' = pt_x k /\ pt_y k' = pt_y k /\ size k' = size k /\ response k' = response k /\
   kp_octave k' = kp_octave k /\ class_id k' = class_id k /\
   (upright = true -> angle k' = fzero)).

Lemma orient_total (kp : KeyPoint) :
  exists kp', orient options evolution upright kp = Some kp' /\ same_point kp kp'.
Proof.
  unfold orient. destruct upright.
  - eexists. split; [reflexivity|]. cbn. by repeat split.
  - destruct (main_orientation_result_aux evolution (img_width options) (img_height options) kp)
      as (_ & _ & _ & _ & a & -> & _).
    eexists. split; [reflexivity|]. cbn. repeat split. discriminate.
Qed.

Lemma SURF_fn_total (kp : KeyPoint) (row : list float) :
  length row = row_length ->
  exists row', SURF_fn options evolution upright extended kp row = Some row' /\
               length row' = row_length.
Proof.
  intros Hrow. unfold SURF_fn. destruct upright, extended;
    (eexists; split; [reflexivity|]);
    pose proof (extractors_overwrite_rows_aux options evolution kp) as Hall.
  - destruct (Hall (replicate 64 fzero) (replicate 64 fzero) row row) as
      (_ & _ & [_ H] & _); try reflexivity; assumption.
  - destruct (Hall row row (replicate 128 fzero) (replicate 128 fzero)) as
      ([_ H] & _); try reflexivity; assumption.
  - destruct (Hall (replicate 64 fzero) (replicate 64 fzero) row row) as
      (_ & _ & _ & [_ H] & _); try reflexivity; assumption.
  - destruct (Hall row row (replicate 128 fzero) (replicate 128 fzero)) as
      (_ & [_ H] & _); try reflexivity; assumption.
Qed.

Lemma MSURF_fn_total (kp : KeyPoint) (row : list float) :
  length row = row_length ->
  exists row', MSURF_fn options evolution upright extended kp row = Some row' /\
               length row' = row_length.
Proof.
  intros Hrow. unfold MSURF_fn.
  pose proof (extractors_overwrite_rows_aux options evolution kp) as Hall.
  destruct upright, extended.
  - destruct (Hall (replicate 64 fzero) (replicate 64 fzero) row row) as
      (_ & _ & _ & _ & _ & _ & _ & _ & _ & (r & Hr & _ & Hl) & _);
      try reflexivity; try assumption. eauto.
  - destruct (Hall row row (replicate 128 fzero) (replicate 128 fzero)) as
      (_ & _ & _ & _ & _ & _ & _ & (r & Hr & _ & Hl) & _);
      try reflexivity; try assumption. eauto.
  - destruct (Hall (replicate 64 fzero) (replicate 64 fzero) row row) as
      (_ & _ & _ & _ & _ & _ & _ & _ & _ & _ & (r & Hr & _ & Hl));
      try reflexivity; try assumption. eauto.
  - destruct (Hall row row (replicate 128 fzero) (replicate 128 fzero)) as
      (_ & _ & _ & _ & _ & _ & _ & _ & (r & Hr & _ & Hl) & _);
      try reflexivity; try assumption. eauto.
Qed.

Lemma GSURF_fn_total (kp : KeyPoint) (row : list float) :
  length row = row_length ->
  exists row', GSURF_fn options evolution upright extended kp row = Some row' /\
               length row' = row_length.
Proof.
  intros Hrow. unfold GSURF_fn. destruct upright, extended;
    (eexists; split; [reflexivity|]);
    pose proof (extractors_overwrite_rows_aux options evolution kp) as Hall.
  - destruct (Hall (replicate 64 fzero) (replicate 64 fzero) row row) as
      (_ & _ & _ & _ & _ & _ & [_ H] & _); try reflexivity; assumption.
  - destruct (Hall row row (replicate 128 fzero) (replicate 128 fzero)) as
      (_ & _ & _ & _ & _ & [_ H] & _); try reflexivity; assumption.
  - destruct (Hall (replicate 64 fzero) (replicate 64 fzero) row row) as
      (_ & _ & _ & _ & _ & _ & [_ H] & _); try reflexivity; assumption.
  - destruct (Hall row row (replicate 128 fzero) (replicate 128 fzero)) as
      (_ & _ & _ & _ & [_ H] & _); try reflexivity; assumption.
Qed.

Lemma mapM_cons_Some {A B : Type} (f : A -> option B) (x : A) (l : list A) (y : B) (k : list B) :
  f x = Some y -> mapM f l = Some k -> mapM f (x :: l) = Some (y :: k).
Proof. intros Hx Hl. simpl. rewrite Hx. simpl. rewrite Hl. reflexivity. Qed.

(** The loop over the keypoints, for a descriptor function that ends and
    keeps the length of the row. *)
Lemma parallel_for_shape (fn : KeyPoint -> list float -> option (list float))
      (kpts : list KeyPoint) (desc : list (list float)) :
  (forall kp row, length row = row_length ->
     exists row', fn kp row = Some row' /\ length row' = row_length) ->
  length desc = length kpts -> Forall (fun row => length row = row_length) desc ->
  exists kpts' desc',
    parallel_for options evolution upright fn kpts desc = Some (kpts', desc') /\
    length desc' = length kpts /\
    Forall (fun row => length row = row_length) desc' /\
    Forall2 (fun k k' => same_point k k') kpts kpts'.
Proof.
  intros Hfn. unfold parallel_for. revert desc.
  induction kpts as [|kp kpts IH]; intros desc Hlen Hrows.
  - exists [], []. destruct desc; [|discriminate]. cbn. repeat split; constructor.
  - destruct desc as [|row desc]; [discriminate|].
    inversion Hrows as [|? ? Hrow Hrows']; subst.
    destruct (IH desc ltac:(simpl in Hlen; lia) Hrows') as (ks & ds & Hrun & Hl & Hr & Hk).
    destruct (mapM _ (zip kpts desc)) as [ps|] eqn:Hps; [|discriminate].
    injection Hrun as <- <-.
    destruct (orient_total kp) as (kp' & Ho & Hsame).
    destruct (Hfn kp' row Hrow) as (row' & Hf & Hrow').
    exists (kp' :: map fst ps), (row' :: map snd ps).
    assert (Hinv : invoke options evolution upright fn (kp, row) = Some (kp', row'))
      by (unfold invoke; cbn [fst snd]; rewrite Ho, Hf; reflexivity).
    change (zip (kp :: kpts) (row :: desc)) with ((kp, row) :: zip kpts desc).
    rewrite (mapM_cons_Some _ _ _ _ _ Hinv Hps).
    split; [reflexivity|]. split; [simpl; lia|]. split; constructor; assumption.
Qed.

Lemma same_point_fields (kpts kpts' : list KeyPoint) :
  Forall2 (fun k k' => same_point k k') kpts kpts' ->
  Forall2 (fun k k' => pt_x k' = pt_x k /\ pt_y k' = pt_y k /\ size k' = size k /\
                       response k' = response k /\ kp_octave k' = kp_octave k /\
                       class_id k' = class_id k) kpts kpts' /\
  (upright = true -> Forall (fun k' => angle k' = fzero) kpts').
Proof.
  induction 1 as [|k k' ks ks' (H1 & H2 & H3 & H4 & H5 & H6 & H7) _ [IH1 IH2]].
  - split; [constructor|]. intros _. constructor.
  - split; [constructor; [by repeat split | exact IH1]|].
    intros Hup. constructor; [exact (H7 Hup) | exact (IH2 Hup)].
Qed.

Lemma fields_refl (kpts : list KeyPoint) :
  Forall2 (fun k k' => pt_x k' = pt_x k /\ pt_y k' = pt_y k /\ size k' = size k /\
                       response k' = response k /\ kp_octave k' = kp_octave k /\
                       class_id k' = class_id k) kpts kpts.
Proof. induction kpts; constructor; [by repeat split | assumption]. Qed.

(** [Feature_Description] ends for every list of keypoints, on every
    scale space and with every setting.  It gives one row for each
    keypoint, of 128 entries in the extended mode and of 64 otherwise.
    Each keypoint keeps its position, size, response, octave and level:
    only its angle can change.  In the upright mode with one of the three
    descriptors the angle of every keypoint is set to zero.  With a
    descriptor number other than 0, 1 and 2 nothing is computed: the
    keypoints are returned as they were, also their angles, and every row
    holds zeros only. *)
Theorem Feature_Description_shape (kpts : list KeyPoint) :
  exists kpts' desc,
    Feature_Description options evolution descriptor upright extended kpts = Some (kpts', desc) /\
    length desc = length kpts /\
    Forall (fun row => length row = row_length) desc /\
    Forall2 (fun k k' => pt_x k' = pt_x k /\ pt_y k' = pt_y k /\ size k' = size k /\
                         response k' = response k /\ kp_octave k' = kp_octave k /\
                         class_id k' = class_id k) kpts kpts' /\
    (upright = true -> 0 <= descriptor <= 2 -> Forall (fun k' => angle k' = fzero) kpts') /\
    (descriptor < 0 \/ 2 < descriptor ->
       kpts' = kpts /\ Forall (fun row => row = replicate row_length fzero) desc).
Proof.
  unfold Feature_Description. cbv zeta.
  set (desc0 := replicate (length kpts) (replicate row_length fzero)).
  assert (Hlen0 : length desc0 = length kpts) by apply length_replicate.
  assert (Hrows0 : Forall (fun row => length row = row_length) desc0).
  { apply Forall_forall. intros row Hin. apply elem_of_replicate in Hin as [-> _].
    apply length_replicate. }
  assert (Hrun : forall fn,
    (forall kp row, length row = row_length ->
       exists row', fn kp row = Some row' /\ length row' = row_length) ->
    exists kpts' desc,
      parallel_for options evolution upright fn kpts desc0 = Some (kpts', desc) /\
      length desc = length kpts /\
      Forall (fun row => length row = row_length) desc /\
      Forall2 (fun k k' => pt_x k' = pt_x k /\ pt_y k' = pt_y k /\ size k' = size k /\
                           response k' = response k /\ kp_octave k' = kp_octave k /\
                           class_id k' = class_id k) kpts kpts' /\
      (upright = true -> Forall (fun k' => angle k' = fzero) kpts')).
  { intros fn Hfn.
    destruct (parallel_for_shape fn kpts desc0 Hfn Hlen0 Hrows0) as (ks & ds & Hr & Hl & Hrs & Hk).
    destruct (same_point_fields _ _ Hk) as [Hf Ha].
    exists ks, ds. by repeat split. }
  destruct (descriptor =? 0) eqn:E0; [apply Z.eqb_eq in E0|apply Z.eqb_neq in E0].
  { destruct (Hrun _ SURF_fn_total) as (ks & ds & Hr & Hl & Hrs & Hf & Ha).
    exists ks, ds. repeat split; try assumption; try (intros; lia). intros Hup _. exact (Ha Hup). }
  destruct (descriptor =? 1) eqn:E1; [apply Z.eqb_eq in E1|apply Z.eqb_neq in E1].
  { destruct (Hrun _ MSURF_fn_total) as (ks & ds & Hr & Hl & Hrs & Hf & Ha).
    exists ks, ds. repeat split; try assumption; try (intros; lia). intros Hup _. exact (Ha Hup). }
  destruct (descriptor =? 2) eqn:E2; [apply Z.eqb_eq in E2|apply Z.eqb_neq in E2].
  { destruct (Hrun _ GSURF_fn_total) as (ks & ds & Hr & Hl & Hrs & Hf & Ha).
    exists ks, ds. repeat split; try assumption; try (intros; lia). intros Hup _. exact (Ha Hup). }
  exists kpts, desc0. split; [reflexivity|]. split; [exact Hlen0|]. split; [exact Hrows0|].
  split; [apply fields_refl|]. split; [intros _ ?; lia|]. intros _. split; [reflexivity|].
  apply Forall_forall. intros row Hin. by apply elem_of_replicate in Hin as [-> _].
Qed.

End Description_facts.
(* ================================================================== *)
(** * The detector response *)
(* ================================================================== *)
Section Response_facts.
Import IEEE Model Response.

Lemma Ldet_at_set (m : Mat) (y x y' x' : Z) (v : float) :
  0 <= y -> 0 <= x < cols m -> 0 <= y' -> 0 <= x' < cols m ->
  y * cols m + x < Z.of_nat (length (data m)) ->
  Mat_at (Mat_set m y x v) y' x'
  = if decide (y' = y /\ x' = x) then v else Mat_at m y' x'.
Proof.
  intros Hy Hx Hy' Hx' Hlen. unfold Mat_at, Mat_set. cbn [cols data].
  assert (0 <= y * cols m) by nia.
  rewrite !nth_lookup. case_decide as Hd.
  - destruct Hd as [-> ->]. rewrite list_lookup_insert_eq by lia. reflexivity.
  - rewrite list_lookup_insert_ne; [reflexivity|].
    intros Heq. apply Hd. apply Z2Nat.inj in Heq; [|nia|nia].
    assert (Hyy : y = y') by nia. subst y'. split; [reflexivity|lia].
Qed.

(** What the loops keep of a level: every member but the entries of
    [Ldet]. *)
Local Abbreviation keeps e acc :=
  (Lx acc = Lx e /\ Ly acc = Ly e /\ Lxx acc = Lxx e /\ Lxy acc = Lxy e /\ Lyy acc = Lyy e /\
  esigma acc = esigma e /\ etime acc = etime e /\ sigma_size acc = sigma_size e /\
  octave acc = octave e /\ sublevel acc = sublevel e /\
  rows (Ldet acc) = rows (Ldet e) /\ cols (Ldet acc) = cols (Ldet e) /\
  length (data (Ldet acc)) = length (data (Ldet e))).

Local Abbreviation determinant e ix jx :=
  (fsub (fmul (Mat_at (Lxx e) ix jx) (Mat_at (Lyy e) ix jx))
        (fmul (Mat_at (Lxy e) ix jx) (Mat_at (Lxy e) ix jx))).

Lemma response_level_spec (options : KAZEOptions) (e : tevolution) :
  cols (Ldet e) = img_width options ->
  img_width options * img_height options <= Z.of_nat (length (data (Ldet e))) ->
  keeps e (response_level options e) /\
  forall ix jx, 0 <= ix < img_height options -> 0 <= jx < img_width options ->
    Mat_at (Ldet (response_level options e)) ix jx = determinant e ix jx.
Proof.
  intros Hcols Hlen. set (W := img_width options) in *. set (H := img_height options) in *.
  destruct (Z_lt_le_dec H 0) as [Hneg|Hpos].
  { unfold response_level. fold H. rewrite for_range_empty by lia.
    split; [by repeat split|]. intros; lia. }
  pose (P := fun (i : Z) (acc : tevolution) =>
    keeps e acc /\
    forall y x, 0 <= y < H -> 0 <= x < W ->
      Mat_at (Ldet acc) y x = if decide (y < i) then determinant e y x else Mat_at (Ldet e) y x).
  assert (HP : P H (response_level options e)).
  { unfold response_level. fold H W. apply for_range_ind; [lia| |].
    - split; [by repeat split|]. intros y x Hy Hx. by rewrite decide_False by lia.
    - intros i acc Hi [Hk Hacc].
      destruct (Z_lt_le_dec W 0) as [Wneg|Wpos].
      { rewrite for_range_empty by lia. split; [exact Hk|]. intros; lia. }
      pose (Q := fun (j : Z) (a : tevolution) =>
        keeps e a /\
        forall y x, 0 <= y < H -> 0 <= x < W ->
          Mat_at (Ldet a) y x
          = if decide (y < i \/ (y = i /\ x < j)) then determinant e y x
            else Mat_at (Ldet e) y x).
      assert (HQ : Q W (for_range 0 W (fun jx e0 => response_pixel i jx e0) acc)).
      { apply for_range_ind; [lia| |].
        - split; [exact Hk|]. intros y x Hy Hx. rewrite Hacc by assumption.
          repeat case_decide; try lia; reflexivity.
        - intros j a Hj [Hka Ha].
          destruct Hka as (K1 & K2 & K3 & K4 & K5 & K6 & K7 & K8 & K9 & K10 & K11 & K12 & K13).
          split.
          + unfold response_pixel, with_Ldet, Mat_set.
            cbn [Lx Ly Lxx Lxy Lyy Ldet esigma etime sigma_size octave sublevel rows cols data].
            rewrite length_insert. by repeat split.
          + intros y x Hy Hx. unfold response_pixel, with_Ldet. cbn [Ldet].
            rewrite Ldet_at_set by (rewrite ?K12, ?K13, ?Hcols; fold W; nia).
            rewrite K3, K4, K5.
            rewrite Ha by assumption.
            repeat case_decide; try lia; try reflexivity.
            all: match goal with Hd : _ /\ _ |- _ => destruct Hd as [-> ->] end; reflexivity. }
      destruct HQ as [HkQ HQ]. split; [exact HkQ|].
      intros y x Hy Hx. rewrite HQ by assumption.
      repeat case_decide; try lia; reflexivity. }
  destruct HP as [Hk HP]. split; [exact Hk|].
  intros ix jx Hix Hjx. rewrite HP by assumption. by rewrite decide_True by lia.
Qed.

Lemma for_range_alter_all {A} (f : A -> A) (l : list A) :
  for_range 0 (Z.of_nat (length l)) (fun i acc => alter f (Z.to_nat i) acc) l = map f l.
Proof.
  unfold for_range. rewrite Z.sub_0_r.
  assert (H : forall k, (k <= length l)%nat ->
    fold_left (fun acc i => alter f (Z.to_nat i) acc) (seqZ 0 (Z.of_nat k)) l
    = map f (take k l) ++ drop k l).
  { induction k as [|k IH]; intros Hk; [reflexivity|].
    rewrite seqZ_S, fold_left_app, IH by lia. simpl.
    rewrite Z.add_0_l, Nat2Z.id.
    destruct (lookup_lt_is_Some_2 l k ltac:(lia)) as [x Hx].
    rewrite (drop_S _ _ _ Hx), (take_S_r _ _ _ Hx), map_app. simpl.
    assert (Hlen : length (map f (take k l)) = k) by (rewrite length_map, length_take; lia).
    rewrite alter_app_r_alt by lia. rewrite Hlen, Nat.sub_diag. simpl.
    by rewrite <- app_assoc. }
  rewrite H by lia. by rewrite firstn_all, drop_all, app_nil_r.
Qed.

Lemma lookup_level_map {A B} (f : A -> B) (l : list A) (i : nat) :
  map f l !! i = f <$> l !! i.
Proof. revert i. induction l as [|x l IH]; intros [|i]; simpl; auto. Qed.

End Response_facts.

Section Response_properties.
Import IEEE Model Response.
Variable options : KAZEOptions.
Variable Compute_Multiscale_Derivatives : KAZEEvolution -> KAZEEvolution.

(** After [Compute_Detector_Response], at every pixel of every level,
    [Ldet] holds [lxx*lyy - lxy*lxy] of the second derivatives that
    [Compute_Multiscale_Derivatives] left there, computed in single
    precision; the number of levels, the other members of each level and
    the shape of [Ldet] are as the derivatives call left them.  The
    matrices [Ldet] are taken to be as wide as the image and to hold all
    its pixels. *)
Theorem detector_response_is_hessian_determinant (evolution : KAZEEvolution) :
  Forall (fun e => cols (Ldet e) = img_width options /\
                   img_width options * img_height options <= Z.of_nat (length (data (Ldet e))))
         (Compute_Multiscale_Derivatives evolution) ->
  length (Compute_Detector_Response options Compute_Multiscale_Derivatives evolution)
  = length (Compute_Multiscale_Derivatives evolution) /\
  forall i e, Compute_Multiscale_Derivatives evolution !! i = Some e ->
    exists e',
      Compute_Detector_Response options Compute_Multiscale_Derivatives evolution !! i = Some e' /\
      Lx e' = Lx e /\ Ly e' = Ly e /\ Lxx e' = Lxx e /\ Lxy e' = Lxy e /\ Lyy e' = Lyy e /\
      esigma e' = esigma e /\ etime e' = etime e /\ sigma_size e' = sigma_size e /\
      octave e' = octave e /\ sublevel e' = sublevel e /\
      rows (Ldet e') = rows (Ldet e) /\ cols (Ldet e') = cols (Ldet e) /\
      length (data (Ldet e')) = length (data (Ldet e)) /\
      forall ix jx, 0 <= ix < img_height options -> 0 <= jx < img_width options ->
        Mat_at (Ldet e') ix jx
        = fsub (fmul (Mat_at (Lxx e) ix jx) (Mat_at (Lyy e) ix jx))
               (fmul (Mat_at (Lxy e) ix jx) (Mat_at (Lxy e) ix jx)).
Proof.
  intros Hshape.
  assert (Hrun : Compute_Detector_Response options Compute_Multiscale_Derivatives evolution
                 = map (response_level options) (Compute_Multiscale_Derivatives evolution))
    by exact (for_range_alter_all (response_level options) (Compute_Multiscale_Derivatives evolution)).
  rewrite Hrun. split; [apply length_map|].
  intros i e Hi. exists (response_level options e).
  unfold KAZEEvolution in *. rewrite lookup_level_map, Hi. split; [reflexivity|].
  rewrite Forall_forall in Hshape.
  destruct (Hshape e) as [Hc Hl]; [by eapply list_elem_of_lookup_2|].
  destruct (response_level_spec options e Hc Hl)
    as [(K1 & K2 & K3 & K4 & K5 & K6 & K7 & K8 & K9 & K10 & K11 & K12 & K13) Hdet].
  repeat (split; [assumption|]). exact Hdet.
Qed.

End Response_properties.

Section Response_examples.
Import IEEE Model Response Cases.

Lemma response_of_curved_level :
  length (Compute_Detector_Response curved_options (fun evolution => evolution) curved_levels)
  = length curved_levels /\
  forall i e, curved_levels !! i = Some e ->
    exists e',
      Compute_Detector_Response curved_options (fun evolution => evolution) curved_levels !! i
      = Some e' /\
      Lx e' = Lx e /\ Ly e' = Ly e /\ Lxx e' = Lxx e /\ Lxy e' = Lxy e /\ Lyy e' = Lyy e /\
      esigma e' = esigma e /\ etime e' = etime e /\ sigma_size e' = sigma_size e /\
      octave e' = octave e /\ sublevel e' = sublevel e /\
      rows (Ldet e') = rows (Ldet e) /\ cols (Ldet e') = cols (Ldet e) /\
      length (data (Ldet e')) = length (data (Ldet e)) /\
      forall ix jx, 0 <= ix < img_height curved_options -> 0 <= jx < img_width curved_options ->
        Mat_at (Ldet e') ix jx
        = fsub (fmul (Mat_at (Lxx e) ix jx) (Mat_at (Lyy e) ix jx))
               (fmul (Mat_at (Lxy e) ix jx) (Mat_at (Lxy e) ix jx)).
Proof.
  apply (detector_response_is_hessian_determinant curved_options (fun evolution => evolution)
           curved_levels).
  repeat constructor; vm_compute; congruence.
Defined.

(** The response of the example level: [2*3 - 1*1], [1*1 - 1*1],
    [0*7 - 5*5] and [3*3 - 0*0]. *)
Example response_of_curved_level_evaluated :
  map (fun e => data (Ldet e))
      (Compute_Detector_Response curved_options (fun evolution => evolution) curved_levels)
  = [[fconst 5 0; fzero; fconst (-25) 0; fconst 9 0]].
Proof. vm_compute. reflexivity. Qed.

End Response_examples.
(* ================================================================== *)
(** * The two passes of the AOS step *)
(* ================================================================== *)
Section AOS_passes.
Import AOS.
Context {F : Type} {ar : Arith F}.

(** [AOS_Rows] and [AOS_Columns] work on separate members of the object
    ([qr], [py], [ay], [by], [Lty] and [qc], [px], [ax], [bx], [Ltx]):
    run in either order, from any state of these members and in any
    arithmetic, they leave the same members behind, and so
    [0.5*(Lty + Ltx.t())] is the same image. *)
Theorem AOS_passes_commute (Ldprev c : Mat F) (stepsize : F) (st : Scratch F) :
  AOS_Columns Ldprev c stepsize (AOS_Rows Ldprev c stepsize st)
  = AOS_Rows Ldprev c stepsize (AOS_Columns Ldprev c stepsize st) /\
  fst (AOS_Step_Scalar Ldprev c stepsize st)
  = (let st' := AOS_Rows Ldprev c stepsize (AOS_Columns Ldprev c stepsize st) in
     Mat_map (amul ahalf) (Mat_add (Lty st') (Mat_t (Ltx st')))).
Proof.
  assert (Hcomm : AOS_Columns Ldprev c stepsize (AOS_Rows Ldprev c stepsize st)
                  = AOS_Rows Ldprev c stepsize (AOS_Columns Ldprev c stepsize st)).
  { reflexivity. }
  split; [exact Hcomm|].
  unfold AOS_Step_Scalar. cbv zeta. cbn [fst]. by rewrite Hcomm.
Qed.

End AOS_passes.
